(** * Neon Divide: the grid simulation and its capture algorithm

    A shallow embedding of the game canvas component (the grid based one,
    with flood fill capture): the flat cell array, the flood fill, the
    percentage computation, the death handler and the per-tick game loop.

    Conventions of the embedding.
    - A JavaScript number that only ever holds an integer is a [Z].  Player
      and enemy coordinates start at integers and change by integer steps
      and integer clamps only, so [Math.floor] of a coordinate is the
      coordinate itself.  The one genuinely fractional computation, the
      quotient in [calculatePercentage], is carried out on IEEE 754 binary64
      values ([spec_float] with 53 bits of precision).
    - A JavaScript array is an object keyed by its indices: reading an index
      that holds nothing gives [undefined], and writing an index adds the
      element.  The grid [number[]] is therefore a finite map [gmap Z Z] from
      index to cell value; a missing index reads as [None], which compares
      unequal to every cell value.
    - React refs are fields of one [World] record threaded through the
      functions; [setGameState] updaters are applied in call order.
    - Rendering, particles and the canvas lookups are left out. *)

From Stdlib Require Import ZArith Lia Floats.SpecFloat.
From stdpp Require Import base list gmap mapset.

Local Open Scope Z_scope.

(** ** Constants *)

Definition GRID_WIDTH : Z := 84.
Definition GRID_HEIGHT : Z := 48.
Definition WIN_PERCENTAGE : Z := 75.
Definition PLAYER_SPEED : Z := 1.
Definition ENEMY_SPEED : Z := 1.
Definition PLAY_AREA_LEFT : Z := 13.
Definition PLAY_AREA_TOP : Z := 1.
Definition PLAY_AREA_RIGHT : Z := 83.
Definition PLAY_AREA_BOTTOM : Z := 47.

Definition CELL_EMPTY : Z := 0.
Definition CELL_WALL : Z := 1.
Definition CELL_TRAIL : Z := 2.
Definition CELL_CAPTURED : Z := 1.

(** ** JavaScript arrays and numbers *)

Module JS.

(** [grid[i]]: [None] is [undefined]. *)
Definition rd (g : gmap Z Z) (i : Z) : option Z := g !! i.

(** [grid[i] = v] *)
Definition wr (g : gmap Z Z) (i : Z) (v : Z) : gmap Z Z := <[i := v]> g.

(** [grid[i] === c] *)
Definition cell_is (g : gmap Z Z) (i : Z) (c : Z) : bool :=
  match rd g i with
  | Some v => v =? c
  | None => false
  end.

(** [for (let i = lo; i < hi; i++) body], as a state transformer. *)
Fixpoint for_from {S : Type} (n : nat) (i : Z) (body : Z -> S -> S) (s : S) : S :=
  match n with
  | O => s
  | Datatypes.S n' => for_from n' (i + 1) body (body i s)
  end.

Definition for_range {S : Type} (lo hi : Z) (body : Z -> S -> S) (s : S) : S :=
  for_from (Z.to_nat (hi - lo)) lo body s.

(** [new Array(n).fill(v)] *)
Definition Array_fill (n : Z) (v : Z) : gmap Z Z :=
  for_range 0 n (fun i g => wr g i v) ∅.

(** [visited.add(key)] on a [Set]. *)
Definition Set_add (key : Z * Z) (visited : gset (Z * Z)) : gset (Z * Z) :=
  Mapset (<[key := tt]> (mapset_car visited)).

(** Doubles. *)
Definition prec : Z := 53.
Definition emax : Z := 1024.
Definition number_of_Z (z : Z) : spec_float := binary_normalize prec emax z 0 false.
Definition div (a b : spec_float) : spec_float := SFdiv prec emax a b.
Definition mul (a b : spec_float) : spec_float := SFmul prec emax a b.

(** [Math.floor] of a double whose floor is an integer; on NaN and the
    infinities (where [Math.floor] returns its argument) the model
    returns 0, and no call below reaches that case. *)
Definition Math_floor (f : spec_float) : Z :=
  match f with
  | S754_finite s m e => Z.shiftl (cond_Zopp s (Z.pos m)) e
  | _ => 0
  end.

End JS.

Import JS.

(** ** Helper functions *)

Definition createInitialGrid : gmap Z Z :=
  let grid := Array_fill (GRID_WIDTH * GRID_HEIGHT) CELL_EMPTY in
  (* top border (row 0) *)
  let grid := for_range (PLAY_AREA_LEFT - 1) (PLAY_AREA_RIGHT + 1)
                (fun x g => wr g (x + 0 * GRID_WIDTH) CELL_WALL) grid in
  (* bottom border (row 47) *)
  let grid := for_range (PLAY_AREA_LEFT - 1) (PLAY_AREA_RIGHT + 1)
                (fun x g => wr g (x + PLAY_AREA_BOTTOM * GRID_WIDTH) CELL_WALL) grid in
  (* left border (column 12) *)
  let grid := for_range 0 (PLAY_AREA_BOTTOM + 1)
                (fun y g => wr g ((PLAY_AREA_LEFT - 1) + y * GRID_WIDTH) CELL_WALL) grid in
  (* right border (column 83) *)
  let grid := for_range 0 (PLAY_AREA_BOTTOM + 1)
                (fun y g => wr g (PLAY_AREA_RIGHT + y * GRID_WIDTH) CELL_WALL) grid in
  grid.

Definition isInPlayArea (x y : Z) : bool :=
  (PLAY_AREA_LEFT <=? x) && (x <? PLAY_AREA_RIGHT) &&
  (PLAY_AREA_TOP <=? y) && (y <? PLAY_AREA_BOTTOM).

Definition inGrid (x y : Z) : bool :=
  (0 <=? x) && (x <? GRID_WIDTH) && (0 <=? y) && (y <? GRID_HEIGHT).

Definition isOnWall (x y : Z) (grid : gmap Z Z) : bool :=
  if (x <? 0) || (GRID_WIDTH <=? x) || (y <? 0) || (GRID_HEIGHT <=? y) then true
  else cell_is grid (x + y * GRID_WIDTH) CELL_WALL.

Definition hasAdjacentWall (x y : Z) (grid : gmap Z Z) : bool :=
  existsb (fun dy =>
    existsb (fun dx =>
      if (dx =? 0) && (dy =? 0) then false
      else
        let nx := x + dx in
        let ny := y + dy in
        inGrid nx ny && cell_is grid (nx + ny * GRID_WIDTH) CELL_WALL)
      [-1; 0; 1])
    [-1; 0; 1].

Definition isAdjacentToVoid (x y : Z) (grid : gmap Z Z) : bool :=
  existsb (fun n : Z * Z =>
    inGrid n.1 n.2 && cell_is grid (n.1 + n.2 * GRID_WIDTH) CELL_EMPTY)
    [(x + 1, y); (x - 1, y); (x, y + 1); (x, y - 1)].

(** ** Flood fill *)

(** The loop state: the explicit stack (its top is the head of the list),
    the [visited] set (keyed by the string ["cx,cy"], which determines the
    pair), the array being labelled, and the running [enemyCount]. *)
Record FillState := mkFill {
  fs_stack : list (Z * Z);
  fs_visited : gset (Z * Z);
  fs_grid : gmap Z Z;
  fs_count : Z
}.

(** [Math.abs(ex - cx) <= 1 && Math.abs(ey - cy) <= 1] *)
Definition enemyNear (cx cy : Z) (enemy : Z * Z) : bool :=
  (Z.abs (enemy.1 - cx) <=? 1) && (Z.abs (enemy.2 - cy) <=? 1).

(** The inner [for (const enemy of enemyPositions)] loop. *)
Definition countNear (cx cy : Z) (enemyPositions : list (Z * Z)) (enemyCount : Z) : Z :=
  fold_left (fun n enemy => if enemyNear cx cy enemy then n + 1 else n)
            enemyPositions enemyCount.

Definition pushIfEmpty (grid : gmap Z Z) (x y : Z) (stack : list (Z * Z)) : list (Z * Z) :=
  if cell_is grid (x + y * GRID_WIDTH) CELL_EMPTY then (x, y) :: stack else stack.

(** One iteration of [while (stack.length > 0)]. *)
Definition floodFill_iter (fillValue : Z) (enemyPositions : list (Z * Z))
    (c : Z * Z) (rest : list (Z * Z)) (st : FillState) : FillState :=
  let '(cx, cy) := c in
  if bool_decide ((cx, cy) ∈ fs_visited st) then
    mkFill rest (fs_visited st) (fs_grid st) (fs_count st)
  else
    let visited := Set_add (cx, cy) (fs_visited st) in
    if (cx <? PLAY_AREA_LEFT) || (PLAY_AREA_RIGHT <=? cx) ||
       (cy <? PLAY_AREA_TOP) || (PLAY_AREA_BOTTOM <=? cy) then
      mkFill rest visited (fs_grid st) (fs_count st)
    else
      let idx := cx + cy * GRID_WIDTH in
      if negb (cell_is (fs_grid st) idx CELL_EMPTY) then
        mkFill rest visited (fs_grid st) (fs_count st)
      else
        let grid := wr (fs_grid st) idx fillValue in
        let enemyCount := countNear cx cy enemyPositions (fs_count st) in
        let stack := pushIfEmpty grid (cx - 1) cy rest in
        let stack := pushIfEmpty grid (cx + 1) cy stack in
        let stack := pushIfEmpty grid cx (cy - 1) stack in
        let stack := pushIfEmpty grid cx (cy + 1) stack in
        mkFill stack visited grid enemyCount.

Fixpoint floodFill_loop (fuel : nat) (fillValue : Z) (enemyPositions : list (Z * Z))
    (st : FillState) : option FillState :=
  match fs_stack st with
  | [] => Some st
  | c :: rest =>
      match fuel with
      | O => None
      | S fuel' =>
          floodFill_loop fuel' fillValue enemyPositions
            (floodFill_iter fillValue enemyPositions c rest st)
      end
  end.

(** Iterations that always suffice: every iteration pops one entry, and only
    the first visit of a play-area cell pushes (at most four). *)
Definition FILL_FUEL : nat := Z.to_nat (5 * 3220 + 1).

Definition floodFill_run (startX startY fillValue : Z) (grid : gmap Z Z)
    (enemyPositions : list (Z * Z)) : option FillState :=
  floodFill_loop FILL_FUEL fillValue enemyPositions
    (mkFill [(startX, startY)] ∅ grid 0).

(** [floodFill] returns the count and leaves its labels in the array it was
    given; the model returns both.  [floodFill_terminates] shows that the
    default case is never taken. *)
Definition floodFill (startX startY fillValue : Z) (grid : gmap Z Z)
    (enemyPositions : list (Z * Z)) : Z * gmap Z Z :=
  match floodFill_run startX startY fillValue grid enemyPositions with
  | Some st => (fs_count st, fs_grid st)
  | None => (0, grid)
  end.

(** ** Percentage *)

Definition capturedCount (grid : gmap Z Z) : Z :=
  for_range PLAY_AREA_TOP PLAY_AREA_BOTTOM (fun y =>
    for_range PLAY_AREA_LEFT PLAY_AREA_RIGHT (fun x capturedCount =>
      if cell_is grid (x + y * GRID_WIDTH) CELL_WALL then capturedCount + 1
      else capturedCount)) 0.

Definition totalArea : Z :=
  (PLAY_AREA_RIGHT - PLAY_AREA_LEFT) * (PLAY_AREA_BOTTOM - PLAY_AREA_TOP).

(** [Math.floor((capturedCount / totalArea) * 100)], on doubles. *)
Definition percentageOfCount (capturedCount : Z) : Z :=
  Math_floor (mul (div (number_of_Z capturedCount) (number_of_Z totalArea))
                  (number_of_Z 100)).

Definition calculatePercentage (grid : gmap Z Z) : Z :=
  percentageOfCount (capturedCount grid).

(** ** Game types *)

Inductive PlayerState := onWall | onStage.
Inductive GameStatus := playing | dead | levelComplete | paused | levelAnnounce.

Record Enemy := mkEnemy {
  e_x : Z;
  e_y : Z;
  e_vx : Z;
  e_vy : Z;
  e_rotation : nat  (* number of 0.08 increments; only drawn *)
}.

Record GameState := mkGameState {
  status : GameStatus;
  score : Z;
  percentage : Z;
  level : Z;
  lives : Z
}.

(** The refs of the component and its React state. *)
Record World := mkWorld {
  gridRef : gmap Z Z;
  playerPos : Z * Z;
  playerSpeed : Z * Z;
  playerState : PlayerState;
  enemies : list Enemy;
  gameState : GameState;
  tickCount : Z
}.

#[global] Instance PlayerState_eq_dec : EqDecision PlayerState.
Proof. solve_decision. Defined.
#[global] Instance GameStatus_eq_dec : EqDecision GameStatus.
Proof. solve_decision. Defined.

Definition isOnStage (s : PlayerState) : bool :=
  match s with onStage => true | onWall => false end.

Definition isPlaying (s : GameStatus) : bool :=
  match s with playing => true | _ => false end.

(** ** Randomness

    [Math.random] is an oracle: the [k]-th call made by a handler returns the
    double [random k]. *)

Definition half : spec_float := binary_normalize prec emax 1 (-1) false.

(** [Math.floor(Math.random() * n)] *)
Definition randomBelow (r : spec_float) (n : Z) : Z :=
  Math_floor (mul r (number_of_Z n)).

(** [Math.random() > 0.5 ? ENEMY_SPEED : -ENEMY_SPEED] *)
Definition randomSpeed (r : spec_float) : Z :=
  if SFltb half r then ENEMY_SPEED else - ENEMY_SPEED.

(** The body of [enemies.current.forEach(enemy => ...)] that every reset
    shares; the [k]-th enemy consumes draws [4k .. 4k+3] counted from
    [base]. *)
Definition respawnEnemy (random : nat -> spec_float) (base k : nat) (enemy : Enemy) : Enemy :=
  let i := (base + 4 * k)%nat in
  mkEnemy
    (PLAY_AREA_LEFT + 10 + randomBelow (random i) (PLAY_AREA_RIGHT - PLAY_AREA_LEFT - 20))
    (PLAY_AREA_TOP + 5 + randomBelow (random (i + 1)%nat) (PLAY_AREA_BOTTOM - PLAY_AREA_TOP - 10))
    (randomSpeed (random (i + 2)%nat))
    (randomSpeed (random (i + 3)%nat))
    (e_rotation enemy).

Definition respawnEnemies (random : nat -> spec_float) (base : nat) (es : list Enemy) : list Enemy :=
  imap (respawnEnemy random base) es.

Definition playerStart : Z * Z := (48, PLAY_AREA_BOTTOM).

(** ** State handlers *)

Definition handlePlayerDeath (random : nat -> spec_float) (w : World) : World :=
  let prev := gameState w in
  let newLives := lives prev - 1 in
  if newLives <? 0 then
    mkWorld (gridRef w) (playerPos w) (playerSpeed w) (playerState w) (enemies w)
      (mkGameState dead (score prev) (percentage prev) (level prev) (lives prev))
      (tickCount w)
  else
    (* reset for next life (keep score and level) *)
    mkWorld createInitialGrid playerStart (0, 0) onWall
      (respawnEnemies random 0 (enemies w))
      (mkGameState playing (score prev) 0 (level prev) newLives)
      (tickCount w).

Definition resetStage (random : nat -> spec_float) (w : World) : World :=
  let prev := gameState w in
  mkWorld createInitialGrid playerStart (0, 0) onWall
    (respawnEnemies random 0 (enemies w))
    (mkGameState playing (score prev) 0 (level prev) (lives prev))
    (tickCount w).

(** [advanceLevel], the part that runs at once: the announcement. *)
Definition advanceLevel (w : World) : World :=
  let prev := gameState w in
  mkWorld (gridRef w) (playerPos w) (playerSpeed w) (playerState w) (enemies w)
    (mkGameState levelAnnounce (score prev + 1000) (percentage prev) (level prev + 1) (lives prev))
    (tickCount w).

(** [advanceLevel], the callback of its two second timer. *)
Definition advanceLevel_timeout (random : nat -> spec_float) (w : World) : World :=
  let prev := gameState w in
  let newEnemy :=
    mkEnemy
      (PLAY_AREA_LEFT + 10 + randomBelow (random 0%nat) (PLAY_AREA_RIGHT - PLAY_AREA_LEFT - 20))
      (PLAY_AREA_TOP + 5 + randomBelow (random 1%nat) (PLAY_AREA_BOTTOM - PLAY_AREA_TOP - 10))
      (randomSpeed (random 2%nat))
      (randomSpeed (random 3%nat))
      0%nat in
  mkWorld createInitialGrid playerStart (0, 0) onWall
    (respawnEnemies random 4 (enemies w ++ [newEnemy]))
    (mkGameState playing (score prev) 0 (level prev) (lives prev))
    (tickCount w).

Definition firstEnemy (random : nat -> spec_float) : Enemy :=
  mkEnemy (40 + randomBelow (random 0%nat) 20)
          (15 + randomBelow (random 1%nat) 15)
          (randomSpeed (random 2%nat))
          (randomSpeed (random 3%nat))
          0%nat.

Definition resetGame (random : nat -> spec_float) (w : World) : World :=
  mkWorld createInitialGrid playerStart (0, 0) onWall
    [firstEnemy random]
    (mkGameState playing 0 0 1 3)
    (tickCount w).

(** The state the component mounts with. *)
Definition initialWorld (random : nat -> spec_float) : World :=
  mkWorld createInitialGrid playerStart (0, 0) onWall
    [firstEnemy random]
    (mkGameState playing 0 0 1 3)
    0.

(** ** The game loop *)

(** Keyboard state: [pressedKeys k] is [pressedKeys.current[k]] read as a
    condition. *)
Definition processInput (pressedKeys : Z -> bool) (st : PlayerState)
    (speed : Z * Z) : Z * Z :=
  let speed :=
    if pressedKeys 37 || pressedKeys 65 then
      (if isOnStage st then speed else (- PLAYER_SPEED, 0)) else speed in
  let speed :=
    if pressedKeys 39 || pressedKeys 68 then
      (if isOnStage st then speed else (PLAYER_SPEED, 0)) else speed in
  let speed :=
    if pressedKeys 38 || pressedKeys 87 then
      (if isOnStage st then speed else (0, - PLAYER_SPEED)) else speed in
  let speed :=
    if pressedKeys 40 || pressedKeys 83 then
      (if isOnStage st then speed else (0, PLAYER_SPEED)) else speed in
  speed.

(** [grid[ex + ey * GRID_WIDTH] === CELL_TRAIL] for an enemy. *)
Definition enemyOnTrail (grid : gmap Z Z) (enemy : Enemy) : bool :=
  cell_is grid (e_x enemy + e_y enemy * GRID_WIDTH) CELL_TRAIL.

(** The body of the enemy loop after the trail check: bounce, move, clamp. *)
Definition moveEnemy (grid : gmap Z Z) (enemy : Enemy) : Enemy :=
  let ex := e_x enemy in
  let ey := e_y enemy in
  let nextX := ex + e_vx enemy in
  let vx := if cell_is grid (nextX + ey * GRID_WIDTH) CELL_WALL
            then - e_vx enemy else e_vx enemy in
  let nextY := ey + e_vy enemy in
  let vy := if cell_is grid (ex + nextY * GRID_WIDTH) CELL_WALL
            then - e_vy enemy else e_vy enemy in
  let x := e_x enemy + vx in
  let y := e_y enemy + vy in
  let rotation := S (e_rotation enemy) in
  let '(x, vx) := if x <? PLAY_AREA_LEFT then (PLAY_AREA_LEFT, Z.abs vx) else (x, vx) in
  let '(x, vx) := if PLAY_AREA_RIGHT - 1 <=? x then (PLAY_AREA_RIGHT - 2, - Z.abs vx) else (x, vx) in
  let '(y, vy) := if y <? PLAY_AREA_TOP then (PLAY_AREA_TOP, Z.abs vy) else (y, vy) in
  let '(y, vy) := if PLAY_AREA_BOTTOM - 1 <=? y then (PLAY_AREA_BOTTOM - 2, - Z.abs vy) else (y, vy) in
  mkEnemy x y vx vy rotation.

(** [for (const enemy of enemies.current)]: the enemies are updated in
    place, in order; the flag tells that the loop left through the
    [handlePlayerDeath(); return] of an enemy standing on the trail. *)
Fixpoint updateEnemies (grid : gmap Z Z) (es : list Enemy) : bool * list Enemy :=
  match es with
  | [] => (false, [])
  | enemy :: rest =>
      if enemyOnTrail grid enemy then (true, enemy :: rest)
      else
        let '(hit, rest') := updateEnemies grid rest in
        (hit, moveEnemy grid enemy :: rest')
  end.

Definition clampPlayer (p : Z * Z) : Z * Z :=
  (Z.max (PLAY_AREA_LEFT - 1) (Z.min PLAY_AREA_RIGHT p.1),
   Z.max 0 (Z.min PLAY_AREA_BOTTOM p.2)).

(** "Detect wall around player": the 3 x 3 block around the cell, the cell
    itself included. *)
Definition wallAround (grid : gmap Z Z) (currentPx currentPy : Z) : bool :=
  for_range (-1) 2 (fun dy =>
    for_range (-1) 2 (fun dx wallDetected =>
      let checkX := currentPx + dx in
      let checkY := currentPy + dy in
      if inGrid checkX checkY then
        if cell_is grid (checkX + checkY * GRID_WIDTH) CELL_WALL then true
        else wallDetected
      else wallDetected)) false.

(** The guarded write [if (prevX >= 0 && ...) grid[prevX + prevY * GRID_WIDTH] = CELL_TRAIL]. *)
Definition markPrev (grid : gmap Z Z) (pos speed : Z * Z) : gmap Z Z :=
  let prevX := pos.1 - speed.1 in
  let prevY := pos.2 - speed.2 in
  if inGrid prevX prevY then wr grid (prevX + prevY * GRID_WIDTH) CELL_TRAIL
  else grid.

(** "Find start points for flood fill (perpendicular to movement)":
    [((X1, Y1), (X2, Y2))]. *)
Definition floodStartPoints (speed : Z * Z) (currentPx currentPy : Z)
    : (Z * Z) * (Z * Z) :=
  if negb (speed.1 =? 0) then
    ((currentPx, currentPy - 1), (currentPx, currentPy + 1))
  else
    ((currentPx - 1, currentPy), (currentPx + 1, currentPy)).

(** "Determine which side to fill": [(fillThisValue, doNotFillThisValue)]. *)
Definition chooseFill (fill1 fill2 : Z) : Z * Z :=
  if fill1 >=? fill2 then (6, 5) else (5, 6).

(** One cell of "Apply the fill to actual grid". *)
Definition applyFillCell (gridCopy : gmap Z Z) (fillThisValue doNotFillThisValue : Z)
    (idx : Z) (acc : gmap Z Z * Z) : gmap Z Z * Z :=
  let '(grid, areaCaptured) := acc in
  if cell_is grid idx CELL_TRAIL then (wr grid idx CELL_WALL, areaCaptured)
  else if cell_is gridCopy idx fillThisValue then (wr grid idx CELL_WALL, areaCaptured + 1)
  else if cell_is gridCopy idx doNotFillThisValue then (wr grid idx CELL_EMPTY, areaCaptured)
  else (grid, areaCaptured).

Definition applyFill (grid gridCopy : gmap Z Z) (fillThisValue doNotFillThisValue : Z)
    : gmap Z Z * Z :=
  for_range 0 GRID_HEIGHT (fun y =>
    for_range 0 GRID_WIDTH (fun x =>
      applyFillCell gridCopy fillThisValue doNotFillThisValue (x + y * GRID_WIDTH)))
    (grid, 0).

(** What the capture computes from the grid with the trail laid, up to and
    including "Make sure current position is on wall". *)
Record Capture := mkCapture {
  cap_landing : Z * Z;           (* (currentPx, currentPy) *)
  cap_seeds : (Z * Z) * (Z * Z); (* ((X1, Y1), (X2, Y2)) *)
  cap_fill1 : Z;                 (* enemy count of the fill from (X1, Y1), label 5 *)
  cap_fill2 : Z;                 (* enemy count of the fill from (X2, Y2), label 6 *)
  cap_gridCopy : gmap Z Z;       (* the labelled copy *)
  cap_grid : gmap Z Z;           (* the grid after the commit *)
  cap_areaCaptured : Z
}.

Definition capture (grid : gmap Z Z) (speed : Z * Z) (currentPx currentPy : Z)
    (enemyPositions : list (Z * Z)) : Capture :=
  let '((X1, Y1), (X2, Y2)) := floodStartPoints speed currentPx currentPy in
  let gridCopy := grid in
  let '(fill1, gridCopy) := floodFill X1 Y1 5 gridCopy enemyPositions in
  let '(fill2, gridCopy) := floodFill X2 Y2 6 gridCopy enemyPositions in
  let '(fillThisValue, doNotFillThisValue) := chooseFill fill1 fill2 in
  let '(grid, areaCaptured) := applyFill grid gridCopy fillThisValue doNotFillThisValue in
  let grid := wr grid (currentPx + currentPy * GRID_WIDTH) CELL_WALL in
  mkCapture (currentPx, currentPy) ((X1, Y1), (X2, Y2)) fill1 fill2 gridCopy grid areaCaptured.

(** "Check for enemies caught in the filled area and destroy them":
    [(destroyedCount, survivingEnemies)]. *)
Definition enemyOnWall (grid : gmap Z Z) (enemy : Enemy) : bool :=
  cell_is grid (e_x enemy + e_y enemy * GRID_WIDTH) CELL_WALL.

Definition destroyCaught (grid : gmap Z Z) (es : list Enemy) : Z * list Enemy :=
  fold_left (fun (acc : Z * list Enemy) enemy =>
    if enemyOnWall grid enemy then (acc.1 + 1, acc.2)
    else (acc.1, acc.2 ++ [enemy])) es (0, []).

(** "Sidestep to clear position if stuck". *)
Definition sidestep (grid : gmap Z Z) (speed : Z * Z) (currentPx currentPy : Z)
    (pos : Z * Z) : Z * Z :=
  if cell_is grid (currentPx + currentPy * GRID_WIDTH) CELL_WALL then
    let pos :=
      if negb (speed.1 =? 0) then
        if cell_is grid (currentPx + (currentPy - 1) * GRID_WIDTH) CELL_EMPTY
        then (pos.1, pos.2 - 1)
        else if cell_is grid (currentPx + (currentPy + 1) * GRID_WIDTH) CELL_EMPTY
        then (pos.1, pos.2 + 1)
        else pos
      else pos in
    let pos :=
      if negb (speed.2 =? 0) then
        if cell_is grid ((currentPx - 1) + currentPy * GRID_WIDTH) CELL_EMPTY
        then (pos.1 - 1, pos.2)
        else if cell_is grid ((currentPx + 1) + currentPy * GRID_WIDTH) CELL_EMPTY
        then (pos.1 + 1, pos.2)
        else pos
      else pos in
    pos
  else pos.

(** How a tick ended; this tag is not part of the program state, it records
    which [return] of [gameLoop] was taken and, for a closure, what the
    capture computed. *)
Inductive TickEvent :=
  | NotPlaying                        (* status is not 'playing': only drawn *)
  | EnemyHitTrail                     (* handlePlayerDeath() in the enemy loop *)
  | PlayerHitTrail                    (* handlePlayerDeath() on the own trail *)
  | Closure (c : Capture) (win : bool) (* the capture ran; [win]: advanceLevel() *)
  | Moved.                            (* the tick reached the end without capture *)

(** "WALL HIT DETECTION": the player's speed after the checks. *)
Definition checkedSpeed (grid : gmap Z Z) (st : PlayerState) (pos speed : Z * Z) : Z * Z :=
  let nextPx := pos.1 + speed.1 in
  let nextPy := pos.2 + speed.2 in
  let nextCell := rd grid (nextPx + nextPy * GRID_WIDTH) in
  if isOnStage st then
    if bool_decide (nextCell = Some CELL_WALL) then (0, 0) else speed
  else
    if (nextPx <? PLAY_AREA_LEFT - 1) || (PLAY_AREA_RIGHT <? nextPx) ||
       (nextPy <? 0) || (PLAY_AREA_BOTTOM <? nextPy) then (0, 0)
    else if bool_decide (nextCell = Some CELL_WALL) then
      if negb (isAdjacentToVoid nextPx nextPy grid) then (0, 0) else speed
    else speed.

(** Everything after the enemy update. *)
Definition playerPhase (w : World) : TickEvent * World :=
  let grid := gridRef w in
  let pos := playerPos w in
  let speed0 := playerSpeed w in
  let nextPx := pos.1 + speed0.1 in
  let nextPy := pos.2 + speed0.2 in
  let nextCell := rd grid (nextPx + nextPy * GRID_WIDTH) in
  let speed := checkedSpeed grid (playerState w) pos speed0 in
  if isOnStage (playerState w) && bool_decide (nextCell = Some CELL_TRAIL) then
    (PlayerHitTrail,
     mkWorld grid pos speed (playerState w) (enemies w) (gameState w) (tickCount w))
  else
    (* move player, clamp position *)
    let pos := clampPlayer (pos.1 + speed.1, pos.2 + speed.2) in
    let currentPx := pos.1 in
    let currentPy := pos.2 in
    let wallDetected := wallAround grid currentPx currentPy in
    if isOnStage (playerState w) then
      (* leave trail behind *)
      let grid := wr grid (currentPx + currentPy * GRID_WIDTH) CELL_TRAIL in
      let grid := markPrev grid pos speed in
      if wallDetected then
        let enemyPositions := (fun e => (e_x e, e_y e)) <$> enemies w in
        let c := capture grid speed currentPx currentPy enemyPositions in
        let grid := cap_grid c in
        let '(destroyedCount, survivingEnemies) := destroyCaught grid (enemies w) in
        let es := if 0 <? destroyedCount then survivingEnemies else enemies w in
        let newPercentage := calculatePercentage grid in
        let prev := gameState w in
        let gs := mkGameState (status prev)
                    (score prev + cap_areaCaptured c * 10 + destroyedCount * 500)
                    newPercentage (level prev) (lives prev) in
        if WIN_PERCENTAGE <=? newPercentage then
          (Closure c true,
           advanceLevel (mkWorld grid pos speed onStage es gs (tickCount w)))
        else
          let pos := sidestep grid speed currentPx currentPy pos in
          (Closure c false, mkWorld grid pos speed onWall es gs (tickCount w))
      else
        (Moved, mkWorld grid pos speed onStage (enemies w) (gameState w) (tickCount w))
    else
      if negb wallDetected && (negb (speed.1 =? 0) || negb (speed.2 =? 0)) then
        (* leaving wall: mark start of trail *)
        let grid := markPrev grid pos speed in
        (Moved, mkWorld grid pos speed onStage (enemies w) (gameState w) (tickCount w))
      else
        (Moved, mkWorld grid pos speed onWall (enemies w) (gameState w) (tickCount w)).

Definition gameLoopE (pressedKeys : Z -> bool) (random : nat -> spec_float)
    (w : World) : TickEvent * World :=
  if negb (isPlaying (status (gameState w))) then (NotPlaying, w)
  else
    let tick := tickCount w + 1 in
    let speed := processInput pressedKeys (playerState w) (playerSpeed w) in
    (* update enemies, every other tick *)
    let '(hit, es) :=
      if tick mod 2 =? 0 then updateEnemies (gridRef w) (enemies w)
      else (false, enemies w) in
    let w1 := mkWorld (gridRef w) (playerPos w) speed (playerState w) es
                (gameState w) tick in
    if hit then (EnemyHitTrail, handlePlayerDeath random w1)
    else
      match playerPhase w1 with
      | (PlayerHitTrail, w2) => (PlayerHitTrail, handlePlayerDeath random w2)
      | r => r
      end.

Definition gameLoop (pressedKeys : Z -> bool) (random : nat -> spec_float)
    (w : World) : World :=
  (gameLoopE pressedKeys random w).2.

(** * Properties *)

(** ** Array reads and writes *)

Section Arrays.
Implicit Types (g : gmap Z Z) (i j v c : Z).

Lemma rd_wr_ne g i j v : i <> j -> rd (wr g i v) j = rd g j.
Proof. intros Hne. unfold rd, wr. by rewrite lookup_insert_ne. Qed.

Lemma rd_wr_eq g i v : rd (wr g i v) i = Some v.
Proof. unfold rd, wr. by rewrite lookup_insert_eq. Qed.

(** A write changes at most the cell it names, and only to the value
    written. *)
Lemma rd_wr_cases g i j v :
  rd (wr g i v) j = rd g j \/ (j = i /\ rd (wr g i v) j = Some v).
Proof.
  destruct (decide (i = j)) as [->|Hne]; [|left; by apply rd_wr_ne].
  right. split; [reflexivity|apply rd_wr_eq].
Qed.

Lemma cell_is_true g i c : cell_is g i c = true <-> rd g i = Some c.
Proof.
  unfold cell_is. destruct (rd g i) as [v|]; [|split; discriminate].
  rewrite Z.eqb_eq. split; [intros ->; reflexivity|congruence].
Qed.

Lemma cell_is_false g i c : cell_is g i c = false <-> rd g i <> Some c.
Proof.
  rewrite <- cell_is_true. destruct (cell_is g i c); split; congruence.
Qed.

Lemma elem_of_Set_add (key c : Z * Z) (visited : gset (Z * Z)) :
  c ∈ Set_add key visited <-> c = key \/ c ∈ visited.
Proof.
  destruct visited as [m]. unfold Set_add, elem_of, gset_elem_of, mapset_elem_of.
  simpl. rewrite lookup_insert. case_decide as Hk.
  - subst. split; [by left|done].
  - split; [by right|]. intros [->|H]; done.
Qed.

Lemma Set_add_union (key : Z * Z) (visited : gset (Z * Z)) :
  Set_add key visited = {[ key ]} ∪ visited.
Proof. apply set_eq. intros c. rewrite elem_of_Set_add. set_solver. Qed.

End Arrays.

(** ** Counting loops *)

Section Loops.

Lemma for_from_app {St : Type} (n m : nat) (i : Z) (body : Z -> St -> St) (s : St) :
  for_from (n + m) i body s = for_from m (i + Z.of_nat n) body (for_from n i body s).
Proof.
  revert i s. induction n as [|n IH]; intros i s; simpl.
  - f_equal. lia.
  - rewrite IH. f_equal. lia.
Qed.

(** An invariant indexed by the loop counter. *)
Lemma for_from_ind {St : Type} (P : Z -> St -> Prop) (n : nat) (i : Z)
    (body : Z -> St -> St) (s : St) :
  P i s ->
  (forall k t, i <= k < i + Z.of_nat n -> P k t -> P (k + 1) (body k t)) ->
  P (i + Z.of_nat n) (for_from n i body s).
Proof.
  revert i s. induction n as [|n IH]; intros i s H0 Hstep; simpl.
  - by replace (i + Z.of_nat 0) with i by lia.
  - replace (i + Z.of_nat (S n)) with ((i + 1) + Z.of_nat n) by lia.
    apply IH.
    + apply Hstep; [lia|done].
    + intros k t Hk. apply Hstep. lia.
Qed.

Lemma for_range_ind {St : Type} (P : Z -> St -> Prop) (lo hi : Z)
    (body : Z -> St -> St) (s : St) :
  lo <= hi ->
  P lo s ->
  (forall k t, lo <= k < hi -> P k t -> P (k + 1) (body k t)) ->
  P hi (for_range lo hi body s).
Proof.
  intros Hle H0 Hstep. unfold for_range.
  replace hi with (lo + Z.of_nat (Z.to_nat (hi - lo))) at 1 by lia.
  apply for_from_ind; [done|]. intros k t Hk. apply Hstep. lia.
Qed.

End Loops.

(** ** The flood fill *)

(** The cells of the play area, each once. *)
Definition playCells : list (Z * Z) :=
  y ← seqZ PLAY_AREA_TOP (PLAY_AREA_BOTTOM - PLAY_AREA_TOP);
  x ← seqZ PLAY_AREA_LEFT (PLAY_AREA_RIGHT - PLAY_AREA_LEFT);
  [(x, y)].

Definition cellIndex (c : Z * Z) : Z := c.1 + c.2 * GRID_WIDTH.

Lemma isInPlayArea_spec x y :
  isInPlayArea x y = true <->
  PLAY_AREA_LEFT <= x < PLAY_AREA_RIGHT /\ PLAY_AREA_TOP <= y < PLAY_AREA_BOTTOM.
Proof. unfold isInPlayArea. rewrite !andb_true_iff, !Z.leb_le, !Z.ltb_lt. lia. Qed.

Lemma elem_of_playCells x y : (x, y) ∈ playCells <-> isInPlayArea x y = true.
Proof.
  rewrite isInPlayArea_spec. unfold playCells. rewrite list_elem_of_bind. split.
  - intros (y' & Hx & Hy). apply list_elem_of_bind in Hx as (x' & Hc & Hx).
    apply list_elem_of_singleton in Hc. injection Hc as -> ->.
    apply elem_of_seqZ in Hx, Hy. lia.
  - intros [Hx Hy]. exists y. split; [|apply elem_of_seqZ; lia].
    apply list_elem_of_bind. exists x. split; [by apply list_elem_of_singleton|].
    apply elem_of_seqZ. lia.
Qed.

Lemma NoDup_playCells : NoDup playCells.
Proof.
  unfold playCells. apply NoDup_bind; [| |apply NoDup_seqZ].
  - intros y1 y2 c _ _ H1 H2.
    apply list_elem_of_bind in H1 as (x1 & Hc1 & _).
    apply list_elem_of_bind in H2 as (x2 & Hc2 & _).
    apply list_elem_of_singleton in Hc1, Hc2. congruence.
  - intros y _. apply NoDup_bind; [| |apply NoDup_seqZ].
    + intros x1 x2 c _ _ Hc1 Hc2.
      apply list_elem_of_singleton in Hc1, Hc2. congruence.
    + intros x _. apply NoDup_singleton.
Qed.

Lemma length_playCells : length playCells = Z.to_nat totalArea.
Proof. vm_compute. reflexivity. Qed.

Lemma cellIndex_inj c1 c2 :
  c1 ∈ playCells -> c2 ∈ playCells -> cellIndex c1 = cellIndex c2 -> c1 = c2.
Proof.
  destruct c1 as [x1 y1], c2 as [x2 y2]. rewrite !elem_of_playCells, !isInPlayArea_spec.
  unfold cellIndex, PLAY_AREA_LEFT, PLAY_AREA_RIGHT, PLAY_AREA_TOP, PLAY_AREA_BOTTOM,
    GRID_WIDTH. simpl. intros H1 H2 He.
  assert (y1 = y2) by lia. subst. f_equal. lia.
Qed.

Section FloodFill.
Variable fillValue : Z.
Variable enemyPositions : list (Z * Z).

Local Abbreviation iter := (floodFill_iter fillValue enemyPositions).
Local Abbreviation loop fuel := (floodFill_loop fuel fillValue enemyPositions).

(** A property kept by every iteration holds when the loop ends. *)
Lemma floodFill_loop_inv (P : FillState -> Prop) (fuel : nat) (st st' : FillState) :
  (forall c rest s, P s -> fs_stack s = c :: rest -> P (iter c rest s)) ->
  P st ->
  loop fuel st = Some st' ->
  P st' /\ fs_stack st' = [].
Proof.
  intros Hstep. revert st. induction fuel as [|fuel IH]; intros st HP; simpl.
  - destruct (fs_stack st) eqn:E; [|discriminate].
    intros [= <-]. done.
  - destruct (fs_stack st) as [|c rest] eqn:E.
    + intros [= <-]. done.
    + apply IH. by apply Hstep.
Qed.

(** *** Termination *)

Definition unvisited (V : gset (Z * Z)) : nat :=
  length (filter (fun c => c ∉ V) playCells).

Definition fillMeasure (st : FillState) : nat :=
  (5 * unvisited (fs_visited st) + length (fs_stack st))%nat.

Lemma filter_unvisited_le (c : Z * Z) (V : gset (Z * Z)) (l : list (Z * Z)) :
  (length (filter (fun d => d ∉ {[c]} ∪ V) l) <= length (filter (fun d => d ∉ V) l))%nat.
Proof.
  induction l as [|d l IH]; [done|].
  rewrite !filter_cons. repeat case_decide; simpl; try lia. set_solver.
Qed.

Lemma filter_unvisited_lt (c : Z * Z) (V : gset (Z * Z)) (l : list (Z * Z)) :
  c ∈ l -> c ∉ V ->
  (length (filter (fun d => d ∉ {[c]} ∪ V) l) < length (filter (fun d => d ∉ V) l))%nat.
Proof.
  intros Hin HV. induction l as [|d l IH]; [by apply elem_of_nil in Hin|].
  rewrite !filter_cons. apply elem_of_cons in Hin as [<-|Hin].
  - pose proof (filter_unvisited_le c V l).
    repeat case_decide; simpl; try lia; set_solver.
  - specialize (IH Hin). repeat case_decide; simpl; try lia. set_solver.
Qed.

Lemma pushIfEmpty_length grid x y stack :
  (length (pushIfEmpty grid x y stack) <= S (length stack))%nat.
Proof. unfold pushIfEmpty. destruct (cell_is _ _ _); simpl; lia. Qed.

Lemma iter_decreases c rest st :
  fs_stack st = c :: rest ->
  (fillMeasure (iter c rest st) < fillMeasure st)%nat.
Proof.
  intros Hst. unfold fillMeasure. rewrite Hst. destruct c as [cx cy].
  unfold floodFill_iter. case_bool_decide as Hv; simpl; [lia|].
  rewrite Set_add_union.
  pose proof (filter_unvisited_le (cx, cy) (fs_visited st) playCells) as Hle.
  fold (unvisited ({[(cx, cy)]} ∪ fs_visited st)) in Hle.
  fold (unvisited (fs_visited st)) in Hle.
  destruct (_ || _) eqn:Hout; simpl; [lia|].
  assert ((cx, cy) ∈ playCells) as Hin.
  { apply elem_of_playCells, isInPlayArea_spec.
    rewrite !orb_false_iff, !Z.ltb_ge, !Z.leb_gt in Hout. lia. }
  pose proof (filter_unvisited_lt (cx, cy) (fs_visited st) playCells Hin Hv) as Hlt.
  fold (unvisited ({[(cx, cy)]} ∪ fs_visited st)) in Hlt.
  fold (unvisited (fs_visited st)) in Hlt.
  destruct (negb _); simpl; [lia|].
  set (g := wr _ _ _).
  pose proof (pushIfEmpty_length g (cx - 1) cy rest).
  pose proof (pushIfEmpty_length g (cx + 1) cy (pushIfEmpty g (cx - 1) cy rest)).
  pose proof (pushIfEmpty_length g cx (cy - 1)
                (pushIfEmpty g (cx + 1) cy (pushIfEmpty g (cx - 1) cy rest))).
  pose proof (pushIfEmpty_length g cx (cy + 1)
                (pushIfEmpty g cx (cy - 1)
                   (pushIfEmpty g (cx + 1) cy (pushIfEmpty g (cx - 1) cy rest)))).
  lia.
Qed.

Lemma floodFill_loop_terminates (fuel : nat) (st : FillState) :
  (fillMeasure st <= fuel)%nat -> exists st', loop fuel st = Some st'.
Proof.
  revert st. induction fuel as [|fuel IH]; intros st Hm; simpl.
  - destruct (fs_stack st) eqn:E; [eauto|].
    unfold fillMeasure in Hm. rewrite E in Hm. simpl in Hm. lia.
  - destruct (fs_stack st) as [|c rest] eqn:E; [eauto|].
    apply IH. pose proof (iter_decreases c rest st E). lia.
Qed.

End FloodFill.

(** The loop of [floodFill] ends, from every start cell and on every grid,
    within [FILL_FUEL] iterations. *)
Lemma floodFill_terminates startX startY fillValue grid enemyPositions :
  exists st, floodFill_run startX startY fillValue grid enemyPositions = Some st.
Proof.
  apply floodFill_loop_terminates. unfold fillMeasure, unvisited.
  cbn [fs_visited fs_stack length].
  match goal with |- context [length (filter ?P playCells)] =>
    pose proof (length_filter P playCells) as Hl;
    set (n := length (filter P playCells)) in *
  end.
  rewrite length_playCells in Hl.
  change totalArea with 3220 in Hl. unfold FILL_FUEL. lia.
Qed.

(** Reasoning about [floodFill] through an invariant of its loop. *)
Lemma floodFill_inv (P : FillState -> Prop) startX startY fillValue grid enemyPositions :
  P (mkFill [(startX, startY)] ∅ grid 0) ->
  (forall c rest s, P s -> fs_stack s = c :: rest ->
     P (floodFill_iter fillValue enemyPositions c rest s)) ->
  exists st,
    floodFill startX startY fillValue grid enemyPositions = (fs_count st, fs_grid st) /\
    P st.
Proof.
  intros H0 Hstep.
  destruct (floodFill_terminates startX startY fillValue grid enemyPositions) as [st Hst].
  exists st. unfold floodFill. rewrite Hst. split; [reflexivity|].
  eapply floodFill_loop_inv in Hst as [HP _]; eauto.
Qed.

(** *** What a fill changes *)

(** [fillRel v g g']: [g'] is [g] except that some EMPTY cells of the play
    area now hold [v]. *)
Definition fillRel (v : Z) (g g' : gmap Z Z) : Prop :=
  forall i, rd g' i = rd g i \/
            (rd g i = Some CELL_EMPTY /\ rd g' i = Some v /\
             exists c, c ∈ playCells /\ i = cellIndex c).

Lemma fillRel_refl v g : fillRel v g g.
Proof. intros i. by left. Qed.

Lemma fillRel_step v g g' c :
  fillRel v g g' -> c ∈ playCells -> cell_is g' (cellIndex c) CELL_EMPTY = true ->
  fillRel v g (wr g' (cellIndex c) v).
Proof.
  intros Hrel Hc He. apply cell_is_true in He. intros i.
  destruct (rd_wr_cases g' (cellIndex c) i v) as [Hsame|[-> Hnew]].
  - rewrite Hsame. apply Hrel.
  - right. split; [|split; [done|eauto]].
    destruct (Hrel (cellIndex c)) as [Heq|(H0 & _)]; congruence.
Qed.

Lemma floodFill_iter_stack_cases fillValue es c rest st :
  let st' := floodFill_iter fillValue es c rest st in
  (fs_grid st' = fs_grid st /\ fs_count st' = fs_count st) \/
  (c ∈ playCells /\ (c ∉ fs_visited st) /\
   cell_is (fs_grid st) (cellIndex c) CELL_EMPTY = true /\
   fs_grid st' = wr (fs_grid st) (cellIndex c) fillValue /\
   fs_count st' = countNear c.1 c.2 es (fs_count st)).
Proof.
  destruct c as [cx cy]. unfold floodFill_iter. simpl.
  case_bool_decide as Hv; simpl; [by left|].
  destruct (_ || _) eqn:Hout; simpl; [by left|].
  destruct (cell_is (fs_grid st) (cx + cy * GRID_WIDTH) CELL_EMPTY) eqn:He; simpl;
    [|by left].
  right. split; [|done].
  apply elem_of_playCells, isInPlayArea_spec.
  rewrite !orb_false_iff, !Z.ltb_ge, !Z.leb_gt in Hout. lia.
Qed.

(** A fill only turns EMPTY cells of the play area into its label. *)
Lemma floodFill_fillRel startX startY fillValue grid es :
  fillRel fillValue grid (floodFill startX startY fillValue grid es).2.
Proof.
  destruct (floodFill_inv (fun st => fillRel fillValue grid (fs_grid st))
              startX startY fillValue grid es) as (st & -> & Hst); [| |done].
  - apply fillRel_refl.
  - intros c rest s Hs _.
    destruct (floodFill_iter_stack_cases fillValue es c rest s)
      as [[-> _]|(Hc & _ & He & -> & _)]; [done|].
    by apply fillRel_step.
Qed.

Lemma countNear_acc cx cy es n : countNear cx cy es n = n + countNear cx cy es 0.
Proof.
  unfold countNear. revert n. induction es as [|e es IH]; intros n; simpl; [lia|].
  rewrite IH, (IH (if enemyNear cx cy e then 0 + 1 else 0)).
  destruct (enemyNear cx cy e); lia.
Qed.

Lemma countNear_nonneg cx cy es : 0 <= countNear cx cy es 0.
Proof.
  assert (forall n, n <= countNear cx cy es n) as H; [|apply H].
  unfold countNear. induction es as [|e es IH]; intros n; simpl; [lia|].
  etransitivity; [|apply IH]. destruct (enemyNear cx cy e); lia.
Qed.

Lemma floodFill_count_nonneg startX startY fillValue grid es :
  0 <= (floodFill startX startY fillValue grid es).1.
Proof.
  destruct (floodFill_inv (fun st => 0 <= fs_count st)
              startX startY fillValue grid es) as (st & -> & Hst); [| |done].
  - simpl. lia.
  - intros c rest s Hs _.
    destruct (floodFill_iter_stack_cases fillValue es c rest s)
      as [[_ ->]|(_ & _ & _ & _ & ->)]; [done|].
    rewrite countNear_acc. pose proof (countNear_nonneg c.1 c.2 es). lia.
Qed.

(** A start cell outside the play area, or one that is not EMPTY, makes the
    fill a no-op that reports no enemy. *)
Lemma floodFill_blocked startX startY fillValue grid es :
  isInPlayArea startX startY && cell_is grid (startX + startY * GRID_WIDTH) CELL_EMPTY = false ->
  floodFill startX startY fillValue grid es = (0, grid).
Proof.
  intros Hb. unfold floodFill, floodFill_run.
  assert (exists n, FILL_FUEL = S n) as [n ->].
  { exists (Z.to_nat (5 * 3220)). unfold FILL_FUEL. lia. }
  cbn [floodFill_loop fs_stack]. unfold floodFill_iter.
  rewrite bool_decide_eq_false_2 by set_solver. cbn [fs_visited fs_grid fs_count].
  destruct (_ || _) eqn:Hout.
  - destruct n; reflexivity.
  - assert (isInPlayArea startX startY = true) as Hin.
    { apply isInPlayArea_spec.
      rewrite !orb_false_iff, !Z.ltb_ge, !Z.leb_gt in Hout. lia. }
    rewrite Hin in Hb. simpl in Hb. rewrite Hb. simpl. destruct n; reflexivity.
Qed.

(** *** What a fill counts *)

(** The cells a fill has labelled: EMPTY before, holding the label after. *)
Definition isFilled (v : Z) (g g' : gmap Z Z) (c : Z * Z) : bool :=
  cell_is g (cellIndex c) CELL_EMPTY && cell_is g' (cellIndex c) v.

Definition filledCells (v : Z) (g g' : gmap Z Z) : list (Z * Z) :=
  List.filter (isFilled v g g') playCells.

(** The pairs (cell, enemy) at Chebyshev distance at most 1. *)
Definition nearPairs (cells es : list (Z * Z)) : list ((Z * Z) * (Z * Z)) :=
  c ← cells; e ← es; if enemyNear c.1 c.2 e then [(c, e)] else [].

Definition sumNear (es : list (Z * Z)) (cells : list (Z * Z)) : Z :=
  foldr (fun c acc => countNear c.1 c.2 es 0 + acc) 0 cells.

Lemma countNear_length cx cy es :
  countNear cx cy es 0 =
  Z.of_nat (length (e ← es; if enemyNear cx cy e then [((cx, cy), e)] else [])).
Proof.
  induction es as [|e es IH]; [reflexivity|].
  rewrite bind_cons, length_app, Nat2Z.inj_add, <- IH.
  change (countNear cx cy (e :: es) 0)
    with (countNear cx cy es (if enemyNear cx cy e then 0 + 1 else 0)).
  rewrite countNear_acc. destruct (enemyNear cx cy e); simpl; lia.
Qed.

Lemma sumNear_length es cells :
  sumNear es cells = Z.of_nat (length (nearPairs cells es)).
Proof.
  induction cells as [|[cx cy] cells IH]; [reflexivity|].
  unfold nearPairs. rewrite bind_cons, length_app, Nat2Z.inj_add.
  fold (nearPairs cells es). rewrite <- IH. simpl. by rewrite countNear_length.
Qed.

Lemma filter_flip_out (p p' : Z * Z -> bool) (c0 : Z * Z) (l : list (Z * Z)) :
  c0 ∉ l -> (forall c, c ∈ l -> c <> c0 -> p' c = p c) ->
  List.filter p' l = List.filter p l.
Proof.
  intros Hout Hsame. induction l as [|d l IH]; [reflexivity|].
  apply not_elem_of_cons in Hout as [Hd Hout]. simpl.
  rewrite (Hsame d); [|apply list_elem_of_here|intros ->; by apply Hd].
  rewrite IH; [reflexivity|done|].
  intros c Hc. apply Hsame. by apply list_elem_of_further.
Qed.

Lemma sumNear_flip es (p p' : Z * Z -> bool) (c0 : Z * Z) (l : list (Z * Z)) :
  NoDup l -> c0 ∈ l -> p c0 = false -> p' c0 = true ->
  (forall c, c ∈ l -> c <> c0 -> p' c = p c) ->
  sumNear es (List.filter p' l) = countNear c0.1 c0.2 es 0 + sumNear es (List.filter p l).
Proof.
  intros Hnd Hin Hp Hp' Hsame. induction Hnd as [|d l Hd Hnd IH].
  - by apply elem_of_nil in Hin.
  - assert (forall c, c ∈ l -> c <> c0 -> p' c = p c) as Hsame'.
    { intros c Hc. apply Hsame. by apply list_elem_of_further. }
    simpl. destruct (decide (d = c0)) as [->|Hne].
    + rewrite Hp, Hp'. simpl. by rewrite (filter_flip_out p p' c0 l).
    + apply elem_of_cons in Hin as [->|Hin]; [done|].
      rewrite (Hsame d); [|apply list_elem_of_here|done].
      destruct (p d); simpl; rewrite IH by done; lia.
Qed.

(** The count returned by a fill is the number of pairs (labelled cell,
    enemy) within Chebyshev distance 1. *)
Lemma floodFill_count startX startY fillValue grid es :
  fillValue <> CELL_EMPTY ->
  let r := floodFill startX startY fillValue grid es in
  r.1 = Z.of_nat (length (nearPairs (filledCells fillValue grid r.2) es)).
Proof.
  intros Hv.
  destruct (floodFill_inv
              (fun st => fillRel fillValue grid (fs_grid st) /\
                         fs_count st = sumNear es (filledCells fillValue grid (fs_grid st)))
              startX startY fillValue grid es) as (st & -> & _ & Hst).
  - split; [apply fillRel_refl|]. simpl.
    assert (filledCells fillValue grid grid = []) as ->; [|reflexivity].
    unfold filledCells. induction playCells as [|c l IH]; [reflexivity|].
    simpl. rewrite IH. unfold isFilled.
    destruct (cell_is grid (cellIndex c) CELL_EMPTY) eqn:He; [|reflexivity].
    destruct (cell_is grid (cellIndex c) fillValue) eqn:Hf; [|reflexivity].
    apply cell_is_true in He, Hf. congruence.
  - intros c rest s [Hrel Hcount] _.
    destruct (floodFill_iter_stack_cases fillValue es c rest s)
      as [[-> ->]|(Hc & _ & He & -> & ->)]; [done|].
    split; [by apply fillRel_step|].
    rewrite countNear_acc, Hcount. unfold filledCells.
    rewrite (sumNear_flip es (isFilled fillValue grid (fs_grid s))
               (isFilled fillValue grid (wr (fs_grid s) (cellIndex c) fillValue))
               c playCells); [lia|apply NoDup_playCells|done| | |].
    + unfold isFilled. apply andb_false_iff. right. apply cell_is_false.
      apply cell_is_true in He. congruence.
    + unfold isFilled. apply cell_is_true in He.
      assert (rd grid (cellIndex c) = Some CELL_EMPTY) as H0.
      { destruct (Hrel (cellIndex c)) as [Heq|(H0 & _)]; congruence. }
      apply andb_true_iff. split; apply cell_is_true; [done|].
      apply rd_wr_eq.
    + intros d Hin Hd. unfold isFilled.
      destruct (cell_is grid (cellIndex d) CELL_EMPTY) eqn:Hd0; [|reflexivity].
      simpl. unfold cell_is. rewrite rd_wr_ne; [reflexivity|].
      intros Heq. apply Hd. symmetry. by apply cellIndex_inj.
  - simpl. rewrite Hst. apply sumNear_length.
Qed.

(** ** The percentage *)

Section Counting.

Lemma for_from_le (n : nat) (i : Z) (body body' : Z -> Z -> Z) (c c' : Z) :
  (forall k a a', a <= a' -> body k a <= body' k a') ->
  c <= c' ->
  for_from n i body c <= for_from n i body' c'.
Proof.
  intros Hb. revert i c c'. induction n as [|n IH]; intros i c c' Hc; simpl; [done|].
  apply IH. by apply Hb.
Qed.

Lemma for_from_bounds (n : nat) (i : Z) (body : Z -> Z -> Z) (d c : Z) :
  (forall k a, a <= body k a <= a + d) ->
  c <= for_from n i body c <= c + Z.of_nat n * d.
Proof.
  intros Hb. revert i c. induction n as [|n IH]; intros i c; simpl for_from; [lia|].
  specialize (IH (i + 1) (body i c)). specialize (Hb i c). lia.
Qed.

End Counting.

(** Walls of [g] are walls of [g']. *)
Definition wallsKept (g g' : gmap Z Z) : Prop :=
  forall i, rd g i = Some CELL_WALL -> rd g' i = Some CELL_WALL.

Lemma wallsKept_refl g : wallsKept g g.
Proof. by intros i. Qed.

Lemma wallsKept_trans g1 g2 g3 : wallsKept g1 g2 -> wallsKept g2 g3 -> wallsKept g1 g3.
Proof. intros H1 H2 i Hi. by apply H2, H1. Qed.

Lemma capturedCount_mono g g' : wallsKept g g' -> capturedCount g <= capturedCount g'.
Proof.
  intros Hk. unfold capturedCount, for_range.
  apply for_from_le; [|lia]. intros y a a' Ha.
  apply for_from_le; [|done]. intros x b b' Hb.
  destruct (cell_is g _ _) eqn:Hg.
  - apply cell_is_true, Hk, cell_is_true in Hg. rewrite Hg. lia.
  - destruct (cell_is g' _ _); lia.
Qed.

Lemma capturedCount_bounds g : 0 <= capturedCount g <= totalArea.
Proof.
  unfold capturedCount, for_range.
  match goal with |- _ <= for_from ?n ?i ?body 0 <= _ =>
    destruct (for_from_bounds n i body (PLAY_AREA_RIGHT - PLAY_AREA_LEFT) 0) as [H1 H2]
  end.
  - intros y a.
    match goal with |- _ <= for_from ?n ?i ?body a <= _ =>
      destruct (for_from_bounds n i body 1 a) as [H1 H2]
    end.
    + intros x b. destruct (cell_is _ _ _); lia.
    + unfold PLAY_AREA_RIGHT, PLAY_AREA_LEFT in *. lia.
  - unfold totalArea, PLAY_AREA_BOTTOM, PLAY_AREA_TOP, PLAY_AREA_RIGHT, PLAY_AREA_LEFT in *.
    lia.
Qed.

(** Rounding never moves the product across an integer: checked for every
    possible count. *)
Lemma percentageOfCount_exact c :
  0 <= c <= totalArea -> percentageOfCount c = 100 * c / totalArea.
Proof.
  intros Hc.
  assert (forallb (fun c => percentageOfCount c =? 100 * c / totalArea)
            (seqZ 0 (totalArea + 1)) = true) as Hall by (vm_compute; reflexivity).
  rewrite forallb_forall in Hall. apply Z.eqb_eq, Hall.
  apply list_elem_of_In, elem_of_seqZ. lia.
Qed.

(** ** The commit *)

Section Commit.
Variables (gridCopy : gmap Z Z) (fillThisValue doNotFillThisValue : Z).

(** What the commit makes of one cell: [gi] the cell, [ci] its label in
    the copy. *)
Definition committed (gi ci : option Z) : option Z :=
  if bool_decide (gi = Some CELL_TRAIL) then Some CELL_WALL
  else if bool_decide (ci = Some fillThisValue) then Some CELL_WALL
  else if bool_decide (ci = Some doNotFillThisValue) then Some CELL_EMPTY
  else gi.

Lemma cell_is_decide g i c : cell_is g i c = bool_decide (rd g i = Some c).
Proof.
  case_bool_decide as H; [by apply cell_is_true|by apply cell_is_false].
Qed.

Lemma applyFillCell_rd idx grid area i :
  rd (applyFillCell gridCopy fillThisValue doNotFillThisValue idx (grid, area)).1 i =
  if decide (i = idx) then committed (rd grid idx) (rd gridCopy idx) else rd grid i.
Proof.
  unfold applyFillCell, committed. rewrite !cell_is_decide.
  destruct (decide (i = idx)) as [->|Hne].
  - repeat case_bool_decide; simpl; rewrite ?rd_wr_eq; done.
  - repeat case_bool_decide; simpl; rewrite ?rd_wr_ne by done; done.
Qed.

(** After the cells below [k] (in row-major order) have been handled. *)
Definition commitUpTo (grid : gmap Z Z) (k : Z) (acc : gmap Z Z * Z) : Prop :=
  forall i, rd (acc.1) i = if decide (0 <= i < k) then committed (rd grid i) (rd gridCopy i)
                         else rd grid i.

Lemma commitUpTo_step grid k acc :
  0 <= k -> commitUpTo grid k acc ->
  commitUpTo grid (k + 1)
    (applyFillCell gridCopy fillThisValue doNotFillThisValue k acc).
Proof.
  intros Hk Hc i. destruct acc as [g area]. rewrite applyFillCell_rd.
  unfold commitUpTo in Hc. simpl in Hc.
  destruct (decide (i = k)) as [->|Hne].
  - rewrite decide_True by lia. rewrite (Hc k). by rewrite decide_False by lia.
  - rewrite (Hc i). repeat case_decide; try lia; done.
Qed.

(** The nested loops commit every cell of the [GRID_WIDTH] x [GRID_HEIGHT]
    array, each from its own value and label. *)
Lemma applyFill_rd grid i :
  rd (applyFill grid gridCopy fillThisValue doNotFillThisValue).1 i =
  if decide (0 <= i < GRID_WIDTH * GRID_HEIGHT)
  then committed (rd grid i) (rd gridCopy i) else rd grid i.
Proof.
  unfold applyFill.
  pose proof (for_range_ind (fun y acc => commitUpTo grid (y * GRID_WIDTH) acc)
    0 GRID_HEIGHT
    (fun y => for_range 0 GRID_WIDTH (fun x =>
       applyFillCell gridCopy fillThisValue doNotFillThisValue (x + y * GRID_WIDTH)))
    (grid, 0)) as H.
  rewrite (Z.mul_comm GRID_WIDTH). apply H; clear H.
  - unfold GRID_HEIGHT. lia.
  - intros j. simpl. by rewrite decide_False by lia.
  - intros y acc Hy Hacc.
    pose proof (for_range_ind (fun x acc => commitUpTo grid (x + y * GRID_WIDTH) acc)
      0 GRID_WIDTH
      (fun x => applyFillCell gridCopy fillThisValue doNotFillThisValue
                  (x + y * GRID_WIDTH)) acc) as H.
    replace ((y + 1) * GRID_WIDTH) with (GRID_WIDTH + y * GRID_WIDTH) by lia.
    apply H; clear H.
    + unfold GRID_WIDTH. lia.
    + exact Hacc.
    + intros x acc' Hx Hacc'.
      replace (x + 1 + y * GRID_WIDTH) with ((x + y * GRID_WIDTH) + 1) by lia.
      apply commitUpTo_step; [|done]. unfold GRID_WIDTH in *. lia.
Qed.

(** Without a cell labelled [fillThisValue], nothing is counted as
    captured. *)
Lemma applyFill_area_zero grid :
  (forall i, rd gridCopy i <> Some fillThisValue) ->
  (applyFill grid gridCopy fillThisValue doNotFillThisValue).2 = 0.
Proof.
  intros Hno.
  assert (forall idx (acc : gmap Z Z * Z),
            (applyFillCell gridCopy fillThisValue doNotFillThisValue idx acc).2 = acc.2)
    as Hcell.
  { intros idx [g a]. unfold applyFillCell.
    destruct (cell_is g idx CELL_TRAIL); [reflexivity|].
    destruct (cell_is gridCopy idx fillThisValue) eqn:Hf.
    - apply cell_is_true in Hf. by apply Hno in Hf.
    - by destruct (cell_is gridCopy idx doNotFillThisValue). }
  unfold applyFill.
  apply (for_range_ind (fun _ (acc : gmap Z Z * Z) => acc.2 = 0)); [done|done|].
  intros y acc _ Hacc.
  apply (for_range_ind (fun _ (acc : gmap Z Z * Z) => acc.2 = 0)); [done|done|].
  intros x acc' _ Hacc'. by rewrite Hcell.
Qed.

End Commit.

(** ** Counting walls, as a list *)

(** The WALL cells strictly inside the play area. *)
Definition wallCells (g : gmap Z Z) : list (Z * Z) :=
  List.filter (fun c => cell_is g (cellIndex c) CELL_WALL) playCells.

Lemma for_from_foldl {St : Type} (n : nat) (i : Z) (body : Z -> St -> St) (s : St) :
  for_from n i body s = foldl (fun t k => body k t) s (seqZ i (Z.of_nat n)).
Proof.
  revert i s. induction n as [|n IH]; intros i s; [reflexivity|].
  rewrite seqZ_cons by lia. simpl foldl. simpl for_from. rewrite IH.
  do 2 f_equal; lia.
Qed.

Lemma count_row (p : Z * Z -> bool) (y : Z) (xs : list Z) (a : Z) :
  foldl (fun t x => if p (x, y) then t + 1 else t) a xs =
  a + Z.of_nat (length (List.filter p (x ← xs; [(x, y)]))).
Proof.
  revert a. induction xs as [|x xs IH]; intros a; [simpl; lia|].
  rewrite bind_cons. simpl foldl. rewrite IH. simpl.
  destruct (p (x, y)); simpl length; lia.
Qed.

Lemma count_rows (p : Z * Z -> bool) (ys xs : list Z) (a : Z) :
  foldl (fun t y => foldl (fun t x => if p (x, y) then t + 1 else t) t xs) a ys =
  a + Z.of_nat (length (List.filter p (y ← ys; x ← xs; [(x, y)]))).
Proof.
  revert a. induction ys as [|y ys IH]; intros a; [simpl; lia|].
  rewrite bind_cons. simpl foldl.
  rewrite IH, count_row, List.filter_app, length_app. lia.
Qed.

Lemma foldl_ext_Z (f f' : Z -> Z -> Z) (l : list Z) (a : Z) :
  (forall t y, f t y = f' t y) -> foldl f a l = foldl f' a l.
Proof.
  intros Hf. revert a. induction l as [|y l IH]; intros a; [reflexivity|].
  cbn [foldl]. by rewrite Hf, IH.
Qed.

(** [capturedCount] counts exactly the WALL cells of the play area. *)
Lemma capturedCount_spec g : capturedCount g = Z.of_nat (length (wallCells g)).
Proof.
  assert (0 <= PLAY_AREA_BOTTOM - PLAY_AREA_TOP) as Hh by (vm_compute; discriminate).
  assert (0 <= PLAY_AREA_RIGHT - PLAY_AREA_LEFT) as Hw by (vm_compute; discriminate).
  unfold capturedCount, for_range, wallCells, playCells.
  rewrite for_from_foldl, Z2Nat.id by exact Hh.
  rewrite <- (Z.add_0_l (Z.of_nat _)).
  rewrite <- (count_rows (fun c => cell_is g (cellIndex c) CELL_WALL)).
  apply foldl_ext_Z. intros t y.
  rewrite for_from_foldl, Z2Nat.id by exact Hw.
  apply foldl_ext_Z. intros t' x. reflexivity.
Qed.



(** * The claims *)

(** ** Percentage (C5) *)

Lemma calculatePercentage_formula (grid : gmap Z Z) :
  calculatePercentage grid = 100 * capturedCount grid / totalArea.
Proof.
  unfold calculatePercentage. apply percentageOfCount_exact, capturedCount_bounds.
Qed.

Lemma calculatePercentage_mono (g g' : gmap Z Z) :
  capturedCount g <= capturedCount g' -> calculatePercentage g <= calculatePercentage g'.
Proof.
  intros Hc. rewrite !calculatePercentage_formula.
  apply Z.div_le_mono; [vm_compute; reflexivity|lia].
Qed.

Lemma closure_percentage_fresh (w : World) :
  match playerPhase w with
  | (Closure _ _, w') => percentage (gameState w') = calculatePercentage (gridRef w')
  | _ => True
  end.
Proof.
  unfold playerPhase.
  destruct (isOnStage (playerState w) && _); [exact I|].
  destruct (isOnStage (playerState w)).
  - destruct (wallAround _ _ _); [|exact I].
    destruct (destroyCaught _ _) as [destroyedCount survivingEnemies].
    destruct (WIN_PERCENTAGE <=? _);
      cbn [advanceLevel gameState gridRef percentage]; reflexivity.
  - destruct (negb _ && _); exact I.
Qed.

(** C5: the percentage captured is floor(100 x the number of WALL cells
    strictly inside the play area / the number of play-area cells), an
    integer in 0..100 that is a function of the grid alone; the value a
    closure stores in the game state is this function of the committed
    grid. *)
Theorem C5_percentage_is_floor_of_wall_ratio (grid : gmap Z Z) :
  calculatePercentage grid
    = 100 * Z.of_nat (length (wallCells grid)) / Z.of_nat (length playCells) /\
  0 <= calculatePercentage grid <= 100 /\
  (forall pressedKeys random w,
     match gameLoopE pressedKeys random w with
     | (Closure _ _, w') => percentage (gameState w') = calculatePercentage (gridRef w')
     | _ => True
     end).
Proof.
  assert (Z.of_nat (length playCells) = totalArea) as Hlen.
  { rewrite length_playCells. vm_compute. reflexivity. }
  split; [|split].
  - by rewrite calculatePercentage_formula, capturedCount_spec, Hlen.
  - rewrite calculatePercentage_formula.
    pose proof (capturedCount_bounds grid) as Hb.
    change totalArea with 3220 in *. split.
    + apply Z.div_pos; lia.
    + apply Z.div_le_upper_bound; lia.
  - intros pressedKeys random w. unfold gameLoopE.
    destruct (negb _); [exact I|].
    destruct (if _ mod 2 =? 0 then _ else _) as [hit es].
    destruct hit; [exact I|].
    match goal with |- context [playerPhase ?w1] =>
      pose proof (closure_percentage_fresh w1) as Hp;
      destruct (playerPhase w1) as [ev w2]
    end.
    destruct ev; first [exact I|exact Hp].
Qed.

(** ** Death handling (C8) *)

Lemma calculatePercentage_initial : calculatePercentage createInitialGrid = 0.
Proof. vm_compute. reflexivity. Qed.

(** The enemy that [enemies.current.forEach] of a reset leaves in place
    [k]: a fresh cell of the rectangle 23 .. 72 by 6 .. 41 and fresh
    directions, from four draws of [Math.random] that start at draw
    [first]; only the rotation of the old enemy is kept. *)
Definition placedEnemy (random : nat -> spec_float) (first : nat) (old : Enemy) : Enemy :=
  mkEnemy
    (PLAY_AREA_LEFT + 10 +
       randomBelow (random first) (PLAY_AREA_RIGHT - PLAY_AREA_LEFT - 20))
    (PLAY_AREA_TOP + 5 +
       randomBelow (random (first + 1)%nat) (PLAY_AREA_BOTTOM - PLAY_AREA_TOP - 10))
    (if SFltb half (random (first + 2)%nat) then ENEMY_SPEED else - ENEMY_SPEED)
    (if SFltb half (random (first + 3)%nat) then ENEMY_SPEED else - ENEMY_SPEED)
    (e_rotation old).

Lemma respawnEnemies_lookup random base es (k : nat) e :
  es !! k = Some e ->
  respawnEnemies random base es !! k = Some (placedEnemy random (base + 4 * k) e).
Proof.
  intros Hk. unfold respawnEnemies. rewrite list_lookup_imap, Hk. reflexivity.
Qed.

(** C8: on a death event, if lives would go negative the status becomes
    Dead (and nothing else changes); otherwise lives decrements, the grid
    is the first grid again, the player is back on its start cell, at
    rest, on the wall, and every enemy is placed again as a level start
    places it: enemy [k] gets a fresh random cell
    (23 + floor(random x 50), 6 + floor(random x 36)) and fresh random
    directions of speed 1, whatever its position and direction were (the
    same expressions [resetStage] and the timer of [advanceLevel] use);
    the number of enemies is kept.  The percentage is reset to 0 (which
    is the percentage of the fresh grid), score and level are kept and
    the status stays Playing. *)
Theorem C8_death_resets_or_ends (random : nat -> spec_float) (w : World) :
  let w' := handlePlayerDeath random w in
  let gs := gameState w in
  let gs' := gameState w' in
  if lives gs - 1 <? 0 then
    status gs' = dead /\
    score gs' = score gs /\ level gs' = level gs /\ lives gs' = lives gs /\
    gridRef w' = gridRef w /\ playerPos w' = playerPos w /\ enemies w' = enemies w
  else
    status gs' = playing /\
    lives gs' = lives gs - 1 /\
    score gs' = score gs /\ level gs' = level gs /\
    percentage gs' = 0 /\ calculatePercentage (gridRef w') = 0 /\
    gridRef w' = createInitialGrid /\
    playerPos w' = playerStart /\ playerSpeed w' = (0, 0) /\ playerState w' = onWall /\
    length (enemies w') = length (enemies w) /\
    (forall (k : nat) (e : Enemy), enemies w !! k = Some e ->
       enemies w' !! k = Some (placedEnemy random (4 * k) e) /\
       enemies (resetStage random w) !! k = Some (placedEnemy random (4 * k) e) /\
       enemies (advanceLevel_timeout random w) !! k =
         Some (placedEnemy random (4 + 4 * k) e)) /\
    (forall e', e' ∈ enemies w' ->
       (e_vx e' = ENEMY_SPEED \/ e_vx e' = - ENEMY_SPEED) /\
       (e_vy e' = ENEMY_SPEED \/ e_vy e' = - ENEMY_SPEED)).
Proof.
  unfold handlePlayerDeath. cbv zeta.
  destruct (lives (gameState w) - 1 <? 0); cbn [gameState status score level lives
    percentage gridRef playerPos playerSpeed playerState enemies resetStage
    advanceLevel_timeout].
  - split_and!; reflexivity.
  - rewrite calculatePercentage_initial.
    split_and!; try reflexivity.
    + unfold respawnEnemies. apply length_imap.
    + intros k e Hk. split_and!.
      * by rewrite (respawnEnemies_lookup random 0 (enemies w) k e Hk).
      * by rewrite (respawnEnemies_lookup random 0 (enemies w) k e Hk).
      * apply respawnEnemies_lookup. by apply lookup_app_l_Some.
    + intros e' He'. apply list_elem_of_lookup in He' as [k Hk].
      destruct (enemies w !! k) as [e|] eqn:He.
      * rewrite (respawnEnemies_lookup random 0 (enemies w) k e He) in Hk.
        injection Hk as <-. unfold placedEnemy. cbn [e_vx e_vy].
        split; destruct (SFltb half _); tauto.
      * apply lookup_lt_Some in Hk. apply lookup_ge_None in He.
        unfold respawnEnemies in Hk. rewrite length_imap in Hk. lia.
Qed.

(** ** Walls are never lost outside a death (C4) *)

Definition validSpeed (speed : Z * Z) : Prop :=
  -1 <= speed.1 <= 1 /\ -1 <= speed.2 <= 1.

Lemma processInput_valid pressedKeys st speed :
  validSpeed speed -> validSpeed (processInput pressedKeys st speed).
Proof.
  intros Hv. unfold processInput.
  repeat match goal with
  | |- context [if ?b then _ else _] => destruct b
  end; try exact Hv; unfold validSpeed, PLAYER_SPEED; simpl; lia.
Qed.

Lemma checkedSpeed_valid grid st pos speed :
  validSpeed speed -> validSpeed (checkedSpeed grid st pos speed).
Proof.
  intros Hv. unfold checkedSpeed.
  repeat match goal with
  | |- context [if ?b then _ else _] => destruct b
  end; try exact Hv; unfold validSpeed; simpl; lia.
Qed.

Lemma wall_probe_orb (a b wd : bool) :
  (if a then if b then true else wd else wd) = (a && b) || wd.
Proof. by destruct a, b. Qed.

(** [wallAround] finds nothing only if no cell of the block that lies in the
    grid is a wall. *)
Lemma wallAround_false grid x y dx dy :
  wallAround grid x y = false ->
  -1 <= dx <= 1 -> -1 <= dy <= 1 ->
  inGrid (x + dx) (y + dy) = true ->
  rd grid ((x + dx) + (y + dy) * GRID_WIDTH) <> Some CELL_WALL.
Proof.
  unfold wallAround, for_range.
  change (Z.to_nat (2 - -1)) with 3%nat. cbn [for_from].
  rewrite !wall_probe_orb, !orb_false_iff, !andb_false_iff.
  change (-1 + 1) with 0. change (0 + 1) with 1.
  intros H Hdx Hdy Hin. apply cell_is_false.
  assert (dx = -1 \/ dx = 0 \/ dx = 1) as Hx by lia.
  assert (dy = -1 \/ dy = 0 \/ dy = 1) as Hy by lia.
  destruct Hx as [->|[->| ->]], Hy as [->|[->| ->]]; rewrite Hin in H;
    destruct_and!;
    match goal with
    | Hc : true = false \/ cell_is grid ?i _ = false |- cell_is grid ?i _ = false =>
        destruct Hc as [?|?]; [discriminate|assumption]
    end.
Qed.

Lemma wallsKept_wr_trail g i :
  rd g i <> Some CELL_WALL -> wallsKept g (wr g i CELL_TRAIL).
Proof.
  intros Hi j Hj. destruct (decide (i = j)) as [->|Hne]; [done|].
  by rewrite rd_wr_ne.
Qed.

Lemma inGrid_clampPlayer p : inGrid (clampPlayer p).1 (clampPlayer p).2 = true.
Proof.
  unfold inGrid, clampPlayer, PLAY_AREA_LEFT, PLAY_AREA_RIGHT, PLAY_AREA_BOTTOM,
    GRID_WIDTH, GRID_HEIGHT. simpl.
  rewrite !andb_true_iff, !Z.leb_le, !Z.ltb_lt. lia.
Qed.

Lemma inGrid_index x y :
  inGrid x y = true -> 0 <= x + y * GRID_WIDTH < GRID_WIDTH * GRID_HEIGHT.
Proof.
  unfold inGrid, GRID_WIDTH, GRID_HEIGHT.
  rewrite !andb_true_iff, !Z.leb_le, !Z.ltb_lt. lia.
Qed.

(** Laying the trail where no wall was detected around the player keeps
    every wall. *)
Lemma markPrev_keeps_walls g0 g pos speed :
  validSpeed speed ->
  wallAround g0 pos.1 pos.2 = false ->
  wallsKept g0 g ->
  wallsKept g0 (markPrev g pos speed).
Proof.
  intros [Hx Hy] Hw Hk. unfold markPrev.
  destruct (inGrid _ _) eqn:Hin; [|done].
  intros j Hj. rewrite rd_wr_ne; [by apply Hk|].
  intros <-. revert Hj.
  replace (pos.1 - speed.1) with (pos.1 + - speed.1) in * by lia.
  replace (pos.2 - speed.2) with (pos.2 + - speed.2) in * by lia.
  apply wallAround_false; [done|lia|lia|done].
Qed.

Lemma cell_keeps_walls g pos :
  inGrid pos.1 pos.2 = true ->
  wallAround g pos.1 pos.2 = false ->
  wallsKept g (wr g (pos.1 + pos.2 * GRID_WIDTH) CELL_TRAIL).
Proof.
  intros Hin Hw. apply wallsKept_wr_trail.
  replace (pos.1 + pos.2 * GRID_WIDTH) with ((pos.1 + 0) + (pos.2 + 0) * GRID_WIDTH) by lia.
  apply wallAround_false; [done|lia|lia|].
  by rewrite !Z.add_0_r.
Qed.

(** The trail writes turn cells of the grid into TRAIL and nothing else. *)
Lemma trail_writes_cases g pos speed i :
  inGrid pos.1 pos.2 = true ->
  let g' := markPrev (wr g (pos.1 + pos.2 * GRID_WIDTH) CELL_TRAIL) pos speed in
  rd g' i = rd g i \/
  (rd g' i = Some CELL_TRAIL /\ 0 <= i < GRID_WIDTH * GRID_HEIGHT).
Proof.
  intros Hin. cbv zeta. unfold markPrev.
  destruct (inGrid (pos.1 - speed.1) (pos.2 - speed.2)) eqn:Hp.
  - destruct (rd_wr_cases (wr g (pos.1 + pos.2 * GRID_WIDTH) CELL_TRAIL)
                (pos.1 - speed.1 + (pos.2 - speed.2) * GRID_WIDTH) i CELL_TRAIL)
      as [->|[-> ->]].
    + destruct (rd_wr_cases g (pos.1 + pos.2 * GRID_WIDTH) i CELL_TRAIL)
        as [->|[-> ->]]; [by left|].
      right. split; [done|by apply inGrid_index].
    + right. split; [done|by apply inGrid_index].
  - destruct (rd_wr_cases g (pos.1 + pos.2 * GRID_WIDTH) i CELL_TRAIL)
      as [->|[-> ->]]; [by left|].
    right. split; [done|by apply inGrid_index].
Qed.

(** The commit keeps every wall and turns the whole trail into wall. *)
Lemma capture_keeps_walls g speed cx cy es i :
  rd g i = Some CELL_WALL \/
  (rd g i = Some CELL_TRAIL /\ 0 <= i < GRID_WIDTH * GRID_HEIGHT) ->
  rd (cap_grid (capture g speed cx cy es)) i = Some CELL_WALL.
Proof.
  intros Hi. unfold capture.
  destruct (floodStartPoints speed cx cy) as [[X1 Y1] [X2 Y2]].
  pose proof (floodFill_fillRel X1 Y1 5 g es) as H1; unfold fillRel in H1.
  destruct (floodFill X1 Y1 5 g es) as [fill1 copy1]. simpl in H1.
  pose proof (floodFill_fillRel X2 Y2 6 copy1 es) as H2; unfold fillRel in H2.
  destruct (floodFill X2 Y2 6 copy1 es) as [fill2 copy2]. simpl in H2.
  assert (rd copy2 i = rd g i) as Hcopy.
  { unfold CELL_EMPTY, CELL_WALL, CELL_TRAIL in *.
    destruct (H2 i) as [E2|(E2 & _)], (H1 i) as [E1|(E1 & _)];
      destruct Hi as [Hi|[Hi _]]; congruence. }
  assert (exists a b, chooseFill fill1 fill2 = (a, b) /\ (a = 5 \/ a = 6) /\ (b = 5 \/ b = 6))
    as (a & b & -> & Ha & Hb).
  { unfold chooseFill. destruct (fill1 >=? fill2); eauto 10. }
  pose proof (applyFill_rd copy2 a b g i) as Hrd.
  destruct (applyFill g copy2 a b) as [g' area]. simpl in Hrd. cbn [cap_grid].
  destruct (rd_wr_cases g' (cx + cy * GRID_WIDTH) i CELL_WALL) as [->|[_ ->]]; [|done].
  rewrite Hrd, Hcopy. unfold committed.
  destruct Hi as [-> | [-> Hr]].
  - case_decide; [|done].
    rewrite !bool_decide_eq_false_2; [done| | |];
      unfold CELL_WALL, CELL_TRAIL; intros [= E]; lia.
  - rewrite decide_True by done. by rewrite bool_decide_eq_true_2.
Qed.

(** Outside a death, the player phase keeps every wall of the grid. *)
Lemma playerPhase_keeps_walls (w : World) :
  validSpeed (playerSpeed w) ->
  (playerPhase w).1 <> PlayerHitTrail ->
  wallsKept (gridRef w) (gridRef (playerPhase w).2).
Proof.
  intros Hv. unfold playerPhase.
  destruct (isOnStage (playerState w) && _); [done|].
  pose proof (checkedSpeed_valid (gridRef w) (playerState w) (playerPos w)
                (playerSpeed w) Hv) as Hv'.
  set (speed := checkedSpeed _ _ _ _) in *.
  set (pos := clampPlayer _).
  pose proof (inGrid_clampPlayer
                ((playerPos w).1 + speed.1, (playerPos w).2 + speed.2)) as Hin.
  fold pos in Hin.
  destruct (isOnStage (playerState w)).
  - destruct (wallAround (gridRef w) pos.1 pos.2) eqn:Hw.
    + assert (wallsKept (gridRef w)
                (cap_grid (capture
                   (markPrev (wr (gridRef w) (pos.1 + pos.2 * GRID_WIDTH) CELL_TRAIL)
                      pos speed)
                   speed pos.1 pos.2 ((fun e => (e_x e, e_y e)) <$> enemies w)))) as Hk.
      { intros i Hi. apply capture_keeps_walls.
        destruct (trail_writes_cases (gridRef w) pos speed i Hin) as [->|Ht];
          [by left|by right]. }
      destruct (destroyCaught _ _) as [destroyedCount survivingEnemies].
      destruct (WIN_PERCENTAGE <=? _); intros _; exact Hk.
    + intros _. cbn [snd gridRef].
      apply markPrev_keeps_walls; [done|done|].
      by apply cell_keeps_walls.
  - destruct (negb _ && _) eqn:Hc; intros _; cbn [snd gridRef]; [|apply wallsKept_refl].
    apply markPrev_keeps_walls; [done| |apply wallsKept_refl].
    apply andb_true_iff in Hc as [Hc _]. by apply negb_true_iff in Hc.
Qed.

(** The worlds a game can be in. *)
Inductive reachable : World -> Prop :=
  | reach_init random : reachable (initialWorld random)
  | reach_tick pressedKeys random w :
      reachable w -> reachable (gameLoop pressedKeys random w)
  | reach_timeout random w :
      reachable w -> reachable (advanceLevel_timeout random w)
  | reach_restart random w :
      reachable w -> status (gameState w) = dead -> reachable (resetGame random w).

Lemma handlePlayerDeath_valid random w :
  validSpeed (playerSpeed w) -> validSpeed (playerSpeed (handlePlayerDeath random w)).
Proof.
  intros Hv. unfold handlePlayerDeath. destruct (_ <? 0); [done|].
  unfold validSpeed. simpl. lia.
Qed.

Lemma playerPhase_valid w :
  validSpeed (playerSpeed w) -> validSpeed (playerSpeed (playerPhase w).2).
Proof.
  intros Hv. unfold playerPhase.
  pose proof (checkedSpeed_valid (gridRef w) (playerState w) (playerPos w)
                (playerSpeed w) Hv) as Hv'.
  destruct (isOnStage (playerState w) && _); [done|].
  destruct (isOnStage (playerState w)).
  - destruct (wallAround _ _ _); [|done].
    destruct (destroyCaught _ _) as [destroyedCount survivingEnemies].
    destruct (WIN_PERCENTAGE <=? _); done.
  - destruct (negb _ && _); done.
Qed.

Lemma gameLoop_valid pressedKeys random w :
  validSpeed (playerSpeed w) -> validSpeed (playerSpeed (gameLoop pressedKeys random w)).
Proof.
  intros Hv. unfold gameLoop, gameLoopE.
  destruct (negb _); [done|].
  destruct (if _ mod 2 =? 0 then _ else _) as [hit es].
  pose proof (processInput_valid pressedKeys (playerState w) (playerSpeed w) Hv) as Hv'.
  destruct hit; [by apply handlePlayerDeath_valid|].
  match goal with |- context [playerPhase ?w1] =>
    pose proof (playerPhase_valid w1 Hv') as Hp;
    destruct (playerPhase w1) as [ev w2]
  end.
  destruct ev; try exact Hp. by apply handlePlayerDeath_valid.
Qed.

(** The player's speed is always one of the four unit steps or zero. *)
Lemma reachable_validSpeed w : reachable w -> validSpeed (playerSpeed w).
Proof.
  induction 1 as [random|pressedKeys random w _ IH|random w _ _|random w _ _ _].
  - unfold validSpeed. simpl. lia.
  - by apply gameLoop_valid.
  - unfold validSpeed. simpl. lia.
  - unfold validSpeed. simpl. lia.
Qed.

Definition isDeath (ev : TickEvent) : bool :=
  match ev with
  | EnemyHitTrail | PlayerHitTrail => true
  | _ => false
  end.

Lemma gameLoopE_keeps_walls pressedKeys random w :
  validSpeed (playerSpeed w) ->
  isDeath (gameLoopE pressedKeys random w).1 = false ->
  wallsKept (gridRef w) (gridRef (gameLoop pressedKeys random w)).
Proof.
  intros Hv. unfold gameLoop, gameLoopE.
  destruct (negb _); [intros _; apply wallsKept_refl|].
  destruct (if _ mod 2 =? 0 then _ else _) as [hit es].
  pose proof (processInput_valid pressedKeys (playerState w) (playerSpeed w) Hv) as Hv'.
  destruct hit; [done|].
  match goal with |- context [playerPhase ?w1] =>
    pose proof (playerPhase_keeps_walls w1 Hv') as Hp;
    destruct (playerPhase w1) as [ev w2]
  end.
  destruct ev; try done; intros _; by apply Hp.
Qed.

(** C4: in every tick of a game that is not a death, no wall inside the
    play area is lost, so the number of WALL cells inside the play area and
    the percentage derived from the grid do not decrease; this includes
    the commit that releases the losing side to EMPTY. *)
Theorem C4_percentage_never_decreases pressedKeys random (w : World) :
  reachable w ->
  isDeath (gameLoopE pressedKeys random w).1 = false ->
  let w' := gameLoop pressedKeys random w in
  (length (wallCells (gridRef w)) <= length (wallCells (gridRef w')))%nat /\
  calculatePercentage (gridRef w) <= calculatePercentage (gridRef w').
Proof.
  intros Hr Hd w'.
  pose proof (gameLoopE_keeps_walls pressedKeys random w
                (reachable_validSpeed w Hr) Hd) as Hk.
  apply capturedCount_mono in Hk. fold w' in Hk. split.
  - rewrite !capturedCount_spec in Hk. lia.
  - by apply calculatePercentage_mono.
Qed.

(** ** Death short-circuits the tick (C7) *)

(** The two death conditions, read off the state at the start of the tick:
    on an enemy-motion tick some enemy stands on a TRAIL cell, or the
    player is on stage and the next cell is TRAIL. *)
Definition enemyTouchesTrail (w : World) : bool :=
  ((tickCount w + 1) mod 2 =? 0) && existsb (enemyOnTrail (gridRef w)) (enemies w).

Definition playerTouchesTrail (w : World) : bool :=
  isOnStage (playerState w) &&
  cell_is (gridRef w)
    (((playerPos w).1 + (playerSpeed w).1) + ((playerPos w).2 + (playerSpeed w).2) * GRID_WIDTH)
    CELL_TRAIL.

Definition deathDue (w : World) : bool :=
  isPlaying (status (gameState w)) && (enemyTouchesTrail w || playerTouchesTrail w).

(** The enemy loop leaves at the first enemy on the trail: the enemies
    before it have moved, it and the enemies after it have not. *)
Lemma updateEnemies_hit grid es :
  (updateEnemies grid es).1 = true ->
  exists pre e post,
    es = pre ++ e :: post /\
    enemyOnTrail grid e = true /\
    Forall (fun e' => enemyOnTrail grid e' = false) pre /\
    (updateEnemies grid es).2 = (moveEnemy grid <$> pre) ++ e :: post.
Proof.
  induction es as [|e es IH]; simpl; [discriminate|].
  destruct (enemyOnTrail grid e) eqn:He.
  - intros _. exists [], e, es. by repeat split.
  - destruct (updateEnemies grid es) as [hit rest'] eqn:Hu. simpl. intros ->.
    destruct (IH eq_refl) as (pre & e' & post & -> & He' & Hpre & Hrest).
    exists (e :: pre), e', post. simpl in *. subst rest'.
    repeat split; [done|by constructor].
Qed.

Lemma updateEnemies_flag grid es :
  (updateEnemies grid es).1 = existsb (enemyOnTrail grid) es.
Proof.
  induction es as [|e es IH]; simpl; [done|].
  destruct (enemyOnTrail grid e); [done|].
  destruct (updateEnemies grid es). simpl in *. done.
Qed.

Lemma updateEnemies_miss grid es :
  (updateEnemies grid es).1 = false ->
  (updateEnemies grid es).2 = moveEnemy grid <$> es.
Proof.
  induction es as [|e es IH]; simpl; [done|].
  destruct (enemyOnTrail grid e); [discriminate|].
  destruct (updateEnemies grid es). simpl in *. intros ->. by rewrite IH.
Qed.

Lemma processInput_onStage pressedKeys speed :
  processInput pressedKeys onStage speed = speed.
Proof.
  unfold processInput. simpl.
  repeat match goal with |- context [if ?b then _ else _] => destruct b end; done.
Qed.

(** C7: when a death event fires in a tick (an enemy stands on a TRAIL cell
    on an enemy-motion tick, or the player is on stage and the next cell is
    TRAIL), the tick consists of the death handler applied to the state at
    the moment of the signal: the grid, the player's position and mode are
    those of the start of the tick, so no player motion, no trail and no
    capture happened; in the enemy case the enemies after the one that
    touched the trail have not moved. *)
Theorem C7_death_short_circuits pressedKeys random (w : World) :
  deathDue w = true ->
  exists ev es,
    isDeath ev = true /\
    gameLoopE pressedKeys random w =
      (ev, handlePlayerDeath random
             (mkWorld (gridRef w) (playerPos w)
                (processInput pressedKeys (playerState w) (playerSpeed w))
                (playerState w) es (gameState w) (tickCount w + 1))) /\
    (ev = EnemyHitTrail ->
       exists pre e post,
         enemies w = pre ++ e :: post /\
         enemyOnTrail (gridRef w) e = true /\
         es = (moveEnemy (gridRef w) <$> pre) ++ e :: post) /\
    (ev = PlayerHitTrail ->
       es = if (tickCount w + 1) mod 2 =? 0 then moveEnemy (gridRef w) <$> enemies w
            else enemies w).
Proof.
  unfold deathDue, gameLoopE. intros Hd.
  apply andb_true_iff in Hd as [Hplay Hd]. rewrite Hplay. cbn [negb].
  unfold enemyTouchesTrail in Hd.
  destruct ((tickCount w + 1) mod 2 =? 0) eqn:Hpar.
  - (* enemy-motion tick *)
    pose proof (updateEnemies_flag (gridRef w) (enemies w)) as Hflag.
    pose proof (updateEnemies_hit (gridRef w) (enemies w)) as Hhit.
    pose proof (updateEnemies_miss (gridRef w) (enemies w)) as Hmiss.
    destruct (updateEnemies (gridRef w) (enemies w)) as [hit es]. simpl in *.
    destruct hit.
    + exists EnemyHitTrail, es. split; [done|]. split; [done|]. split; [|done].
      intros _. destruct (Hhit eq_refl) as (pre & e & post & H1 & H2 & _ & H3). eauto 10.
    + rewrite <- Hflag in Hd. simpl in Hd. rewrite (Hmiss eq_refl).
      clear Hflag Hhit Hmiss.
      unfold playerTouchesTrail in Hd. apply andb_true_iff in Hd as [Hst Hcell].
      destruct (playerState w); [discriminate|].
      exists PlayerHitTrail, (moveEnemy (gridRef w) <$> enemies w).
      split; [done|]. split; [|done].
      unfold playerPhase. cbn [gridRef playerPos playerSpeed playerState enemies
        gameState tickCount isOnStage andb].
      rewrite processInput_onStage. apply cell_is_true in Hcell.
      rewrite bool_decide_eq_true_2 by done.
      unfold checkedSpeed. cbn [isOnStage]. rewrite Hcell.
      by rewrite bool_decide_eq_false_2 by done.
  - simpl in Hd. unfold playerTouchesTrail in Hd.
    apply andb_true_iff in Hd as [Hst Hcell].
    destruct (playerState w); [discriminate|].
    exists PlayerHitTrail, (enemies w).
    split; [done|]. split; [|done].
    unfold playerPhase. cbn [gridRef playerPos playerSpeed playerState enemies
      gameState tickCount isOnStage andb].
    rewrite processInput_onStage. apply cell_is_true in Hcell.
    rewrite bool_decide_eq_true_2 by done.
    unfold checkedSpeed. cbn [isOnStage]. rewrite Hcell.
    by rewrite bool_decide_eq_false_2 by done.
Qed.

Lemma playerPhase_death (w : World) :
  isDeath (playerPhase w).1 = playerTouchesTrail w.
Proof.
  unfold playerPhase, playerTouchesTrail. rewrite cell_is_decide.
  destruct (isOnStage (playerState w)) eqn:Hst; cbn [andb].
  - case_bool_decide; [done|].
    destruct (wallAround _ _ _); [|done].
    destruct (destroyCaught _ _) as [destroyedCount survivingEnemies].
    destruct (WIN_PERCENTAGE <=? _); done.
  - destruct (negb _ && _); done.
Qed.

(** A tick ends in a death exactly when one of the two death conditions
    holds at its start. *)
Lemma gameLoopE_death pressedKeys random (w : World) :
  isDeath (gameLoopE pressedKeys random w).1 = deathDue w.
Proof.
  unfold gameLoopE, deathDue, enemyTouchesTrail.
  destruct (isPlaying (status (gameState w))); cbn [negb andb]; [|done].
  assert (forall es,
    isDeath (match playerPhase
                     (mkWorld (gridRef w) (playerPos w)
                        (processInput pressedKeys (playerState w) (playerSpeed w))
                        (playerState w) es (gameState w) (tickCount w + 1))
             with
             | (PlayerHitTrail, w2) => (PlayerHitTrail, handlePlayerDeath random w2)
             | r => r
             end).1 = playerTouchesTrail w) as Hp.
  { intros es.
    match goal with |- context [playerPhase ?w1] =>
      pose proof (playerPhase_death w1) as Hd;
      destruct (playerPhase w1) as [ev w2]
    end.
    assert (playerTouchesTrail
              (mkWorld (gridRef w) (playerPos w)
                 (processInput pressedKeys (playerState w) (playerSpeed w))
                 (playerState w) es (gameState w) (tickCount w + 1))
            = playerTouchesTrail w) as <-.
    { unfold playerTouchesTrail. cbn [gridRef playerPos playerSpeed playerState].
      destruct (playerState w); [done|]. by rewrite processInput_onStage. }
    rewrite <- Hd. by destruct ev. }
  destruct ((tickCount w + 1) mod 2 =? 0); cbn [andb orb]; [|apply Hp].
  rewrite <- updateEnemies_flag.
  destruct (updateEnemies (gridRef w) (enemies w)) as [hit es]. simpl.
  destruct hit; [done|apply Hp].
Qed.

(** ** The player's mode after a closure (C9) *)

Lemma playerPhase_closure (w : World) (c : Capture) (win : bool) :
  (playerPhase w).1 = Closure c win ->
  let w' := (playerPhase w).2 in
  win = (WIN_PERCENTAGE <=? calculatePercentage (gridRef w')) /\
  playerState w' = (if win then onStage else onWall) /\
  status (gameState w') = (if win then levelAnnounce else status (gameState w)).
Proof.
  unfold playerPhase.
  destruct (isOnStage (playerState w) && _); [discriminate|].
  destruct (isOnStage (playerState w)).
  - destruct (wallAround _ _ _); [|discriminate].
    destruct (destroyCaught _ _) as [destroyedCount survivingEnemies].
    destruct (WIN_PERCENTAGE <=? _) eqn:Hwin; intros [= <- <-];
      cbn [snd advanceLevel gridRef playerState gameState status]; by rewrite Hwin.
  - destruct (negb _ && _); discriminate.
Qed.

(** C9 (as the code has it): at the end of a closure tick the player's mode
    is OnWall when the commit leaves the percentage below the win
    threshold; when the commit reaches the threshold the tick returns right
    after [advanceLevel] with the mode still OnStage and the status
    LevelAnnounce, and the mode is OnWall again only once the timer of
    [advanceLevel] has reset the player. *)
Theorem C9_mode_after_closure pressedKeys random (w : World) (c : Capture) (win : bool) :
  (gameLoopE pressedKeys random w).1 = Closure c win ->
  let w' := gameLoop pressedKeys random w in
  win = (WIN_PERCENTAGE <=? calculatePercentage (gridRef w')) /\
  playerState w' = (if win then onStage else onWall) /\
  (win = true -> status (gameState w') = levelAnnounce) /\
  (forall random', playerState (advanceLevel_timeout random' w') = onWall).
Proof.
  unfold gameLoop, gameLoopE.
  destruct (negb _); [discriminate|].
  destruct (if _ mod 2 =? 0 then _ else _) as [hit es].
  destruct hit; [discriminate|].
  match goal with |- context [playerPhase ?w1] =>
    pose proof (playerPhase_closure w1 c win) as Hp;
    destruct (playerPhase w1) as [ev w2]
  end.
  destruct ev; try discriminate. simpl. intros Hev.
  destruct (Hp Hev) as (H1 & H2 & H3). split_and!; [done|done| |done].
  intros ->. exact H3.
Qed.

(** ** Reads outside the grid (C6) *)

Lemma checkedSpeed_onWall_outside grid pos speed :
  inGrid (pos.1 + speed.1) (pos.2 + speed.2) = false ->
  checkedSpeed grid onWall pos speed = (0, 0).
Proof.
  intros Hout. unfold checkedSpeed. cbn [isOnStage].
  destruct (_ || _) eqn:Hb; [done|]. exfalso.
  unfold inGrid, PLAY_AREA_LEFT, PLAY_AREA_RIGHT, PLAY_AREA_BOTTOM, GRID_WIDTH,
    GRID_HEIGHT in *.
  rewrite !orb_false_iff, !Z.ltb_ge in Hb.
  rewrite !andb_false_iff, !Z.leb_gt, !Z.ltb_ge in Hout. lia.
Qed.

Lemma wallAround_true grid x y :
  wallAround grid x y = true ->
  exists dx dy, -1 <= dx <= 1 /\ -1 <= dy <= 1 /\ inGrid (x + dx) (y + dy) = true /\
                rd grid ((x + dx) + (y + dy) * GRID_WIDTH) = Some CELL_WALL.
Proof.
  unfold wallAround, for_range.
  change (Z.to_nat (2 - -1)) with 3%nat. cbn [for_from].
  rewrite !wall_probe_orb, !orb_true_iff, !andb_true_iff.
  change (-1 + 1) with 0. change (0 + 1) with 1.
  intros H.
  repeat match goal with
  | H : _ \/ _ |- _ => destruct H as [H|H]
  end; try discriminate;
  match goal with
  | H : inGrid (x + ?dx) (y + ?dy) = true /\ _ |- _ =>
      exists dx, dy; destruct H as [H1 H2]; apply cell_is_true in H2;
      split_and!; first [lia|done]
  end.
Qed.

Lemma isAdjacentToVoid_true x y grid :
  isAdjacentToVoid x y grid = true ->
  exists nx ny, inGrid nx ny = true /\ Z.abs (nx - x) + Z.abs (ny - y) = 1 /\
                rd grid (nx + ny * GRID_WIDTH) = Some CELL_EMPTY.
Proof.
  unfold isAdjacentToVoid. cbn [existsb fst snd].
  rewrite !orb_true_iff, !andb_true_iff.
  intros H.
  repeat match goal with
  | H : _ \/ _ |- _ => destruct H as [H|H]
  end; try discriminate;
  match goal with
  | H : inGrid ?nx ?ny = true /\ _ |- _ =>
      exists nx, ny; destruct H as [H1 H2]; apply cell_is_true in H2;
      split_and!; first [lia|done]
  end.
Qed.

(** The indices of a grid are those of an array of [GRID_WIDTH * GRID_HEIGHT]
    elements. *)
Definition withinArray (g : gmap Z Z) : bool :=
  forallb (fun kv : Z * Z => (0 <=? kv.1) && (kv.1 <? GRID_WIDTH * GRID_HEIGHT))
          (map_to_list g).

Lemma withinArray_rd g i v :
  withinArray g = true -> rd g i = Some v -> 0 <= i < GRID_WIDTH * GRID_HEIGHT.
Proof.
  unfold withinArray, rd. rewrite forallb_forall. intros Hall Hv.
  apply elem_of_map_to_list, list_elem_of_In, Hall in Hv.
  rewrite andb_true_iff, Z.leb_le, Z.ltb_lt in Hv. exact Hv.
Qed.

Lemma wallAround_iff grid px py :
  wallAround grid px py = true <->
  exists dx dy, -1 <= dx <= 1 /\ -1 <= dy <= 1 /\ inGrid (px + dx) (py + dy) = true /\
                rd grid ((px + dx) + (py + dy) * GRID_WIDTH) = Some CELL_WALL.
Proof.
  split; [apply wallAround_true|].
  intros (dx & dy & Hdx & Hdy & Hin & Hrd).
  destruct (wallAround grid px py) eqn:Hw; [done|].
  by destruct (wallAround_false grid px py dx dy Hw Hdx Hdy Hin).
Qed.

Lemma isAdjacentToVoid_iff px py grid :
  isAdjacentToVoid px py grid = true <->
  exists nx ny, Z.abs (nx - px) + Z.abs (ny - py) = 1 /\ inGrid nx ny = true /\
                rd grid (nx + ny * GRID_WIDTH) = Some CELL_EMPTY.
Proof.
  split.
  - intros H. apply isAdjacentToVoid_true in H as (nx & ny & Hin & Habs & Hrd).
    by exists nx, ny.
  - intros (nx & ny & Habs & Hin & Hrd). unfold isAdjacentToVoid.
    apply existsb_exists. exists (nx, ny). cbn [fst snd]. split.
    + assert ((nx, ny) = (px + 1, py) \/ (nx, ny) = (px - 1, py) \/
              (nx, ny) = (px, py + 1) \/ (nx, ny) = (px, py - 1)) as Hc.
      { assert (nx = px + 1 /\ ny = py \/ nx = px - 1 /\ ny = py \/
                nx = px /\ ny = py + 1 \/ nx = px /\ ny = py - 1) as Hc by lia.
        destruct Hc as [[-> ->]|[[-> ->]|[[-> ->]|[-> ->]]]]; tauto. }
      destruct Hc as [-> | [-> | [-> | ->] ] ]; cbn [In]; tauto.
    + rewrite Hin. by apply cell_is_true.
Qed.

Lemma hasAdjacentWall_iff px py grid :
  hasAdjacentWall px py grid = true <->
  exists dx dy, -1 <= dx <= 1 /\ -1 <= dy <= 1 /\ (dx, dy) <> (0, 0) /\
                inGrid (px + dx) (py + dy) = true /\
                rd grid ((px + dx) + (py + dy) * GRID_WIDTH) = Some CELL_WALL.
Proof.
  unfold hasAdjacentWall. rewrite existsb_exists. split.
  - intros (dy & Hdy & H). apply existsb_exists in H as (dx & Hdx & H).
    exists dx, dy.
    assert (dx = -1 \/ dx = 0 \/ dx = 1) as Hx by (cbn [In] in Hdx; lia).
    assert (dy = -1 \/ dy = 0 \/ dy = 1) as Hy by (cbn [In] in Hdy; lia).
    destruct ((dx =? 0) && (dy =? 0)) eqn:H0; [discriminate|].
    apply andb_true_iff in H as [Hin Hc]. apply cell_is_true in Hc.
    split_and!; [lia..| |done|done].
    intros [= -> ->]. discriminate.
  - intros (dx & dy & Hdx & Hdy & Hne & Hin & Hrd).
    assert (dx = -1 \/ dx = 0 \/ dx = 1) as Hx by lia.
    assert (dy = -1 \/ dy = 0 \/ dy = 1) as Hy by lia.
    exists dy. split; [cbn [In]; lia|].
    apply existsb_exists. exists dx. split; [cbn [In]; lia|].
    assert ((dx =? 0) && (dy =? 0) = false) as ->.
    { apply andb_false_iff. rewrite !Z.eqb_neq.
      destruct (decide (dx = 0)) as [->|]; [right; intros ->; by destruct Hne|by left]. }
    rewrite Hin. by apply cell_is_true.
Qed.

Lemma moveEnemy_inside grid enemy :
  PLAY_AREA_LEFT <= e_x (moveEnemy grid enemy) <= PLAY_AREA_RIGHT - 2 /\
  PLAY_AREA_TOP <= e_y (moveEnemy grid enemy) <= PLAY_AREA_BOTTOM - 2 /\
  Z.abs (e_vx (moveEnemy grid enemy)) = Z.abs (e_vx enemy) /\
  Z.abs (e_vy (moveEnemy grid enemy)) = Z.abs (e_vy enemy).
Proof.
  unfold moveEnemy. cbv zeta.
  unfold PLAY_AREA_LEFT, PLAY_AREA_RIGHT, PLAY_AREA_TOP, PLAY_AREA_BOTTOM.
  destruct (cell_is grid _ CELL_WALL), (cell_is grid _ CELL_WALL);
    repeat match goal with
    | |- context [if ?a <? ?b then _ else _] => destruct (Z.ltb_spec a b)
    | |- context [if ?a <=? ?b then _ else _] => destruct (Z.leb_spec a b)
    end; cbn [e_x e_y e_vx e_vy]; lia.
Qed.

(** C6 (as the code has it): [isOnWall] answers WALL for every coordinate
    outside the grid.  The loop itself indexes the flat array without a
    bounds check: such a read never faults; either the flat index lies
    outside the array and the read yields [undefined], or it is the flat
    index of a cell inside the grid (of a neighbouring row) and the read
    yields that cell.  The wall it means is enforced by guards instead: in
    OnWall mode a move to a cell outside the grid is rejected whatever was
    read; the adjacency tests ([wallAround], [isAdjacentToVoid],
    [hasAdjacentWall]) answer from the cells inside the grid alone, an
    outside neighbour is skipped; and an enemy that has moved is clamped
    into the play area. *)
Theorem C6_outside_reads (grid : gmap Z Z) (x y : Z) :
  withinArray grid = true ->
  inGrid x y = false ->
  isOnWall x y grid = true /\
  (rd grid (x + y * GRID_WIDTH) = None \/
   exists x' y', inGrid x' y' = true /\ x + y * GRID_WIDTH = x' + y' * GRID_WIDTH) /\
  (forall pos speed, (pos.1 + speed.1, pos.2 + speed.2) = (x, y) ->
     checkedSpeed grid onWall pos speed = (0, 0)) /\
  (forall px py,
     wallAround grid px py = true <->
     exists dx dy, -1 <= dx <= 1 /\ -1 <= dy <= 1 /\
       inGrid (px + dx) (py + dy) = true /\ (px + dx, py + dy) <> (x, y) /\
       rd grid ((px + dx) + (py + dy) * GRID_WIDTH) = Some CELL_WALL) /\
  (forall px py,
     isAdjacentToVoid px py grid = true <->
     exists nx ny, Z.abs (nx - px) + Z.abs (ny - py) = 1 /\
       inGrid nx ny = true /\ (nx, ny) <> (x, y) /\
       rd grid (nx + ny * GRID_WIDTH) = Some CELL_EMPTY) /\
  (forall px py,
     hasAdjacentWall px py grid = true <->
     exists dx dy, -1 <= dx <= 1 /\ -1 <= dy <= 1 /\ (dx, dy) <> (0, 0) /\
       inGrid (px + dx) (py + dy) = true /\ (px + dx, py + dy) <> (x, y) /\
       rd grid ((px + dx) + (py + dy) * GRID_WIDTH) = Some CELL_WALL) /\
  (forall enemy,
     PLAY_AREA_LEFT <= e_x (moveEnemy grid enemy) <= PLAY_AREA_RIGHT - 2 /\
     PLAY_AREA_TOP <= e_y (moveEnemy grid enemy) <= PLAY_AREA_BOTTOM - 2).
Proof.
  intros Hlen Hout.
  assert (forall a b, inGrid a b = true -> (a, b) <> (x, y)) as Hne.
  { intros a b Hin [= -> ->]. congruence. }
  split_and!.
  - unfold isOnWall, inGrid in *.
    rewrite !andb_false_iff, !Z.leb_gt, !Z.ltb_ge in Hout.
    destruct (_ || _) eqn:Hb; [done|].
    rewrite !orb_false_iff, !Z.ltb_ge, !Z.leb_gt in Hb. lia.
  - destruct (rd grid (x + y * GRID_WIDTH)) as [v|] eqn:Hv; [right|by left].
    apply (withinArray_rd _ _ _ Hlen) in Hv.
    unfold GRID_WIDTH, GRID_HEIGHT in *.
    exists ((x + y * 84) mod 84), ((x + y * 84) / 84).
    pose proof (Z.mod_pos_bound (x + y * 84) 84 ltac:(lia)).
    pose proof (Z.div_mod (x + y * 84) 84 ltac:(lia)).
    assert (0 <= (x + y * 84) / 84 < 48).
    { split; [apply Z.div_pos; lia|apply Z.div_lt_upper_bound; lia]. }
    split.
    + unfold inGrid, GRID_WIDTH, GRID_HEIGHT.
      rewrite !andb_true_iff, !Z.leb_le, !Z.ltb_lt. lia.
    + lia.
  - intros pos speed [= <- <-]. by apply checkedSpeed_onWall_outside.
  - intros px py. rewrite wallAround_iff. split.
    + intros (dx & dy & Hdx & Hdy & Hin & Hrd). exists dx, dy. split_and!; first [done|lia|by apply Hne].
    + intros (dx & dy & Hdx & Hdy & Hin & _ & Hrd). by exists dx, dy.
  - intros px py. rewrite isAdjacentToVoid_iff. split.
    + intros (nx & ny & Habs & Hin & Hrd). exists nx, ny. split_and!; first [done|lia|by apply Hne].
    + intros (nx & ny & Habs & Hin & _ & Hrd). by exists nx, ny.
  - intros px py. rewrite hasAdjacentWall_iff. split.
    + intros (dx & dy & Hdx & Hdy & H0 & Hin & Hrd). exists dx, dy.
      split_and!; first [done|lia|by apply Hne].
    + intros (dx & dy & Hdx & Hdy & H0 & Hin & _ & Hrd). exists dx, dy. split_and!; first [done|lia].
  - intros enemy. pose proof (moveEnemy_inside grid enemy) as (H1 & H2 & _). done.
Qed.

(** ** The capture resolution (C1, C2, C3) *)

Definition validCells (g : gmap Z Z) : bool :=
  forallb (fun kv : Z * Z =>
             (kv.2 =? CELL_EMPTY) || (kv.2 =? CELL_WALL) || (kv.2 =? CELL_TRAIL))
          (map_to_list g).

Lemma validCells_rd g i v :
  validCells g = true -> rd g i = Some v ->
  v = CELL_EMPTY \/ v = CELL_WALL \/ v = CELL_TRAIL.
Proof.
  unfold validCells, rd. rewrite forallb_forall. intros Hall Hv.
  apply elem_of_map_to_list, list_elem_of_In, Hall in Hv.
  rewrite !orb_true_iff, !Z.eqb_eq in Hv. simpl in Hv. tauto.
Qed.

Lemma cellIndex_range c :
  c ∈ playCells -> 0 <= cellIndex c < GRID_WIDTH * GRID_HEIGHT.
Proof.
  destruct c as [x y]. rewrite elem_of_playCells, isInPlayArea_spec.
  unfold cellIndex, PLAY_AREA_LEFT, PLAY_AREA_RIGHT, PLAY_AREA_TOP, PLAY_AREA_BOTTOM,
    GRID_WIDTH, GRID_HEIGHT. simpl. lia.
Qed.

(** [capture], step by step. *)
Lemma capture_parts g speed cx cy es :
  let seeds := floodStartPoints speed cx cy in
  let r1 := floodFill seeds.1.1 seeds.1.2 5 g es in
  let r2 := floodFill seeds.2.1 seeds.2.2 6 r1.2 es in
  let ch := chooseFill r1.1 r2.1 in
  let r := applyFill g r2.2 ch.1 ch.2 in
  capture g speed cx cy es =
    mkCapture (cx, cy) seeds r1.1 r2.1 r2.2 (wr r.1 (cx + cy * GRID_WIDTH) CELL_WALL) r.2.
Proof.
  unfold capture.
  destruct (floodStartPoints speed cx cy) as [[X1 Y1] [X2 Y2]]. cbn [fst snd].
  destruct (floodFill X1 Y1 5 g es) as [fill1 copy1]. cbn [fst snd].
  destruct (floodFill X2 Y2 6 copy1 es) as [fill2 copy2]. cbn [fst snd].
  destruct (chooseFill fill1 fill2) as [a b]. cbn [fst snd].
  destruct (applyFill g copy2 a b) as [g' area]. reflexivity.
Qed.

(** The labelled copy differs from the grid only on EMPTY cells of the play
    area, which hold 5 or 6 in the copy. *)
Lemma capture_copy g speed cx cy es i :
  let c := capture g speed cx cy es in
  rd (cap_gridCopy c) i = rd g i \/
  (rd g i = Some CELL_EMPTY /\ 0 <= i < GRID_WIDTH * GRID_HEIGHT /\
   (rd (cap_gridCopy c) i = Some 5 \/ rd (cap_gridCopy c) i = Some 6)).
Proof.
  cbv zeta. rewrite capture_parts. cbn [cap_gridCopy].
  set (seeds := floodStartPoints speed cx cy).
  pose proof (floodFill_fillRel seeds.1.1 seeds.1.2 5 g es) as H1; unfold fillRel in H1.
  set (r1 := floodFill seeds.1.1 seeds.1.2 5 g es) in *.
  pose proof (floodFill_fillRel seeds.2.1 seeds.2.2 6 r1.2 es) as H2; unfold fillRel in H2.
  set (r2 := floodFill seeds.2.1 seeds.2.2 6 r1.2 es) in *.
  destruct (H2 i) as [E2|(E2 & E2' & c2 & Hc2 & ->)].
  - rewrite E2. destruct (H1 i) as [E1|(E1 & E1' & c1 & Hc1 & ->)]; [by left|].
    right. split; [done|]. split; [by apply cellIndex_range|by left].
  - right. destruct (H1 (cellIndex c2)) as [E1|(E1 & E1' & _)].
    + split; [congruence|]. split; [by apply cellIndex_range|by right].
    + unfold CELL_EMPTY in *. congruence.
Qed.

Lemma capture_cell g speed cx cy es i :
  let c := capture g speed cx cy es in
  let ch := chooseFill (cap_fill1 c) (cap_fill2 c) in
  i <> cx + cy * GRID_WIDTH ->
  rd (cap_grid c) i =
    if decide (0 <= i < GRID_WIDTH * GRID_HEIGHT)
    then committed ch.1 ch.2 (rd g i) (rd (cap_gridCopy c) i) else rd g i.
Proof.
  cbv zeta. rewrite capture_parts. cbn [cap_grid cap_gridCopy cap_fill1 cap_fill2].
  intros Hne. rewrite rd_wr_ne by done. apply applyFill_rd.
Qed.

Lemma capture_area g speed cx cy es :
  let c := capture g speed cx cy es in
  let ch := chooseFill (cap_fill1 c) (cap_fill2 c) in
  (forall i, rd (cap_gridCopy c) i <> Some ch.1) -> cap_areaCaptured c = 0.
Proof.
  cbv zeta. rewrite capture_parts. cbn [cap_areaCaptured cap_gridCopy cap_fill1 cap_fill2].
  apply applyFill_area_zero.
Qed.

Lemma capture_counts g speed cx cy es :
  let c := capture g speed cx cy es in
  0 <= cap_fill1 c /\ 0 <= cap_fill2 c.
Proof.
  cbv zeta. rewrite capture_parts. cbn [cap_fill1 cap_fill2].
  split; apply floodFill_count_nonneg.
Qed.

(** The enemies removed after the commit are exactly those whose cell is a
    wall. *)
Lemma destroyCaught_spec grid es :
  destroyCaught grid es =
    (Z.of_nat (length (List.filter (enemyOnWall grid) es)),
     List.filter (fun e => negb (enemyOnWall grid e)) es).
Proof.
  unfold destroyCaught.
  assert (forall n l,
    fold_left (fun (acc : Z * list Enemy) enemy =>
      if enemyOnWall grid enemy then (acc.1 + 1, acc.2) else (acc.1, acc.2 ++ [enemy]))
      es (n, l) =
    (n + Z.of_nat (length (List.filter (enemyOnWall grid) es)),
     l ++ List.filter (fun e => negb (enemyOnWall grid e)) es)) as H; [|apply H].
  induction es as [|e es IH]; intros n l; simpl.
  - by rewrite Z.add_0_r, app_nil_r.
  - destruct (enemyOnWall grid e); simpl; rewrite IH; f_equal; [lia|].
    by rewrite <- app_assoc.
Qed.

(** The cells of a grid hold EMPTY, WALL or TRAIL. *)
Definition ValidGrid (g : gmap Z Z) : Prop :=
  forall i v, rd g i = Some v -> v = CELL_EMPTY \/ v = CELL_WALL \/ v = CELL_TRAIL.

Lemma ValidGrid_wr g i v :
  ValidGrid g -> v = CELL_EMPTY \/ v = CELL_WALL \/ v = CELL_TRAIL -> ValidGrid (wr g i v).
Proof.
  intros Hg Hv j u Hj.
  destruct (rd_wr_cases g i j v) as [E|[_ E]]; rewrite E in Hj.
  - by apply (Hg j).
  - by injection Hj as <-.
Qed.

Lemma ValidGrid_markPrev g pos speed : ValidGrid g -> ValidGrid (markPrev g pos speed).
Proof.
  intros Hg. unfold markPrev. destruct (inGrid _ _); [|done].
  apply ValidGrid_wr; [done|tauto].
Qed.

(** In a valid grid the labels 5 and 6 of the copy mark exactly the cells
    the two fills have labelled; the commit turns the cells of the chosen
    label into WALL and leaves the others EMPTY. *)
Lemma capture_labelled g speed cx cy es i :
  ValidGrid g ->
  rd g (cx + cy * GRID_WIDTH) = Some CELL_TRAIL ->
  let c := capture g speed cx cy es in
  (rd (cap_gridCopy c) i = Some 5 ->
     rd g i = Some CELL_EMPTY /\
     rd (cap_grid c) i =
       Some (if cap_fill1 c >=? cap_fill2 c then CELL_EMPTY else CELL_WALL)) /\
  (rd (cap_gridCopy c) i = Some 6 ->
     rd g i = Some CELL_EMPTY /\
     rd (cap_grid c) i =
       Some (if cap_fill1 c >=? cap_fill2 c then CELL_WALL else CELL_EMPTY)).
Proof.
  intros Hg Hland c.
  pose proof (capture_cell g speed cx cy es i) as Hcell. fold c in Hcell.
  pose proof (capture_copy g speed cx cy es i) as Hcopy. fold c in Hcopy.
  cbv zeta in Hcell, Hcopy.
  assert (forall l, (l = 5 \/ l = 6) -> rd (cap_gridCopy c) i = Some l ->
            rd g i = Some CELL_EMPTY /\ 0 <= i < GRID_WIDTH * GRID_HEIGHT /\
            i <> cx + cy * GRID_WIDTH) as Hlab.
  { intros l Hl Hi. destruct Hcopy as [E|(E & Hr & _)].
    - rewrite E in Hi. apply Hg in Hi.
      unfold CELL_EMPTY, CELL_WALL, CELL_TRAIL in Hi. lia.
    - split; [done|]. split; [done|]. intros ->.
      unfold CELL_EMPTY, CELL_TRAIL in *. congruence. }
  split; intros Hi.
  - destruct (Hlab 5 ltac:(by left) Hi) as (E & Hr & Hne). split; [done|].
    rewrite (Hcell Hne), decide_True, E, Hi by done. unfold committed, chooseFill.
    rewrite bool_decide_eq_false_2 by done.
    destruct (cap_fill1 c >=? cap_fill2 c); reflexivity.
  - destruct (Hlab 6 ltac:(by right) Hi) as (E & Hr & Hne). split; [done|].
    rewrite (Hcell Hne), decide_True, E, Hi by done. unfold committed, chooseFill.
    rewrite bool_decide_eq_false_2 by done.
    destruct (cap_fill1 c >=? cap_fill2 c); reflexivity.
Qed.

Lemma filter_none_all {A} (p : A -> bool) (l : list A) :
  length (List.filter p l) = 0%nat -> List.filter (fun a => negb (p a)) l = l.
Proof.
  induction l as [|a l IH]; simpl; [done|].
  destruct (p a); simpl; [discriminate|]. intros H. by rewrite IH.
Qed.

(** What a closure tick is made of. *)
Lemma playerPhase_closure_inv (w : World) (c : Capture) (win : bool) :
  (playerPhase w).1 = Closure c win ->
  let speed := checkedSpeed (gridRef w) (playerState w) (playerPos w) (playerSpeed w) in
  let pos := clampPlayer ((playerPos w).1 + speed.1, (playerPos w).2 + speed.2) in
  let g := markPrev (wr (gridRef w) (pos.1 + pos.2 * GRID_WIDTH) CELL_TRAIL) pos speed in
  c = capture g speed pos.1 pos.2 ((fun e => (e_x e, e_y e)) <$> enemies w) /\
  gridRef (playerPhase w).2 = cap_grid c /\
  playerSpeed (playerPhase w).2 = speed /\
  enemies (playerPhase w).2 =
    List.filter (fun e => negb (enemyOnWall (cap_grid c) e)) (enemies w).
Proof.
  unfold playerPhase.
  destruct (isOnStage (playerState w) && _); [discriminate|].
  destruct (isOnStage (playerState w)); [|destruct (negb _ && _); discriminate].
  destruct (wallAround _ _ _); [|discriminate].
  rewrite destroyCaught_spec.
  match goal with |- context [capture ?g ?s ?x ?y ?e] => set (c0 := capture g s x y e) end.
  assert ((if 0 <? Z.of_nat (length (List.filter (enemyOnWall (cap_grid c0)) (enemies w)))
           then List.filter (fun e => negb (enemyOnWall (cap_grid c0) e)) (enemies w)
           else enemies w)
          = List.filter (fun e => negb (enemyOnWall (cap_grid c0) e)) (enemies w)) as ->.
  { destruct (Z.ltb_spec 0
                (Z.of_nat (length (List.filter (enemyOnWall (cap_grid c0)) (enemies w)))));
      [done|].
    symmetry. apply filter_none_all. lia. }
  destruct (WIN_PERCENTAGE <=? _); intros [= <- <-]; by split_and!.
Qed.

Definition movedEnemies (w : World) : list Enemy :=
  if (tickCount w + 1) mod 2 =? 0 then moveEnemy (gridRef w) <$> enemies w
  else enemies w.

Lemma gameLoopE_closure pressedKeys random (w : World) (c : Capture) (win : bool) :
  (gameLoopE pressedKeys random w).1 = Closure c win ->
  let w1 := mkWorld (gridRef w) (playerPos w)
              (processInput pressedKeys (playerState w) (playerSpeed w))
              (playerState w) (movedEnemies w) (gameState w) (tickCount w + 1) in
  (playerPhase w1).1 = Closure c win /\
  gameLoop pressedKeys random w = (playerPhase w1).2.
Proof.
  unfold gameLoop, gameLoopE, movedEnemies.
  destruct (negb _); [discriminate|].
  destruct ((tickCount w + 1) mod 2 =? 0).
  - pose proof (updateEnemies_miss (gridRef w) (enemies w)) as Hmiss.
    destruct (updateEnemies (gridRef w) (enemies w)) as [hit es]. simpl in Hmiss.
    destruct hit; [discriminate|]. rewrite (Hmiss eq_refl).
    destruct (playerPhase _) as [ev w2]. destruct ev; try discriminate. done.
  - destruct (playerPhase _) as [ev w2]. destruct ev; try discriminate. done.
Qed.

(** The grid the capture of a closure tick starts from: valid, with the
    landing cell on the trail, and EMPTY only where the grid of the tick
    start was. *)
Lemma closure_grid (w : World) (pos speed : Z * Z) :
  ValidGrid (gridRef w) ->
  inGrid pos.1 pos.2 = true ->
  let g := markPrev (wr (gridRef w) (pos.1 + pos.2 * GRID_WIDTH) CELL_TRAIL) pos speed in
  ValidGrid g /\
  rd g (pos.1 + pos.2 * GRID_WIDTH) = Some CELL_TRAIL /\
  (forall i, rd g i = Some CELL_EMPTY -> rd (gridRef w) i = Some CELL_EMPTY).
Proof.
  intros Hv Hin g. split_and!.
  - apply ValidGrid_markPrev, ValidGrid_wr; [done|tauto].
  - unfold g, markPrev. destruct (inGrid (pos.1 - speed.1) (pos.2 - speed.2)).
    + destruct (rd_wr_cases (wr (gridRef w) (pos.1 + pos.2 * GRID_WIDTH) CELL_TRAIL)
                  (pos.1 - speed.1 + (pos.2 - speed.2) * GRID_WIDTH)
                  (pos.1 + pos.2 * GRID_WIDTH) CELL_TRAIL) as [->|[_ ->]]; [|done].
      apply rd_wr_eq.
    + apply rd_wr_eq.
  - intros i Hi.
    destruct (trail_writes_cases (gridRef w) pos speed i Hin) as [E|[E _]]; fold g in E.
    + by rewrite <- E.
    + unfold CELL_EMPTY, CELL_TRAIL in *. congruence.
Qed.

(** What every closure tick does to the two sides. *)
Lemma closure_sides pressedKeys random (w : World) (c : Capture) (win : bool) :
  validCells (gridRef w) = true ->
  (gameLoopE pressedKeys random w).1 = Closure c win ->
  let w' := gameLoop pressedKeys random w in
  gridRef w' = cap_grid c /\
  cap_seeds c = floodStartPoints (playerSpeed w') (cap_landing c).1 (cap_landing c).2 /\
  enemies w' = List.filter (fun e => negb (enemyOnWall (gridRef w') e)) (movedEnemies w) /\
  forall i,
    (rd (cap_gridCopy c) i = Some 5 ->
       rd (gridRef w) i = Some CELL_EMPTY /\
       rd (gridRef w') i =
         Some (if cap_fill1 c >=? cap_fill2 c then CELL_EMPTY else CELL_WALL)) /\
    (rd (cap_gridCopy c) i = Some 6 ->
       rd (gridRef w) i = Some CELL_EMPTY /\
       rd (gridRef w') i =
         Some (if cap_fill1 c >=? cap_fill2 c then CELL_WALL else CELL_EMPTY)).
Proof.
  intros Hvalid Hev w'.
  destruct (gameLoopE_closure pressedKeys random w c win Hev) as [Hp Hw'].
  fold w' in Hw'. cbv zeta in Hp, Hw'.
  destruct (playerPhase_closure_inv _ c win Hp) as (Hc & Hgrid & Hspeed & Hes).
  rewrite <- Hw' in Hgrid, Hspeed, Hes.
  cbn [gridRef playerPos playerSpeed playerState enemies] in Hc, Hspeed, Hes.
  set (speed := checkedSpeed _ _ _ _) in *.
  set (pos := clampPlayer _) in *.
  assert (ValidGrid (gridRef w)) as HV by (intros i v; by apply validCells_rd).
  destruct (closure_grid w pos speed HV (inGrid_clampPlayer _)) as (HVg & Hland & Hempty).
  split_and!.
  - exact Hgrid.
  - rewrite Hc, Hspeed, capture_parts. reflexivity.
  - by rewrite Hgrid.
  - intros i. rewrite Hgrid, Hc.
    match goal with |- context [capture ?g ?s ?x ?y ?e] =>
      destruct (capture_labelled g s x y e i HVg Hland) as [H5 H6]
    end.
    split; intros Hi; [destruct (H5 Hi) as [E ->]|destruct (H6 Hi) as [E ->]];
      (split; [by apply Hempty|reflexivity]).
Qed.

(** C1 (as the code has it): at every closure the capture fills into WALL
    the side whose flood fill reports an enemy occupancy less than or equal
    to the other side's -- the side of the second seed (label 6) when the
    first side's count is greater or equal, the side of the first seed
    (label 5) only when its count is strictly smaller -- and leaves the
    cells of the other side EMPTY.  So when one side reports an enemy and
    the other none, the side reporting none is captured.  The enemies that
    remain are those whose cell is not WALL after the commit, so an enemy
    standing on a cell of the released side survives. *)
Theorem C1_side_with_fewer_enemies_is_filled pressedKeys random (w : World)
    (c : Capture) (win : bool) :
  validCells (gridRef w) = true ->
  (gameLoopE pressedKeys random w).1 = Closure c win ->
  let w' := gameLoop pressedKeys random w in
  let sideA i := rd (cap_gridCopy c) i = Some 5 in
  let sideB i := rd (cap_gridCopy c) i = Some 6 in
  (cap_fill1 c >= cap_fill2 c ->
     (forall i, sideB i -> rd (gridRef w') i = Some CELL_WALL) /\
     (forall i, sideA i -> rd (gridRef w') i = Some CELL_EMPTY)) /\
  (cap_fill1 c < cap_fill2 c ->
     (forall i, sideA i -> rd (gridRef w') i = Some CELL_WALL) /\
     (forall i, sideB i -> rd (gridRef w') i = Some CELL_EMPTY)) /\
  (forall i, sideA i \/ sideB i -> rd (gridRef w) i = Some CELL_EMPTY) /\
  enemies w' = List.filter (fun e => negb (enemyOnWall (gridRef w') e)) (movedEnemies w).
Proof.
  intros Hvalid Hev w' sideA sideB.
  destruct (closure_sides pressedKeys random w c win Hvalid Hev) as (_ & _ & Hes & Hs).
  fold w' in Hes, Hs. split_and!.
  - intros Hge0. assert ((cap_fill1 c >=? cap_fill2 c) = true) as Hge
      by (apply Z.geb_le; lia).
    split; intros i Hi; [destruct (proj2 (Hs i) Hi) as [_ ->]
                        |destruct (proj1 (Hs i) Hi) as [_ ->]]; by rewrite Hge.
  - intros Hlt. assert ((cap_fill1 c >=? cap_fill2 c) = false) as Hge.
    { destruct (Z.geb_spec (cap_fill1 c) (cap_fill2 c)); [lia|done]. }
    split; intros i Hi; [destruct (proj1 (Hs i) Hi) as [_ ->]
                        |destruct (proj2 (Hs i) Hi) as [_ ->]]; by rewrite Hge.
  - intros i [Hi|Hi]; [by destruct (proj1 (Hs i) Hi)|by destruct (proj2 (Hs i) Hi)].
  - exact Hes.
Qed.

(** C2 (as the code has it): at a closure in which the two fills report
    equal enemy occupancy (both zero included), the captured side is side
    B, the side grown from the second seed -- the cell below the landing
    cell when the player moves horizontally, the cell to its right when
    moving vertically -- and side A, grown from the first seed (above,
    or to the left), is left EMPTY.  ([gameLoop] is a function, so the
    outcome is the same on every run from the same state.) *)
Theorem C2_tie_fills_second_seed_side pressedKeys random (w : World)
    (c : Capture) (win : bool) :
  validCells (gridRef w) = true ->
  (gameLoopE pressedKeys random w).1 = Closure c win ->
  cap_fill1 c = cap_fill2 c ->
  let w' := gameLoop pressedKeys random w in
  let '(cx, cy) := cap_landing c in
  cap_seeds c =
    (if negb ((playerSpeed w').1 =? 0) then ((cx, cy - 1), (cx, cy + 1))
     else ((cx - 1, cy), (cx + 1, cy))) /\
  (forall i, rd (cap_gridCopy c) i = Some 6 -> rd (gridRef w') i = Some CELL_WALL) /\
  (forall i, rd (cap_gridCopy c) i = Some 5 -> rd (gridRef w') i = Some CELL_EMPTY).
Proof.
  intros Hvalid Hev Htie w'.
  destruct (closure_sides pressedKeys random w c win Hvalid Hev) as (_ & Hseeds & _ & Hs).
  fold w' in Hseeds, Hs.
  assert ((cap_fill1 c >=? cap_fill2 c) = true) as Hge by (apply Z.geb_le; lia).
  destruct (cap_landing c) as [cx cy]. split_and!.
  - exact Hseeds.
  - intros i Hi. destruct (proj2 (Hs i) Hi) as [_ ->]. by rewrite Hge.
  - intros i Hi. destruct (proj1 (Hs i) Hi) as [_ ->]. by rewrite Hge.
Qed.

(** The capture a closure tick runs, from the state at the start of the tick. *)
Definition closureCapture (pressedKeys : Z -> bool) (w : World) : Capture :=
  let speed := checkedSpeed (gridRef w) (playerState w) (playerPos w)
                 (processInput pressedKeys (playerState w) (playerSpeed w)) in
  let pos := clampPlayer ((playerPos w).1 + speed.1, (playerPos w).2 + speed.2) in
  capture (markPrev (wr (gridRef w) (pos.1 + pos.2 * GRID_WIDTH) CELL_TRAIL) pos speed)
    speed pos.1 pos.2 ((fun e => (e_x e, e_y e)) <$> movedEnemies w).

Lemma gameLoopE_closureCapture pressedKeys random (w : World) (c : Capture) (win : bool) :
  (gameLoopE pressedKeys random w).1 = Closure c win -> c = closureCapture pressedKeys w.
Proof.
  intros Hev.
  destruct (gameLoopE_closure pressedKeys random w c win Hev) as [Hp _].
  cbv zeta in Hp. by destruct (playerPhase_closure_inv _ c win Hp) as (Hc & _).
Qed.

(** Whether a tick closed a trail, and if so whether the closure won the level. *)
Definition closureWin (ev : TickEvent) : option bool :=
  match ev with
  | Closure _ win => Some win
  | _ => None
  end.

Lemma closure_event pressedKeys random (w : World) (win : bool) :
  closureWin (gameLoopE pressedKeys random w).1 = Some win ->
  (gameLoopE pressedKeys random w).1 = Closure (closureCapture pressedKeys w) win.
Proof.
  destruct (gameLoopE pressedKeys random w).1 as [| | |c b|] eqn:Hev; try discriminate.
  intros [= ->]. by rewrite (gameLoopE_closureCapture pressedKeys random w c win Hev).
Qed.

(** ** Degenerate closures *)


(** ** Flood fill: what it fills *)

(** An EMPTY cell of the play area. *)
Definition emptyPlay (g : gmap Z Z) (c : Z * Z) : Prop :=
  c ∈ playCells /\ rd g (cellIndex c) = Some CELL_EMPTY.

(** The four cells the fill pushes from a cell. *)
Definition neighbour4 (c d : Z * Z) : Prop :=
  d = (c.1 - 1, c.2) \/ d = (c.1 + 1, c.2) \/ d = (c.1, c.2 - 1) \/ d = (c.1, c.2 + 1).

(** The cells joined to the seed by a path of EMPTY play-area cells, each
    step to one of the four neighbours. *)
Inductive connected (g : gmap Z Z) (seed : Z * Z) : Z * Z -> Prop :=
  | connected_seed : emptyPlay g seed -> connected g seed seed
  | connected_step c d :
      connected g seed c -> neighbour4 c d -> emptyPlay g d -> connected g seed d.

(** A cell the fill has labelled. *)
Definition filled (v : Z) (g g' : gmap Z Z) (c : Z * Z) : Prop :=
  c ∈ playCells /\ rd g (cellIndex c) = Some CELL_EMPTY /\ rd g' (cellIndex c) = Some v.

(** The loop invariant of the fill. *)
Record fillInv (v : Z) (g : gmap Z Z) (seed : Z * Z) (st : FillState) : Prop := {
  fi_rel : fillRel v g (fs_grid st);
  fi_sound : forall c, filled v g (fs_grid st) c -> connected g seed c;
  fi_stack : forall d, d ∈ fs_stack st ->
               d = seed \/ exists c, filled v g (fs_grid st) c /\ neighbour4 c d;
  fi_pending : forall c d, filled v g (fs_grid st) c -> neighbour4 c d ->
               emptyPlay (fs_grid st) d -> d ∈ fs_stack st;
  fi_visited : forall c, c ∈ fs_visited st -> c ∈ playCells ->
               rd (fs_grid st) (cellIndex c) <> Some CELL_EMPTY;
  fi_seed : emptyPlay g seed ->
            (seed ∈ fs_stack st /\ rd (fs_grid st) (cellIndex seed) = Some CELL_EMPTY) \/
            filled v g (fs_grid st) seed
}.

Lemma connected_emptyPlay g seed c : connected g seed c -> emptyPlay g c.
Proof. by intros [|]. Qed.

Lemma floodFill_iter_cases v es c rest st :
  let st' := floodFill_iter v es c rest st in
  (fs_grid st' = fs_grid st /\ fs_stack st' = rest /\
   (forall d, d ∈ fs_visited st' -> d = c \/ d ∈ fs_visited st) /\
   (c ∈ fs_visited st \/ (c ∉ playCells) \/
    rd (fs_grid st) (cellIndex c) <> Some CELL_EMPTY)) \/
  (c ∈ playCells /\ (c ∉ fs_visited st) /\
   rd (fs_grid st) (cellIndex c) = Some CELL_EMPTY /\
   fs_grid st' = wr (fs_grid st) (cellIndex c) v /\
   (forall d, d ∈ fs_visited st' -> d = c \/ d ∈ fs_visited st) /\
   fs_stack st' =
     pushIfEmpty (fs_grid st') c.1 (c.2 + 1)
       (pushIfEmpty (fs_grid st') c.1 (c.2 - 1)
          (pushIfEmpty (fs_grid st') (c.1 + 1) c.2
             (pushIfEmpty (fs_grid st') (c.1 - 1) c.2 rest)))).
Proof.
  destruct c as [cx cy]. unfold floodFill_iter, cellIndex. cbn [fst snd].
  case_bool_decide as Hv; cbn [fs_grid fs_stack fs_visited].
  { left. split_and!; auto. }
  assert (forall d, d ∈ Set_add (cx, cy) (fs_visited st) ->
                    d = (cx, cy) \/ d ∈ fs_visited st) as Hvis.
  { intros d Hd. by apply elem_of_Set_add in Hd. }
  destruct (_ || _) eqn:Hout; cbn [fs_grid fs_stack fs_visited].
  { left. split_and!; auto. right; left.
    rewrite elem_of_playCells, isInPlayArea_spec.
    rewrite !orb_true_iff, !Z.ltb_lt, !Z.leb_le in Hout. lia. }
  destruct (cell_is (fs_grid st) (cx + cy * GRID_WIDTH) CELL_EMPTY) eqn:He;
    cbn [negb fs_grid fs_stack fs_visited].
  - right. split_and!; auto.
    + apply elem_of_playCells, isInPlayArea_spec.
      rewrite !orb_false_iff, !Z.ltb_ge, !Z.leb_gt in Hout. lia.
    + by apply cell_is_true.
  - left. split_and!; auto. right; right. by apply cell_is_false.
Qed.

Lemma elem_of_pushIfEmpty g x y stack d :
  d ∈ pushIfEmpty g x y stack <->
  (d = (x, y) /\ rd g (x + y * GRID_WIDTH) = Some CELL_EMPTY) \/ d ∈ stack.
Proof.
  unfold pushIfEmpty.
  destruct (cell_is g (x + y * GRID_WIDTH) CELL_EMPTY) eqn:He.
  - apply cell_is_true in He. rewrite elem_of_cons. tauto.
  - apply cell_is_false in He. tauto.
Qed.

Lemma floodFill_inv_final (P : FillState -> Prop) startX startY fillValue grid es :
  P (mkFill [(startX, startY)] ∅ grid 0) ->
  (forall c rest s, P s -> fs_stack s = c :: rest ->
     P (floodFill_iter fillValue es c rest s)) ->
  exists st,
    floodFill_run startX startY fillValue grid es = Some st /\
    floodFill startX startY fillValue grid es = (fs_count st, fs_grid st) /\
    P st /\ fs_stack st = [].
Proof.
  intros H0 Hstep.
  destruct (floodFill_terminates startX startY fillValue grid es) as [st Hst].
  exists st. unfold floodFill. rewrite Hst. split; [reflexivity|]. split; [reflexivity|].
  eapply floodFill_loop_inv in Hst; eauto.
Qed.

Section Component.

Variables (v : Z) (g : gmap Z Z) (seed : Z * Z) (es : list (Z * Z)).
Hypothesis Hv : v <> CELL_EMPTY.

Lemma filled_wr g' c0 c :
  c0 ∈ playCells ->
  filled v g (wr g' (cellIndex c0) v) c ->
  filled v g g' c \/ c = c0.
Proof.
  intros Hc0 (Hc & Hg & Hg').
  destruct (decide (cellIndex c = cellIndex c0)) as [E|E].
  - right. by apply cellIndex_inj.
  - left. rewrite rd_wr_ne in Hg' by done. done.
Qed.

Lemma filled_keep g' c0 c :
  filled v g g' c -> filled v g (wr g' (cellIndex c0) v) c.
Proof.
  intros (Hc & Hg & Hg'). split_and!; [done|done|].
  destruct (rd_wr_cases g' (cellIndex c0) (cellIndex c) v) as [->|[_ ->]]; done.
Qed.

Lemma fillInv_init : fillInv v g seed (mkFill [seed] ∅ g 0).
Proof.
  split; cbn [fs_grid fs_stack fs_visited].
  - apply fillRel_refl.
  - intros c (_ & H0 & H1). congruence.
  - intros d Hd. left. by apply list_elem_of_singleton in Hd.
  - intros c d (_ & H0 & H1). congruence.
  - set_solver.
  - intros [_ He]. left. split; [by apply list_elem_of_here|done].
Qed.

Lemma fillInv_step c rest st :
  fillInv v g seed st -> fs_stack st = c :: rest ->
  fillInv v g seed (floodFill_iter v es c rest st).
Proof.
  intros [Hrel Hsound Hstack Hpend Hvis Hseed] Hst.
  destruct (floodFill_iter_cases v es c rest st)
    as [(Hg & Hs & Hv' & Hwhy)|(Hc & Hnv & He & Hg & Hv' & Hs)].
  - (* nothing labelled *)
    assert (emptyPlay (fs_grid st) c -> False) as Hnot.
    { intros [Hp Hempty]. destruct Hwhy as [H|[H|H]]; [|done|done].
      by apply (Hvis c). }
    split; rewrite ?Hg, ?Hs.
    + done.
    + done.
    + intros d Hd. apply Hstack. rewrite Hst. by apply list_elem_of_further.
    + intros c1 d Hf Hn Hd. specialize (Hpend c1 d Hf Hn Hd). rewrite Hst in Hpend.
      apply elem_of_cons in Hpend as [->|]; [|done]. by destruct Hnot.
    + intros d Hd Hdp. apply Hv' in Hd as [->|Hd]; [|by apply Hvis].
      intros Hempty. by apply Hnot.
    + intros Hsd. destruct (Hseed Hsd) as [[Hin Hempty]|Hf]; [|by right].
      left. split; [|done]. rewrite Hst in Hin.
      apply elem_of_cons in Hin as [->|]; [|done].
      destruct Hnot. split; [apply Hsd|done].
  - (* [c] is labelled *)
    assert (rd g (cellIndex c) = Some CELL_EMPTY) as Hgc.
    { destruct (Hrel (cellIndex c)) as [E|(E & E' & _)]; congruence. }
    assert (filled v g (wr (fs_grid st) (cellIndex c) v) c) as Hfc.
    { split_and!; [done|done|apply rd_wr_eq]. }
    split; rewrite ?Hg in *.
    + apply fillRel_step; [done|done|by apply cell_is_true].
    + intros c1 Hf. destruct (filled_wr _ c c1 Hc Hf) as [Hf'| ->]; [by apply Hsound|].
      destruct (Hstack c) as [->|(c0 & Hf0 & Hn)].
      * rewrite Hst. apply list_elem_of_here.
      * by apply connected_seed.
      * eapply connected_step; [by apply Hsound|done|done].
    + intros d Hd. rewrite Hs, !elem_of_pushIfEmpty in Hd.
      destruct Hd as [ [-> _] | [ [-> _] | [ [-> _] | [ [-> _] | Hd] ] ] ].
      1-4: right; exists c; split; [done|unfold neighbour4; tauto].
      destruct (Hstack d) as [->|(c0 & Hf0 & Hn)].
      * rewrite Hst. by apply list_elem_of_further.
      * by left.
      * right. exists c0. split; [by apply filled_keep|done].
    + intros c1 d Hf Hn [Hdp Hde]. rewrite Hs, !elem_of_pushIfEmpty.
      destruct (filled_wr _ c c1 Hc Hf) as [Hf'| ->].
      * assert (cellIndex d <> cellIndex c) as Hne.
        { intros E. rewrite E, rd_wr_eq in Hde. congruence. }
        rewrite rd_wr_ne in Hde by done.
        specialize (Hpend c1 d Hf' Hn (conj Hdp Hde)). rewrite Hst in Hpend.
        apply elem_of_cons in Hpend as [->|Hin]; [done|]. tauto.
      * unfold cellIndex in Hde.
        destruct Hn as [-> | [-> | [-> | ->] ] ]; cbn [fst snd] in Hde; tauto.
    + intros d Hd Hdp. apply Hv' in Hd as [->|Hd].
      * rewrite rd_wr_eq. congruence.
      * destruct (rd_wr_cases (fs_grid st) (cellIndex c) (cellIndex d) v) as [->|[_ ->]];
          [by apply Hvis|congruence].
    + intros Hsd. destruct (Hseed Hsd) as [[Hin Hes]|Hf].
      * rewrite Hst in Hin. apply elem_of_cons in Hin as [->|Hin]; [by right|].
        destruct (decide (cellIndex seed = cellIndex c)) as [E|E].
        -- right. assert (seed = c) as -> by (apply cellIndex_inj; [apply Hsd|done|done]).
           done.
        -- left. split; [|by rewrite rd_wr_ne].
           rewrite Hs, !elem_of_pushIfEmpty. tauto.
      * right. by apply filled_keep.
Qed.

End Component.

(** The fill labels exactly the connected component of its seed. *)
Lemma floodFill_component startX startY fillValue grid es :
  fillValue <> CELL_EMPTY ->
  let g' := (floodFill startX startY fillValue grid es).2 in
  (forall c, connected grid (startX, startY) c -> rd g' (cellIndex c) = Some fillValue) /\
  (forall i, (forall c, connected grid (startX, startY) c -> i <> cellIndex c) ->
             rd g' i = rd grid i).
Proof.
  intros Hv.
  destruct (floodFill_inv_final (fillInv fillValue grid (startX, startY))
              startX startY fillValue grid es)
    as (st & _ & -> & [Hrel Hsound Hstack Hpend Hvis Hseed] & Hnil).
  { by apply fillInv_init. }
  { intros c rest s. by apply fillInv_step. }
  cbn [snd]. rewrite Hnil in *. split.
  - intros c Hc. induction Hc as [Hs|c d Hc IH Hn Hd].
    + destruct (Hseed Hs) as [[Hin _]|(_ & _ & H)]; [|done].
      by apply elem_of_nil in Hin.
    + destruct Hd as [Hdp Hde].
      destruct (Hrel (cellIndex d)) as [E|(_ & E & _)]; [|done].
      apply connected_emptyPlay in Hc as [Hcp Hce].
      assert (d ∈ []) as Hin; [|by apply elem_of_nil in Hin].
      apply (Hpend c d); [by split_and!|done|]. split; [done|congruence].
  - intros i Hi. destruct (Hrel i) as [E|(E0 & E & c & Hc & ->)]; [done|].
    destruct (Hi c); [|done]. apply Hsound. by split_and!.
Qed.
(** ** The first grid *)

(** The rectangle of border cells: rows 0 and 47 between columns 12 and
    83, columns 12 and 83 between rows 0 and 47. *)
Definition onBorder (x y : Z) : bool :=
  (PLAY_AREA_LEFT - 1 <=? x) && (x <=? PLAY_AREA_RIGHT) &&
  (0 <=? y) && (y <=? PLAY_AREA_BOTTOM) &&
  ((y =? 0) || (y =? PLAY_AREA_BOTTOM) || (x =? PLAY_AREA_LEFT - 1) || (x =? PLAY_AREA_RIGHT)).

Lemma createInitialGrid_rd i :
  rd createInitialGrid i =
    if decide (0 <= i < GRID_WIDTH * GRID_HEIGHT)
    then Some (if onBorder (i mod GRID_WIDTH) (i / GRID_WIDTH) then CELL_WALL else CELL_EMPTY)
    else None.
Proof.
  case_decide as Hi.
  - assert (forallb (fun i =>
              bool_decide (rd createInitialGrid i =
                Some (if onBorder (i mod GRID_WIDTH) (i / GRID_WIDTH)
                      then CELL_WALL else CELL_EMPTY)))
              (seqZ 0 (GRID_WIDTH * GRID_HEIGHT)) = true) as Hall
      by (vm_compute; reflexivity).
    rewrite forallb_forall in Hall.
    eapply bool_decide_eq_true_1, Hall, list_elem_of_In, elem_of_seqZ. lia.
  - assert (withinArray createInitialGrid = true) as Hw by (vm_compute; reflexivity).
    destruct (rd createInitialGrid i) as [v|] eqn:E; [|done].
    destruct Hi. by apply (withinArray_rd createInitialGrid i v).
Qed.

(** ** Player movement *)

(** The speeds of the game: at rest, or one cell along one axis. *)
Definition axisSpeed (speed : Z * Z) : Prop :=
  speed = (0, 0) \/ speed = (- PLAYER_SPEED, 0) \/ speed = (PLAYER_SPEED, 0) \/
  speed = (0, - PLAYER_SPEED) \/ speed = (0, PLAYER_SPEED).

Lemma processInput_cases pressedKeys st speed :
  processInput pressedKeys st speed =
    if isOnStage st then speed
    else if pressedKeys 40 || pressedKeys 83 then (0, PLAYER_SPEED)
    else if pressedKeys 38 || pressedKeys 87 then (0, - PLAYER_SPEED)
    else if pressedKeys 39 || pressedKeys 68 then (PLAYER_SPEED, 0)
    else if pressedKeys 37 || pressedKeys 65 then (- PLAYER_SPEED, 0)
    else speed.
Proof.
  unfold processInput.
  destruct (isOnStage st), (pressedKeys 40 || pressedKeys 83),
    (pressedKeys 38 || pressedKeys 87), (pressedKeys 39 || pressedKeys 68),
    (pressedKeys 37 || pressedKeys 65); reflexivity.
Qed.

Lemma processInput_axis pressedKeys st speed :
  axisSpeed speed -> axisSpeed (processInput pressedKeys st speed).
Proof.
  intros Hs. rewrite processInput_cases. unfold axisSpeed.
  repeat match goal with |- context [if ?b then _ else _] => destruct b end; tauto.
Qed.

Lemma checkedSpeed_axis grid st pos speed :
  axisSpeed speed -> axisSpeed (checkedSpeed grid st pos speed).
Proof.
  intros Hs. unfold checkedSpeed. cbv zeta.
  repeat match goal with |- context [if ?b then _ else _] => destruct b end;
    first [exact Hs|by left].
Qed.





(** ** The void is a rectangle *)

(** The EMPTY cells of the play area form a rectangle at every tick of a
    game (while a trail is drawn, the rectangle minus a straight ray of
    TRAIL cells behind the player); every closure cuts it in two
    rectangles and keeps one of them. *)
Record Rect := mkRect { rx0 : Z; rx1 : Z; ry0 : Z; ry1 : Z }.

Definition inRect (r : Rect) (x y : Z) : Prop :=
  rx0 r <= x <= rx1 r /\ ry0 r <= y <= ry1 r.

(** A rectangle of the play area. *)
Definition rectOK (r : Rect) : Prop :=
  PLAY_AREA_LEFT <= rx0 r /\ rx1 r < PLAY_AREA_RIGHT /\
  PLAY_AREA_TOP <= ry0 r /\ ry1 r < PLAY_AREA_BOTTOM.

(** The cells of the rectangle whose eight neighbours are in it too. *)
Definition interior (r : Rect) (p : Z * Z) : Prop :=
  rx0 r + 1 <= p.1 <= rx1 r - 1 /\ ry0 r + 1 <= p.2 <= ry1 r - 1.

(** The cells on the trail: none, or the cells behind [p] on the line it
    moves along with speed [d] ([p] itself once it is marked). *)
Inductive TrailShape := noTrailShape | ray (p d : Z * Z) (marked : bool).

Definition onTrail (t : TrailShape) (x y : Z) : Prop :=
  match t with
  | noTrailShape => False
  | ray p d marked =>
      (x - p.1) * d.2 = (y - p.2) * d.1 /\
      (if marked then 0 else 1) <= (p.1 - x) * d.1 + (p.2 - y) * d.2
  end.

(** The grid whose void is the rectangle [r], with the trail [t] in it:
    EMPTY left of the border, WALL everywhere else outside [r]. *)
Definition voidGrid (g : gmap Z Z) (r : Rect) (t : TrailShape) : Prop :=
  forall x y, inGrid x y = true ->
    (x < PLAY_AREA_LEFT - 1 -> rd g (x + y * GRID_WIDTH) = Some CELL_EMPTY) /\
    (PLAY_AREA_LEFT - 1 <= x -> ~ inRect r x y ->
       rd g (x + y * GRID_WIDTH) = Some CELL_WALL) /\
    (inRect r x y -> onTrail t x y -> rd g (x + y * GRID_WIDTH) = Some CELL_TRAIL) /\
    (inRect r x y -> ~ onTrail t x y -> rd g (x + y * GRID_WIDTH) = Some CELL_EMPTY).

Definition unitSpeed (d : Z * Z) : Prop :=
  d = (-1, 0) \/ d = (1, 0) \/ d = (0, -1) \/ d = (0, 1).

Definition inBox (p : Z * Z) : Prop :=
  PLAY_AREA_LEFT - 1 <= p.1 <= PLAY_AREA_RIGHT /\ 0 <= p.2 <= PLAY_AREA_BOTTOM.

Ltac rect_unfold :=
  unfold inRect, rectOK, interior, inBox, PLAY_AREA_LEFT, PLAY_AREA_RIGHT, PLAY_AREA_TOP,
    PLAY_AREA_BOTTOM, GRID_WIDTH, GRID_HEIGHT in *;
  cbn [rx0 rx1 ry0 ry1 fst snd] in *.

Ltac rect_lia := rect_unfold; lia.

#[local] Instance inRect_dec r x y : Decision (inRect r x y).
Proof. unfold inRect. apply _. Defined.

#[local] Instance onTrail_dec t x y : Decision (onTrail t x y).
Proof. destruct t as [|p d marked]; cbn [onTrail]; apply _. Defined.

Lemma inGrid_spec x y :
  inGrid x y = true <-> 0 <= x < GRID_WIDTH /\ 0 <= y < GRID_HEIGHT.
Proof. unfold inGrid. rewrite !andb_true_iff, !Z.leb_le, !Z.ltb_lt. tauto. Qed.

Lemma inGrid_index_inj a b c d :
  inGrid a b = true -> inGrid c d = true ->
  a + b * GRID_WIDTH = c + d * GRID_WIDTH -> a = c /\ b = d.
Proof. rewrite !inGrid_spec. unfold GRID_WIDTH, GRID_HEIGHT. lia. Qed.

Lemma inRect_inGrid r x y : rectOK r -> inRect r x y -> inGrid x y = true.
Proof. intros Hr Hin. apply inGrid_spec. rect_lia. Qed.

Lemma inRect_playCells r x y : rectOK r -> inRect r x y -> (x, y) ∈ playCells.
Proof. intros Hr Hin. apply elem_of_playCells, isInPlayArea_spec. rect_lia. Qed.

Lemma unitSpeed_axis d : axisSpeed d -> d <> (0, 0) -> unitSpeed d.
Proof. unfold axisSpeed, unitSpeed, PLAYER_SPEED. intros [->|H] Hne; [done|exact H]. Qed.

Lemma clampPlayer_inBox p : inBox (clampPlayer p).
Proof. unfold clampPlayer. rect_lia. Qed.

Lemma clampPlayer_id p : inBox p -> clampPlayer p = p.
Proof.
  intros Hp. destruct p as [x y]. unfold clampPlayer. rect_unfold. f_equal; lia.
Qed.

Lemma sidestep_near grid speed cx cy pos :
  let p := sidestep grid speed cx cy pos in
  -1 <= p.1 - pos.1 <= 1 /\ -1 <= p.2 - pos.2 <= 1.
Proof.
  unfold sidestep. cbv zeta.
  repeat match goal with |- context [if ?b then _ else _] => destruct b end;
    cbn [fst snd]; lia.
Qed.

(** *** Walls around a cell of such a grid *)

Lemma voidGrid_wall g r t x y :
  voidGrid g r t -> inGrid x y = true ->
  rd g (x + y * GRID_WIDTH) = Some CELL_WALL ->
  PLAY_AREA_LEFT - 1 <= x /\ ~ inRect r x y.
Proof.
  intros Hg Hin Hw. destruct (Hg x y Hin) as (H1 & H2 & H3 & H4).
  assert (CELL_WALL <> CELL_EMPTY /\ CELL_WALL <> CELL_TRAIL) as [? ?] by done.
  split.
  - destruct (Z.le_gt_cases (PLAY_AREA_LEFT - 1) x) as [|Hlt]; [done|].
    rewrite H1 in Hw by lia. congruence.
  - intros Hr. destruct (decide (onTrail t x y)) as [Ht|Ht].
    + rewrite (H3 Hr Ht) in Hw. congruence.
    + rewrite (H4 Hr Ht) in Hw. congruence.
Qed.

Lemma wallAround_interior g r t p :
  voidGrid g r t -> interior r p -> wallAround g p.1 p.2 = false.
Proof.
  intros Hg Hp. destruct (wallAround g p.1 p.2) eqn:Hw; [|done].
  apply wallAround_iff in Hw as (dx & dy & Hdx & Hdy & Hin & Hrd).
  apply (voidGrid_wall g r t _ _ Hg Hin) in Hrd as [_ Hout].
  destruct Hout. rect_lia.
Qed.

Lemma no_wall_interior g r t p :
  voidGrid g r t -> rectOK r -> inBox p -> wallAround g p.1 p.2 = false -> interior r p.
Proof.
  intros Hg Hr Hp Hw.
  assert (forall dx dy, -1 <= dx <= 1 -> -1 <= dy <= 1 ->
            inGrid (p.1 + dx) (p.2 + dy) = true -> PLAY_AREA_LEFT - 1 <= p.1 + dx ->
            inRect r (p.1 + dx) (p.2 + dy)) as Hin.
  { intros dx dy Hdx Hdy Hin Hx.
    destruct (decide (inRect r (p.1 + dx) (p.2 + dy))) as [|Hout]; [done|].
    destruct (Hg _ _ Hin) as (_ & H2 & _).
    by destruct (wallAround_false g p.1 p.2 dx dy Hw Hdx Hdy Hin), H2. }
  assert (inRect r p.1 p.2) as H0.
  { specialize (Hin 0 0). rewrite !Z.add_0_r in Hin. apply Hin; [lia|lia| |rect_lia].
    apply inGrid_spec. rect_lia. }
  assert (forall dx dy, -1 <= dx <= 1 -> -1 <= dy <= 1 ->
            inRect r (p.1 + dx) (p.2 + dy)) as Hin'.
  { intros dx dy Hdx Hdy. apply Hin; [done|done| |rect_lia].
    apply inGrid_spec. rect_lia. }
  pose proof (Hin' (-1) 0 ltac:(lia) ltac:(lia)).
  pose proof (Hin' 1 0 ltac:(lia) ltac:(lia)).
  pose proof (Hin' 0 (-1) ltac:(lia) ltac:(lia)).
  pose proof (Hin' 0 1 ltac:(lia) ltac:(lia)).
  rect_lia.
Qed.

(** *** The fill of a rectangle of EMPTY cells *)

Lemma rect_connected g s sx sy :
  (forall x y, inRect s x y -> emptyPlay g (x, y)) ->
  inRect s sx sy ->
  forall x y, inRect s x y -> connected g (sx, sy) (x, y).
Proof.
  intros Hs Hseed.
  assert (forall (n : nat) x, inRect s x sy -> Z.abs (x - sx) = Z.of_nat n ->
            connected g (sx, sy) (x, sy)) as Hrow.
  { induction n as [|n IH]; intros x Hx Hn.
    - assert (x = sx) as -> by lia. apply connected_seed. by apply Hs.
    - destruct (Z.lt_ge_cases x sx).
      + apply (connected_step g (sx, sy) (x + 1, sy)).
        * apply IH; [rect_lia|lia].
        * unfold neighbour4. cbn [fst snd]. left. f_equal. lia.
        * by apply Hs.
      + apply (connected_step g (sx, sy) (x - 1, sy)).
        * apply IH; [rect_lia|lia].
        * unfold neighbour4. cbn [fst snd]. right; left. f_equal. lia.
        * by apply Hs. }
  assert (forall (n : nat) x y, inRect s x y -> Z.abs (y - sy) = Z.of_nat n ->
            connected g (sx, sy) (x, y)) as Hcol.
  { induction n as [|n IH]; intros x y Hxy Hn.
    - assert (y = sy) as -> by lia.
      apply (Hrow (Z.to_nat (Z.abs (x - sx)))); [done|lia].
    - destruct (Z.lt_ge_cases y sy).
      + apply (connected_step g (sx, sy) (x, y + 1)).
        * apply IH; [rect_lia|lia].
        * unfold neighbour4. cbn [fst snd]. right; right; left. f_equal. lia.
        * by apply Hs.
      + apply (connected_step g (sx, sy) (x, y - 1)).
        * apply IH; [rect_lia|lia].
        * unfold neighbour4. cbn [fst snd]. right; right; right. f_equal. lia.
        * by apply Hs. }
  intros x y Hxy. apply (Hcol (Z.to_nat (Z.abs (y - sy)))); [done|lia].
Qed.

Lemma fill_rect g s sx sy v es :
  v <> CELL_EMPTY -> rectOK s -> inRect s sx sy ->
  (forall x y, inRect s x y -> rd g (x + y * GRID_WIDTH) = Some CELL_EMPTY) ->
  (forall x y, isInPlayArea x y = true -> ~ inRect s x y ->
     (inRect s (x - 1) y \/ inRect s (x + 1) y \/ inRect s x (y - 1) \/ inRect s x (y + 1)) ->
     rd g (x + y * GRID_WIDTH) <> Some CELL_EMPTY) ->
  let g' := (floodFill sx sy v g es).2 in
  (forall x y, inRect s x y -> rd g' (x + y * GRID_WIDTH) = Some v) /\
  (forall x y, inGrid x y = true -> ~ inRect s x y ->
     rd g' (x + y * GRID_WIDTH) = rd g (x + y * GRID_WIDTH)).
Proof.
  intros Hv Hs Hseed Hempty Hedge g'.
  assert (forall x y, inRect s x y -> emptyPlay g (x, y)) as Hep.
  { intros x y Hxy. split; [by eapply inRect_playCells|by apply Hempty]. }
  assert (forall c, connected g (sx, sy) c -> inRect s c.1 c.2) as Hsub.
  { intros c Hc. induction Hc as [_|c d Hc IH Hn [Hdp Hde]]; [done|].
    destruct (decide (inRect s d.1 d.2)) as [|Hout]; [done|].
    destruct d as [x y]. apply elem_of_playCells in Hdp. cbn [fst snd] in *.
    destruct (Hedge x y Hdp Hout); [|done].
    destruct c as [cx cy]. unfold neighbour4 in Hn. cbn [fst snd] in *.
    destruct Hn as [[= -> ->]|[[= -> ->]|[[= -> ->]|[= -> ->]]]].
    - right; left. by replace (cx - 1 + 1) with cx by lia.
    - left. by replace (cx + 1 - 1) with cx by lia.
    - right; right; right. by replace (cy - 1 + 1) with cy by lia.
    - right; right; left. by replace (cy + 1 - 1) with cy by lia. }
  destruct (floodFill_component sx sy v g es Hv) as [Hin Hout]. fold g' in Hin, Hout.
  split.
  - intros x y Hxy. apply (Hin (x, y)). by apply rect_connected with (s := s).
  - intros x y Hxy Hnot. apply Hout. intros c Hc Heq.
    apply Hsub in Hc. destruct c as [cx cy]. unfold cellIndex in Heq. cbn [fst snd] in *.
    apply inGrid_index_inj in Heq as [-> ->]; [done|done|by eapply inRect_inGrid].
Qed.

(** *** Laying the trail *)

Lemma onTrail_extend p d marked x y :
  unitSpeed d -> ~ (x = p.1 /\ y = p.2) -> ~ (x = p.1 + d.1 /\ y = p.2 + d.2) ->
  onTrail (ray (p.1 + d.1, p.2 + d.2) d true) x y <-> onTrail (ray p d marked) x y.
Proof.
  intros [-> | [-> | [-> | ->] ] ] Hp HL; cbn [onTrail fst snd] in *;
    destruct marked; lia.
Qed.

Lemma onTrail_extend_here p d x y :
  unitSpeed d ->
  (x = p.1 /\ y = p.2) \/ (x = p.1 + d.1 /\ y = p.2 + d.2) ->
  onTrail (ray (p.1 + d.1, p.2 + d.2) d true) x y.
Proof.
  intros [-> | [-> | [-> | ->] ] ] H; cbn [onTrail fst snd] in *; lia.
Qed.

Lemma interior_step r p d :
  unitSpeed d -> interior r p ->
  inRect r (p.1 + d.1) (p.2 + d.2) /\ inRect r p.1 p.2 /\ inRect r (p.1 - d.1) (p.2 - d.2).
Proof. intros [-> | [-> | [-> | ->] ] ] Hp; rect_lia. Qed.

(** The two writes of a tick on stage: the new cell and the one before. *)
Lemma trail_extend g r p d marked (L : Z * Z) :
  voidGrid g r (ray p d marked) -> rectOK r -> unitSpeed d -> interior r p ->
  L = (p.1 + d.1, p.2 + d.2) ->
  voidGrid (markPrev (wr g (L.1 + L.2 * GRID_WIDTH) CELL_TRAIL) L d) r (ray L d true).
Proof.
  intros Hg Hr Hd Hp ->. cbn [fst snd].
  destruct (interior_step r p d Hd Hp) as (HL & Hp' & _).
  pose proof (inRect_inGrid r _ _ Hr HL) as HLg.
  pose proof (inRect_inGrid r _ _ Hr Hp') as Hpg.
  unfold markPrev. cbn [fst snd].
  replace (p.1 + d.1 - d.1) with p.1 by lia. replace (p.2 + d.2 - d.2) with p.2 by lia.
  rewrite Hpg.
  intros x y Hin. destruct (Hg x y Hin) as (H1 & H2 & H3 & H4).
  destruct (decide ((x = p.1 /\ y = p.2) \/ (x = p.1 + d.1 /\ y = p.2 + d.2))) as [Hc|Hc].
  - assert (rd (wr (wr g (p.1 + d.1 + (p.2 + d.2) * GRID_WIDTH) CELL_TRAIL)
                  (p.1 + p.2 * GRID_WIDTH) CELL_TRAIL) (x + y * GRID_WIDTH)
            = Some CELL_TRAIL) as ->.
    { destruct Hc as [[-> ->]|[-> ->]]; [apply rd_wr_eq|].
      destruct (rd_wr_cases (wr g (p.1 + d.1 + (p.2 + d.2) * GRID_WIDTH) CELL_TRAIL)
                  (p.1 + p.2 * GRID_WIDTH) (p.1 + d.1 + (p.2 + d.2) * GRID_WIDTH)
                  CELL_TRAIL) as [->|[_ ->]]; [apply rd_wr_eq|done]. }
    assert (inRect r x y) as Hxy by (destruct Hc as [[-> ->]|[-> ->]]; done).
    split_and!; [rect_lia|done|done|].
    intros _ Hnot. destruct Hnot. by apply onTrail_extend_here.
  - assert (x + y * GRID_WIDTH <> p.1 + p.2 * GRID_WIDTH) as Hne1.
    { intros E. apply inGrid_index_inj in E; [tauto|done|done]. }
    assert (x + y * GRID_WIDTH <> p.1 + d.1 + (p.2 + d.2) * GRID_WIDTH) as Hne2.
    { intros E. apply inGrid_index_inj in E; [tauto|done|done]. }
    rewrite !rd_wr_ne by done.
    assert (onTrail (ray (p.1 + d.1, p.2 + d.2) d true) x y <-> onTrail (ray p d marked) x y)
      as Hiff by (apply onTrail_extend; tauto).
    split_and!; [done|done| |].
    + intros Hxy Ht. apply H3; [done|by apply Hiff].
    + intros Hxy Ht. apply H4; [done|]. intros Ht'. by apply Ht, Hiff.
Qed.

(** The write of the tick that leaves the wall: the cell left behind, from
    which a wall was in sight. *)
Lemma trail_start g r q d (p : Z * Z) :
  voidGrid g r noTrailShape -> rectOK r -> unitSpeed d ->
  p = (q.1 + d.1, q.2 + d.2) -> interior r p ->
  wallAround g q.1 q.2 = true ->
  voidGrid (markPrev g p d) r (ray p d false).
Proof.
  intros Hg Hr Hd -> Hp Hw.
  destruct (interior_step r _ d Hd Hp) as (_ & _ & Hq). cbn [fst snd] in Hq, Hp.
  replace (q.1 + d.1 - d.1) with q.1 in Hq by lia.
  replace (q.2 + d.2 - d.2) with q.2 in Hq by lia.
  pose proof (inRect_inGrid r _ _ Hr Hq) as Hqg.
  (* the cell behind [q] is outside the rectangle *)
  assert (~ inRect r (q.1 - d.1) (q.2 - d.2)) as Hbehind.
  { apply wallAround_iff in Hw as (dx & dy & Hdx & Hdy & Hin & Hrd).
    apply (voidGrid_wall g r _ _ _ Hg Hin) in Hrd as [_ Hout].
    destruct Hd as [-> | [-> | [-> | ->] ] ]; rect_lia. }
  unfold markPrev. cbn [fst snd].
  replace (q.1 + d.1 - d.1) with q.1 by lia. replace (q.2 + d.2 - d.2) with q.2 by lia.
  rewrite Hqg.
  intros x y Hin. destruct (Hg x y Hin) as (H1 & H2 & H3 & H4).
  assert (inRect r x y -> (onTrail (ray (q.1 + d.1, q.2 + d.2) d false) x y <->
                           x = q.1 /\ y = q.2)) as Hiff.
  { intros Hxy. clear H1 H2 H3 H4 Hg Hin Hqg.
    destruct Hd as [-> | [-> | [-> | ->] ] ]; cbn [onTrail fst snd] in *; rect_lia. }
  destruct (decide (x = q.1 /\ y = q.2)) as [[-> ->]|Hc].
  - rewrite rd_wr_eq. split_and!; [rect_lia|done|done|].
    intros Hxy Hnot. destruct Hnot. by apply Hiff.
  - assert (x + y * GRID_WIDTH <> q.1 + q.2 * GRID_WIDTH) as Hne.
    { intros E. apply inGrid_index_inj in E; [tauto|done|done]. }
    rewrite rd_wr_ne by done.
    split_and!; [done|done| |].
    + intros Hxy Ht. apply (Hiff Hxy) in Ht. tauto.
    + intros Hxy _. apply H4; [done|]. intros [].
Qed.

(** *** The capture on such a grid *)

(** The two parts a full line of trail through [L] cuts the rectangle
    into: the part of the first seed (above, or to the left) and the part
    of the second. *)
Definition firstSide (r : Rect) (L d : Z * Z) : Rect :=
  if negb (d.1 =? 0) then mkRect (rx0 r) (rx1 r) (ry0 r) (L.2 - 1)
  else mkRect (rx0 r) (L.1 - 1) (ry0 r) (ry1 r).

Definition secondSide (r : Rect) (L d : Z * Z) : Rect :=
  if negb (d.1 =? 0) then mkRect (rx0 r) (rx1 r) (L.2 + 1) (ry1 r)
  else mkRect (L.1 + 1) (rx1 r) (ry0 r) (ry1 r).

Ltac side_lia :=
  unfold firstSide, secondSide in *; cbn [onTrail fst snd negb Z.eqb] in *; rect_lia.

Section Sides.

Variables (r : Rect) (L d : Z * Z).
Hypothesis Hr : rectOK r.
Hypothesis Hd : unitSpeed d.
Hypothesis Hp : interior r (L.1 - d.1, L.2 - d.2).
Hypothesis Hfar : ~ inRect r (L.1 + d.1) (L.2 + d.2).

Lemma sides_ok : rectOK (firstSide r L d) /\ rectOK (secondSide r L d).
Proof using All. destruct Hd as [-> | [-> | [-> | ->] ] ]; side_lia. Qed.

Lemma sides_seeds :
  let seeds := floodStartPoints d L.1 L.2 in
  inRect (firstSide r L d) seeds.1.1 seeds.1.2 /\ inRect (secondSide r L d) seeds.2.1 seeds.2.2.
Proof using All.
  unfold floodStartPoints. destruct Hd as [-> | [-> | [-> | ->] ] ]; side_lia.
Qed.

Lemma firstSide_in x y :
  inRect (firstSide r L d) x y ->
  inRect r x y /\ ~ onTrail (ray L d true) x y /\ ~ inRect (secondSide r L d) x y.
Proof using All. destruct Hd as [-> | [-> | [-> | ->] ] ]; side_lia. Qed.

Lemma secondSide_in x y :
  inRect (secondSide r L d) x y ->
  inRect r x y /\ ~ onTrail (ray L d true) x y /\ ~ inRect (firstSide r L d) x y.
Proof using All. destruct Hd as [-> | [-> | [-> | ->] ] ]; side_lia. Qed.

Lemma sides_line x y :
  inRect r x y -> ~ inRect (firstSide r L d) x y -> ~ inRect (secondSide r L d) x y ->
  onTrail (ray L d true) x y.
Proof using All. destruct Hd as [-> | [-> | [-> | ->] ] ]; side_lia. Qed.

Lemma landing_line : inRect r L.1 L.2 /\ onTrail (ray L d true) L.1 L.2.
Proof using All. destruct Hd as [-> | [-> | [-> | ->] ] ]; side_lia. Qed.

End Sides.

Lemma committed_values fillThis doNot gi ci :
  committed fillThis doNot gi ci =
    if bool_decide (gi = Some CELL_TRAIL) then Some CELL_WALL
    else if bool_decide (ci = Some fillThis) then Some CELL_WALL
    else if bool_decide (ci = Some doNot) then Some CELL_EMPTY
    else gi.
Proof. reflexivity. Qed.

Lemma capture_rect g0 r L d es :
  voidGrid g0 r (ray L d true) -> rectOK r -> unitSpeed d ->
  interior r (L.1 - d.1, L.2 - d.2) ->
  ~ inRect r (L.1 + d.1) (L.2 + d.2) ->
  let c := capture g0 d L.1 L.2 es in
  let seeds := floodStartPoints d L.1 L.2 in
  let copy1 := (floodFill seeds.1.1 seeds.1.2 5 g0 es).2 in
  let r' := if cap_fill1 c >=? cap_fill2 c then firstSide r L d else secondSide r L d in
  (forall x y, inRect (firstSide r L d) x y -> rd copy1 (x + y * GRID_WIDTH) = Some 5) /\
  (forall x y, inGrid x y = true -> ~ inRect (firstSide r L d) x y ->
     rd copy1 (x + y * GRID_WIDTH) = rd g0 (x + y * GRID_WIDTH)) /\
  (forall x y, inRect (secondSide r L d) x y ->
     rd (cap_gridCopy c) (x + y * GRID_WIDTH) = Some 6) /\
  (forall x y, inGrid x y = true -> ~ inRect (secondSide r L d) x y ->
     rd (cap_gridCopy c) (x + y * GRID_WIDTH) = rd copy1 (x + y * GRID_WIDTH)) /\
  voidGrid (cap_grid c) r' noTrailShape /\
  rd (cap_grid c) (L.1 + L.2 * GRID_WIDTH) = Some CELL_WALL.
Proof.
  intros Hg Hr Hd Hp Hfar c seeds copy1 r'.
  destruct (sides_ok r L d Hr Hd Hp Hfar) as [HrA HrB].
  destruct (sides_seeds r L d Hr Hd Hp Hfar) as [HsA HsB]. fold seeds in HsA, HsB.
  pose proof (firstSide_in r L d Hr Hd Hp Hfar) as HA.
  pose proof (secondSide_in r L d Hr Hd Hp Hfar) as HB.
  pose proof (sides_line r L d Hr Hd Hp Hfar) as Hline.
  destruct (landing_line r L d Hr Hd Hp Hfar) as [HLr HLt].
  assert (forall x y, isInPlayArea x y = true ->
            inGrid x y = true /\ PLAY_AREA_LEFT - 1 <= x) as Hplay.
  { intros x y Hxy. apply isInPlayArea_spec in Hxy. rewrite inGrid_spec. rect_lia. }
  (* what the grid holds *)
  assert (forall x y, inRect r x y -> ~ onTrail (ray L d true) x y ->
            rd g0 (x + y * GRID_WIDTH) = Some CELL_EMPTY) as Hg_empty.
  { intros x y Hxy Ht. by apply (Hg x y (inRect_inGrid r x y Hr Hxy)). }
  assert (forall x y, isInPlayArea x y = true ->
            ~ inRect (firstSide r L d) x y -> ~ inRect (secondSide r L d) x y ->
            rd g0 (x + y * GRID_WIDTH) <> Some CELL_EMPTY) as Hg_not.
  { intros x y Hxy HnA HnB. destruct (Hplay x y Hxy) as [Hin Hx].
    destruct (Hg x y Hin) as (_ & H2 & H3 & _).
    destruct (decide (inRect r x y)) as [Hin'|Hout].
    - rewrite H3; [done|done|by apply Hline].
    - by rewrite H2. }
  (* the first fill *)
  destruct (fill_rect g0 (firstSide r L d) seeds.1.1 seeds.1.2 5 es) as [HcA HcA'];
    [done|done|done| | |].
  { intros x y Hxy. destruct (HA x y Hxy) as (Hin & Ht & _). by apply Hg_empty. }
  { intros x y Hxy HnA Hadj. apply Hg_not; [done|done|].
    intros HB'. clear - Hadj HB' Hd Hr Hp. destruct Hd as [-> | [-> | [-> | ->] ] ]; side_lia. }
  fold copy1 in HcA, HcA'.
  (* the second fill *)
  assert (cap_gridCopy c = (floodFill seeds.2.1 seeds.2.2 6 copy1 es).2) as Hcopy.
  { unfold c. rewrite capture_parts. reflexivity. }
  destruct (fill_rect copy1 (secondSide r L d) seeds.2.1 seeds.2.2 6 es) as [HcB HcB'];
    [done|done|done| | |].
  { intros x y Hxy. destruct (HB x y Hxy) as (Hin & Ht & HnA).
    rewrite HcA' by (first [done|exact (inRect_inGrid r _ _ Hr Hin)]). by apply Hg_empty. }
  { intros x y Hxy HnB _. destruct (Hplay x y Hxy) as [Hin Hx].
    destruct (decide (inRect (firstSide r L d) x y)) as [HinA|HnA].
    - by rewrite HcA.
    - rewrite HcA' by done. by apply Hg_not. }
  rewrite <- Hcopy in HcB, HcB'.
  assert (rd (cap_grid c) (L.1 + L.2 * GRID_WIDTH) = Some CELL_WALL) as HL.
  { unfold c. rewrite capture_parts. cbn [cap_grid]. apply rd_wr_eq. }
  split_and!; [done|done|done|done| |done].
  (* the commit *)
  intros x y Hin.
  destruct (decide (x = L.1 /\ y = L.2)) as [[-> ->]|HnL].
  { rewrite HL.
    assert (~ inRect r' L.1 L.2) as HnL.
    { unfold r'. intros Hin'. destruct (_ >=? _).
      - by destruct (HA _ _ Hin') as (_ & Ht & _).
      - by destruct (HB _ _ Hin') as (_ & Ht & _). }
    split_and!; [rect_lia|done|done|done]. }
  assert (x + y * GRID_WIDTH <> L.1 + L.2 * GRID_WIDTH) as Hne.
  { intros E. apply inGrid_index_inj in E; [tauto|done|exact (inRect_inGrid r _ _ Hr HLr)]. }
  pose proof (capture_cell g0 d L.1 L.2 es (x + y * GRID_WIDTH)) as Hcell.
  cbv zeta in Hcell. fold c in Hcell. specialize (Hcell Hne).
  rewrite decide_True in Hcell by by apply inGrid_index.
  rewrite Hcell, committed_values. clear Hcell.
  destruct (Hg x y Hin) as (H1 & H2 & H3 & H4).
  assert (chooseFill (cap_fill1 c) (cap_fill2 c) =
          if cap_fill1 c >=? cap_fill2 c then (6, 5) else (5, 6)) as -> by reflexivity.
  assert (Some CELL_EMPTY <> Some CELL_TRAIL /\ Some CELL_WALL <> Some CELL_TRAIL /\
          Some CELL_EMPTY <> Some 5 /\ Some CELL_EMPTY <> Some 6 /\
          Some CELL_WALL <> Some 5 /\ Some CELL_WALL <> Some 6 /\
          Some 5 <> Some 6 /\ Some 6 <> Some 5)
    as (N1 & N2 & N3 & N4 & N5 & N6 & N7 & N8) by (split_and!; discriminate).
  destruct (decide (inRect (firstSide r L d) x y)) as [HinA|HnA];
    [|destruct (decide (inRect (secondSide r L d) x y)) as [HinB|HnB]].
  - (* a cell of the first side *)
    destruct (HA x y HinA) as (Hin' & Ht & HnB).
    rewrite (H4 Hin' Ht), (HcB' x y Hin HnB), (HcA x y HinA).
    unfold r'. destruct (cap_fill1 c >=? cap_fill2 c); cbn [fst snd];
      rewrite ?bool_decide_eq_false_2, ?bool_decide_eq_true_2 by done;
      (split_and!; [rect_lia|intros; tauto|intros _ []|done]).
  - (* a cell of the second side *)
    destruct (HB x y HinB) as (Hin' & Ht & _).
    rewrite (H4 Hin' Ht), (HcB x y HinB).
    unfold r'. destruct (cap_fill1 c >=? cap_fill2 c); cbn [fst snd];
      rewrite ?bool_decide_eq_false_2, ?bool_decide_eq_true_2 by done;
      (split_and!; [rect_lia|intros; tauto|intros _ []|done]).
  - (* any other cell *)
    rewrite (HcB' x y Hin HnB), (HcA' x y Hin HnA).
    assert (~ inRect r' x y) as Hnr' by (unfold r'; by destruct (_ >=? _)).
    destruct (Z.lt_ge_cases x (PLAY_AREA_LEFT - 1)) as [Hx|Hx].
    + rewrite (H1 Hx).
      destruct (cap_fill1 c >=? cap_fill2 c); cbn [fst snd];
        rewrite ?bool_decide_eq_false_2 by done;
        (split_and!; [done|intros; lia|intros _ []|done]).
    + assert (rd g0 (x + y * GRID_WIDTH) = Some CELL_WALL \/
              rd g0 (x + y * GRID_WIDTH) = Some CELL_TRAIL) as [E|E].
      { destruct (decide (inRect r x y)) as [Hin'|Hout].
        - right. apply H3; [done|]. by apply Hline.
        - left. by apply H2. }
      * rewrite E.
        destruct (cap_fill1 c >=? cap_fill2 c); cbn [fst snd];
          rewrite ?bool_decide_eq_false_2 by done;
          (split_and!; [intros; lia|done|intros _ []|done]).
      * rewrite E. rewrite bool_decide_eq_true_2 by done.
        split_and!; [intros; lia|done|intros _ []|done].
Qed.

(** *** The seeds of such a capture *)



(** *** One tick on such a grid *)

Lemma unitSpeed_axis_inv d : unitSpeed d -> axisSpeed d.
Proof. unfold axisSpeed, unitSpeed, PLAYER_SPEED. tauto. Qed.

Lemma stage_step g r p d marked :
  voidGrid g r (ray p d marked) -> rectOK r -> unitSpeed d -> interior r p ->
  let L := (p.1 + d.1, p.2 + d.2) in
  rd g (L.1 + L.2 * GRID_WIDTH) = Some CELL_EMPTY /\
  checkedSpeed g onStage p d = d /\
  clampPlayer L = L /\
  voidGrid (markPrev (wr g (L.1 + L.2 * GRID_WIDTH) CELL_TRAIL) L d) r (ray L d true) /\
  (wallAround g L.1 L.2 = false -> interior r L) /\
  (wallAround g L.1 L.2 = true -> ~ inRect r (L.1 + d.1) (L.2 + d.2)).
Proof.
  intros Hg Hr Hd Hp L.
  destruct (interior_step r p d Hd Hp) as (HL & _ & _).
  assert (inBox L) as HLb by (subst L; rect_lia).
  assert (rd g (L.1 + L.2 * GRID_WIDTH) = Some CELL_EMPTY) as HE.
  { apply (Hg _ _ (inRect_inGrid r _ _ Hr HL)); [done|].
    subst L. clear - Hd. destruct Hd as [-> | [-> | [-> | ->] ] ];
      cbn [onTrail fst snd]; destruct marked; lia. }
  split_and!.
  - exact HE.
  - unfold checkedSpeed. cbn [isOnStage]. subst L. cbn [fst snd] in HE. rewrite HE.
    by rewrite bool_decide_eq_false_2.
  - by apply clampPlayer_id.
  - by apply (trail_extend g r p d marked).
  - intros Hw. by apply (no_wall_interior g r (ray p d marked)).
  - intros Hw Hin.
    assert (interior r L) as Hint.
    { subst L. clear - Hd Hp Hin. destruct Hd as [-> | [-> | [-> | ->] ] ]; rect_lia. }
    by rewrite (wallAround_interior g r _ L Hg Hint) in Hw.
Qed.

Lemma checkedSpeed_onWall_cases g q s :
  checkedSpeed g onWall q s = (0, 0) \/
  (checkedSpeed g onWall q s = s /\ inBox (q.1 + s.1, q.2 + s.2)).
Proof.
  unfold checkedSpeed. cbn [isOnStage].
  destruct (_ || _) eqn:Hb; [by left|].
  rewrite !orb_false_iff, !Z.ltb_ge in Hb.
  assert (inBox (q.1 + s.1, q.2 + s.2)) by rect_lia.
  destruct (bool_decide _); [destruct (negb _)|]; auto.
Qed.

(** *** The invariant of play *)

(** The void is a rectangle of the play area, everything else right of
    column 11 is WALL; on the wall the player has a WALL cell in its 3 x 3
    block, on stage it is strictly inside the void and the trail is the
    straight line behind it. *)
Definition RectInv (w : World) : Prop :=
  exists r, rectOK r /\
    match playerState w with
    | onWall =>
        axisSpeed (playerSpeed w) /\ inBox (playerPos w) /\
        voidGrid (gridRef w) r noTrailShape /\
        wallAround (gridRef w) (playerPos w).1 (playerPos w).2 = true
    | onStage =>
        unitSpeed (playerSpeed w) /\ interior r (playerPos w) /\
        exists marked, voidGrid (gridRef w) r (ray (playerPos w) (playerSpeed w) marked)
    end.

Definition fullRect : Rect :=
  mkRect PLAY_AREA_LEFT (PLAY_AREA_RIGHT - 1) PLAY_AREA_TOP (PLAY_AREA_BOTTOM - 1).

Lemma createInitialGrid_void : voidGrid createInitialGrid fullRect noTrailShape.
Proof.
  intros x y Hin. rewrite createInitialGrid_rd.
  rewrite decide_True by by apply inGrid_index.
  apply inGrid_spec in Hin.
  assert ((x + y * GRID_WIDTH) mod GRID_WIDTH = x) as ->.
  { rewrite Z.mod_add by done. apply Z.mod_small. tauto. }
  assert ((x + y * GRID_WIDTH) / GRID_WIDTH = y) as ->.
  { rewrite Z.div_add by done. rewrite Z.div_small by tauto. lia. }
  destruct (onBorder x y) eqn:E; unfold onBorder in E.
  - rewrite !andb_true_iff, !orb_true_iff, !Z.leb_le, !Z.eqb_eq in E.
    unfold fullRect. split_and!; intros; first [done|exfalso; rect_lia].
  - assert (x < PLAY_AREA_LEFT - 1 \/ inRect fullRect x y) as Hc.
    { rewrite !andb_false_iff, !orb_false_iff, !Z.leb_gt, !Z.eqb_neq in E.
      unfold fullRect. rect_lia. }
    unfold fullRect in *. split_and!; intros; first [done|exfalso; rect_lia].
Qed.

Lemma fresh_rect w :
  gridRef w = createInitialGrid -> playerPos w = playerStart ->
  playerSpeed w = (0, 0) -> playerState w = onWall -> RectInv w.
Proof.
  intros Hg Hp Hs Hst. exists fullRect. rewrite Hst, Hg, Hp, Hs. split_and!.
  - unfold fullRect. rect_lia.
  - by left.
  - unfold playerStart. rect_lia.
  - apply createInitialGrid_void.
  - vm_compute. reflexivity.
Qed.

Lemma handlePlayerDeath_rect random w :
  status (gameState (handlePlayerDeath random w)) = playing ->
  RectInv (handlePlayerDeath random w).
Proof.
  unfold handlePlayerDeath. cbv zeta. destruct (_ <? 0); [discriminate|].
  intros _. by apply fresh_rect.
Qed.

Lemma playerPhase_rect w :
  RectInv w ->
  (playerPhase w).1 <> PlayerHitTrail /\
  (status (gameState (playerPhase w).2) = playing -> RectInv (playerPhase w).2).
Proof.
  intros (r & Hr & H). unfold playerPhase.
  destruct (playerState w) eqn:Hst; cbn [isOnStage andb].
  - (* on the wall *)
    destruct H as (Hax & Hbox & Hg & Hw).
    pose proof (checkedSpeed_axis (gridRef w) onWall (playerPos w) (playerSpeed w) Hax) as Hax'.
    pose proof (checkedSpeed_onWall_cases (gridRef w) (playerPos w) (playerSpeed w)) as Hcs.
    set (speed := checkedSpeed (gridRef w) onWall (playerPos w) (playerSpeed w)) in *.
    pose proof (clampPlayer_inBox ((playerPos w).1 + speed.1, (playerPos w).2 + speed.2)) as Hb'.
    set (pos := clampPlayer _) in *.
    destruct (wallAround (gridRef w) pos.1 pos.2) eqn:Hwd; cbn [negb andb].
    { split; [done|]. intros _. exists r. split; [done|]. cbn. by split_and!. }
    destruct (negb (speed.1 =? 0) || negb (speed.2 =? 0)) eqn:Hmv.
    + split; [done|]. intros _. exists r. split; [done|]. cbn.
      assert (speed <> (0, 0)) as Hne.
      { intros E. rewrite E in Hmv. discriminate. }
      destruct Hcs as [E|[E Hin] ]; [done|].
      assert (pos = ((playerPos w).1 + speed.1, (playerPos w).2 + speed.2)) as Hpos.
      { unfold pos. apply clampPlayer_id. by rewrite E. }
      pose proof (unitSpeed_axis speed Hax' Hne) as Hd.
      pose proof (no_wall_interior _ r _ pos Hg Hr Hb' Hwd) as Hint.
      split_and!; [done|done|]. exists false.
      by apply (trail_start (gridRef w) r (playerPos w) speed pos).
    + exfalso. apply orb_false_iff in Hmv as [H1 H2].
      apply negb_false_iff, Z.eqb_eq in H1, H2.
      assert (pos = playerPos w) as Hpos.
      { unfold pos. rewrite H1, H2, !Z.add_0_r, <- surjective_pairing.
        by apply clampPlayer_id. }
      rewrite Hpos in Hwd. congruence.
  - (* on stage *)
    destruct H as (Hd & Hp & marked & Hg).
    destruct (stage_step _ r _ _ marked Hg Hr Hd Hp) as (HE & Hcs & Hcl & Hg' & Hin & Hfar).
    cbv zeta in HE, Hcl, Hg', Hin, Hfar. cbn [fst snd] in HE.
    rewrite HE, Hcs, Hcl.
    rewrite bool_decide_eq_false_2 by done.
    set (L := ((playerPos w).1 + (playerSpeed w).1, (playerPos w).2 + (playerSpeed w).2)) in *.
    destruct (wallAround (gridRef w) L.1 L.2) eqn:Hwd.
    + (* closure *)
      match goal with |- context [capture ?g ?s ?x ?y ?e] => set (c := capture g s x y e) end.
      destruct (destroyCaught _ _) as [destroyedCount survivingEnemies].
      destruct (WIN_PERCENTAGE <=? _); cbn [fst snd advanceLevel gameState status].
      { split; [done|discriminate]. }
      split; [done|]. intros _.
      assert (interior r (L.1 - (playerSpeed w).1, L.2 - (playerSpeed w).2)) as Hp'.
      { unfold L. cbn [fst snd]. clear - Hp. rect_lia. }
      destruct (capture_rect _ r L (playerSpeed w)
                  ((fun e => (e_x e, e_y e)) <$> enemies w) Hg' Hr Hd Hp' (Hfar eq_refl))
        as (_ & _ & _ & _ & Hvoid & HLw).
      fold c in Hvoid, HLw.
      destruct (sides_ok r L (playerSpeed w) Hr Hd Hp' (Hfar eq_refl)) as [HrA HrB].
      destruct (interior_step r _ _ Hd Hp) as (HLr & _ & _). fold L in HLr.
      pose proof (sidestep_near (cap_grid c) (playerSpeed w) L.1 L.2 L) as Hnear.
      cbv zeta in Hnear.
      set (pos := sidestep (cap_grid c) (playerSpeed w) L.1 L.2 L) in *.
      exists (if cap_fill1 c >=? cap_fill2 c then firstSide r L (playerSpeed w)
              else secondSide r L (playerSpeed w)).
      split; [by destruct (_ >=? _)|]. cbn.
      split_and!.
      * by apply unitSpeed_axis_inv.
      * clear - Hnear HLr Hr. unfold L in Hnear. rect_lia.
      * exact Hvoid.
      * apply wallAround_iff. exists (L.1 - pos.1), (L.2 - pos.2).
        replace (pos.1 + (L.1 - pos.1)) with L.1 by lia.
        replace (pos.2 + (L.2 - pos.2)) with L.2 by lia.
        split_and!; [lia|lia|lia|lia|exact (inRect_inGrid r _ _ Hr HLr)|exact HLw].
    + (* one more cell of trail *)
      split; [done|]. intros _. exists r. split; [done|]. cbn.
      split_and!; [done|by apply Hin|by exists true].
Qed.

Lemma processInput_rect pressedKeys w es tick :
  RectInv w ->
  RectInv (mkWorld (gridRef w) (playerPos w)
             (processInput pressedKeys (playerState w) (playerSpeed w))
             (playerState w) es (gameState w) tick).
Proof.
  intros (r & Hr & H). exists r. split; [done|].
  cbn [playerState playerSpeed gridRef playerPos].
  destruct (playerState w) eqn:Hst.
  - destruct H as (Hax & H). split; [by apply processInput_axis|done].
  - rewrite processInput_cases. exact H.
Qed.

Lemma gameLoop_rect pressedKeys random w :
  (status (gameState w) = playing -> RectInv w) ->
  status (gameState (gameLoop pressedKeys random w)) = playing ->
  RectInv (gameLoop pressedKeys random w).
Proof.
  intros Hinv. unfold gameLoop, gameLoopE.
  destruct (isPlaying (status (gameState w))) eqn:Hs; cbn [negb].
  2:{ cbn [snd]. exact Hinv. }
  assert (status (gameState w) = playing) as Hp by (by destruct (status (gameState w))).
  specialize (Hinv Hp).
  destruct (if _ mod 2 =? 0 then _ else _) as [hit es].
  pose proof (processInput_rect pressedKeys w es (tickCount w + 1) Hinv) as H1.
  destruct hit; [apply handlePlayerDeath_rect|].
  destruct (playerPhase_rect _ H1) as [Hne Hstep].
  destruct (playerPhase _) as [ev w2]. cbn [fst snd] in Hne, Hstep.
  destruct ev; first [exact Hstep|done].
Qed.

(** In every state of a game that is being played the void is a rectangle
    and the trail a straight line behind the player. *)
Lemma reachable_rect w : reachable w -> status (gameState w) = playing -> RectInv w.
Proof.
  induction 1 as [random|pressedKeys random w Hw IH|random w Hw IH|random w Hw IH Hdead].
  - intros _. by apply fresh_rect.
  - by apply gameLoop_rect.
  - intros _. by apply fresh_rect.
  - intros _. by apply fresh_rect.
Qed.

(** *** The closures of a game *)

Lemma closure_playing pressedKeys random w win :
  closureWin (gameLoopE pressedKeys random w).1 = Some win ->
  status (gameState w) = playing.
Proof.
  unfold gameLoopE.
  destruct (status (gameState w)); cbn [isPlaying negb fst closureWin];
    intros H; first [discriminate H|reflexivity].
Qed.

Lemma playerPhase_closure_stage w c win :
  (playerPhase w).1 = Closure c win ->
  let speed := checkedSpeed (gridRef w) (playerState w) (playerPos w) (playerSpeed w) in
  let pos := clampPlayer ((playerPos w).1 + speed.1, (playerPos w).2 + speed.2) in
  playerState w = onStage /\ wallAround (gridRef w) pos.1 pos.2 = true.
Proof.
  unfold playerPhase.
  destruct (isOnStage (playerState w) && _); [discriminate|].
  destruct (playerState w); cbn [isOnStage].
  - destruct (negb _ && _); discriminate.
  - destruct (wallAround _ _ _); [|discriminate]. intros _. by split.
Qed.

(** The grid the capture of a tick is given: the grid of the tick start
    with the landing cell and the cell before it on the trail. *)
Definition closureGrid (pressedKeys : Z -> bool) (w : World) : gmap Z Z :=
  let speed := checkedSpeed (gridRef w) (playerState w) (playerPos w)
                 (processInput pressedKeys (playerState w) (playerSpeed w)) in
  let pos := clampPlayer ((playerPos w).1 + speed.1, (playerPos w).2 + speed.2) in
  markPrev (wr (gridRef w) (pos.1 + pos.2 * GRID_WIDTH) CELL_TRAIL) pos speed.

(** Every closure of a game: the player was on stage strictly inside the
    rectangle of void, moves one cell on and lands on a cell of the
    rectangle whose next cell is outside; the capture is given the grid
    with the full line of trail. *)
Lemma closure_shape pressedKeys random w win :
  reachable w ->
  closureWin (gameLoopE pressedKeys random w).1 = Some win ->
  let d := playerSpeed w in
  let L := ((playerPos w).1 + d.1, (playerPos w).2 + d.2) in
  exists r,
    rectOK r /\ unitSpeed d /\ interior r (playerPos w) /\
    ~ inRect r (L.1 + d.1) (L.2 + d.2) /\
    voidGrid (closureGrid pressedKeys w) r (ray L d true) /\
    closureCapture pressedKeys w =
      capture (closureGrid pressedKeys w) d L.1 L.2
        ((fun e => (e_x e, e_y e)) <$> movedEnemies w) /\
    gridRef (gameLoop pressedKeys random w) = cap_grid (closureCapture pressedKeys w).
Proof.
  intros Hw Hev d L.
  pose proof (closure_playing _ _ _ _ Hev) as Hs.
  destruct (reachable_rect w Hw Hs) as (r & Hr & H).
  pose proof (closure_event _ _ _ _ Hev) as Hc.
  destruct (gameLoopE_closure _ _ _ _ _ Hc) as [Hp Hgl]. cbv zeta in Hp, Hgl.
  destruct (playerPhase_closure_stage _ _ _ Hp) as [Hst Hwd].
  destruct (playerPhase_closure_inv _ _ _ Hp) as (_ & Hgrid & _).
  rewrite <- Hgl in Hgrid. clear Hp Hgl Hc.
  cbn [gridRef playerPos playerSpeed playerState] in Hst, Hwd.
  rewrite Hst in H. destruct H as (Hd & Hint & marked & Hg).
  destruct (stage_step _ r _ _ marked Hg Hr Hd Hint) as (_ & Hcs & Hcl & Hg' & _ & Hfar).
  cbv zeta in Hcl, Hg', Hfar. fold d in Hcs, Hcl, Hg', Hfar. fold L in Hcl, Hg', Hfar.
  assert (checkedSpeed (gridRef w) (playerState w) (playerPos w)
            (processInput pressedKeys (playerState w) (playerSpeed w)) = d) as Hspeed.
  { rewrite Hst, processInput_cases. exact Hcs. }
  rewrite Hspeed in Hwd. fold L in Hwd. rewrite Hcl in Hwd.
  assert (closureGrid pressedKeys w =
          markPrev (wr (gridRef w) (L.1 + L.2 * GRID_WIDTH) CELL_TRAIL) L d) as HG.
  { unfold closureGrid. cbv zeta. rewrite Hspeed. fold L. by rewrite Hcl. }
  exists r. split_and!; [done|done|done|by apply Hfar|by rewrite HG| |done].
  rewrite HG. unfold closureCapture. cbv zeta. rewrite Hspeed. fold L. by rewrite Hcl.
Qed.


(** ** Concrete games *)

(** A grid given cell by cell. *)
Definition gridOfCells (f : Z -> Z -> Z) : gmap Z Z :=
  for_range 0 (GRID_WIDTH * GRID_HEIGHT)
    (fun i g => wr g i (f (i mod GRID_WIDTH) (i / GRID_WIDTH))) ∅.

(** Key states: nothing pressed, or one arrow key held. *)
Definition noKeys : Z -> bool := fun _ => false.
Definition keyLeft : Z -> bool := fun k => k =? 37.
Definition keyUp : Z -> bool := fun k => k =? 38.
Definition keyRight : Z -> bool := fun k => k =? 39.
Definition keyDown : Z -> bool := fun k => k =? 40.

(** [Math.random] returning the same double at every call. *)
Definition constRandom (r : spec_float) : nat -> spec_float := fun _ => r.
Definition zeroR : nat -> spec_float := constRandom (S754_zero false).

(** Ticks in a row, under the given key states. *)
Definition run (random : nat -> spec_float) (keys : list (Z -> bool)) (w : World) : World :=
  foldl (fun w k => gameLoop k random w) w keys.

(** The position and velocity of the enemies. *)
Definition enemyView (w : World) : list (Z * Z * Z * Z) :=
  (fun e => (e_x e, e_y e, e_vx e, e_vy e)) <$> enemies w.

(** Game 1: Up held from the mount state.  The player walks up column 48;
    after 45 ticks it stands on (48, 2) with the trail behind it, and the
    next tick lands on (48, 1), beside the top border. *)
Definition game1 : World := run zeroR (replicate 45 keyUp) (initialWorld zeroR).

(** Game 2: Left held for 20 ticks along the bottom border, then Up for 45:
    the same walk up column 28. *)
Definition game2 : World :=
  run zeroR (replicate 20 keyLeft ++ replicate 45 keyUp) (initialWorld zeroR).

(** Game 3: the closure of game 2 wins the level; the timer starts level
    two with two enemies, placed by the random draws below, and the player
    walks up column 48 again. *)
Definition p99 : spec_float := div (number_of_Z 99) (number_of_Z 100).

Definition level2Random : nat -> spec_float := fun k =>
  if bool_decide (k ∈ [5; 8; 9; 10]%nat) then p99 else S754_zero false.

Definition game3 : World :=
  run zeroR (replicate 45 keyUp)
    (advanceLevel_timeout level2Random (gameLoop keyUp zeroR game2)).

(** Game 4: Left for 29 ticks, then Up for 38: the enemy reaches the trail
    in column 19. *)
Definition game4 : World :=
  run zeroR (replicate 29 keyLeft ++ replicate 38 keyUp) (initialWorld zeroR).

(** The first grid with column 48 of the play area on the trail. *)
Definition trailGrid : gmap Z Z :=
  for_range PLAY_AREA_TOP PLAY_AREA_BOTTOM
    (fun y g => wr g (48 + y * GRID_WIDTH) CELL_TRAIL) createInitialGrid.

(** The enemies standing on a cell of a list. *)
Definition enemiesInside (cells es : list (Z * Z)) : list (Z * Z) :=
  List.filter (fun e => bool_decide (e ∈ cells)) es.

Lemma reachable_run random keys w : reachable w -> reachable (run random keys w).
Proof.
  revert w. induction keys as [|k keys IH]; intros w Hw; [done|].
  apply IH. by constructor.
Qed.

Lemma reachable_game1 : reachable game1.
Proof. apply reachable_run. constructor. Qed.

(** C10: the count a flood fill returns is the number of pairs of a cell
    the fill has labelled and an enemy within Chebyshev distance 1 of it,
    not the number of enemies inside the region.  On the first grid with a
    single enemy on (40, 15) the fill returns 9.  With column 48 on the
    trail, one enemy on the left side and two in the corners of the right
    side, the counts are 9 and 8, and the capture takes the right side,
    the one holding two enemies. *)
Theorem C10_count_is_cell_enemy_pairs :
  (forall startX startY fillValue grid es,
     fillValue <> CELL_EMPTY ->
     let r := floodFill startX startY fillValue grid es in
     r.1 = Z.of_nat (length (nearPairs (filledCells fillValue grid r.2) es))) /\
  (let es := [(40, 15)] in
   let r := floodFill 13 1 5 createInitialGrid es in
   enemiesInside (filledCells 5 createInitialGrid r.2) es = es /\ r.1 = 9) /\
  (let es := [(40, 15); (82, 1); (82, 46)] in
   let c := capture trailGrid (0, -1) 48 1 es in
   let sideA := filledCells 5 trailGrid (cap_gridCopy c) in
   let sideB := filledCells 6 trailGrid (cap_gridCopy c) in
   enemiesInside sideA es = [(40, 15)] /\
   enemiesInside sideB es = [(82, 1); (82, 46)] /\
   cap_fill1 c = 9 /\ cap_fill2 c = 8 /\
   forallb (fun cell => cell_is (cap_grid c) (cellIndex cell) CELL_WALL) sideB = true /\
   forallb (fun cell => cell_is (cap_grid c) (cellIndex cell) CELL_EMPTY) sideA = true).
Proof.
  split; [|split].
  - intros startX startY fillValue grid es Hv. by apply floodFill_count.
  - vm_compute. split; reflexivity.
  - vm_compute. split_and!; reflexivity.
Qed.

(** C1, the claim as stated fails: in game 1 the enemy stands on the left
    of the trail; the fill of that side (label 5) counts 9, the other
    counts 0; after the tick the enemy's side is EMPTY, the other side is
    WALL, and the enemy is still there. *)
Lemma C1_counterexample_enemy_side_released :
  let c := closureCapture keyUp game1 in
  let w' := gameLoop keyUp zeroR game1 in
  closureWin (gameLoopE keyUp zeroR game1).1 = Some false /\
  (fun e => (e_x e, e_y e)) <$> movedEnemies game1 = [(17, 10)] /\
  cap_fill1 c = 9 /\ cap_fill2 c = 0 /\
  rd (cap_gridCopy c) (17 + 10 * GRID_WIDTH) = Some 5 /\
  rd (gridRef w') (17 + 10 * GRID_WIDTH) = Some CELL_EMPTY /\
  rd (cap_gridCopy c) (60 + 10 * GRID_WIDTH) = Some 6 /\
  rd (gridRef w') (60 + 10 * GRID_WIDTH) = Some CELL_WALL /\
  enemyView w' = [(17, 10, -1, 1)].
Proof. vm_compute. split_and!; reflexivity. Qed.

Lemma C1_witness_game1 :
  validCells (gridRef game1) = true /\
  (gameLoopE keyUp zeroR game1).1 = Closure (closureCapture keyUp game1) false /\
  cap_fill1 (closureCapture keyUp game1) >= cap_fill2 (closureCapture keyUp game1) /\
  (forall i, rd (cap_gridCopy (closureCapture keyUp game1)) i = Some 6 ->
     rd (gridRef (gameLoop keyUp zeroR game1)) i = Some CELL_WALL).
Proof.
  assert (validCells (gridRef game1) = true) as Hv by (vm_compute; reflexivity).
  assert ((gameLoopE keyUp zeroR game1).1 = Closure (closureCapture keyUp game1) false)
    as Hev by (apply closure_event; vm_compute; reflexivity).
  assert (cap_fill1 (closureCapture keyUp game1) >= cap_fill2 (closureCapture keyUp game1))
    as Hge by (vm_compute; discriminate).
  split_and!; [exact Hv|exact Hev|exact Hge|].
  pose proof (C1_side_with_fewer_enemies_is_filled keyUp zeroR game1 _ false Hv Hev) as H.
  cbv beta zeta in H. destruct H as (H & _). destruct (H Hge) as [HB _]. exact HB.
Defined.

(** C2, the claim as stated fails: in game 3 both fills count 9; the side
    of the second seed, (49, 1), right of the landing cell, becomes WALL,
    and the side of the first seed, (47, 1), is left EMPTY. *)
Lemma C2_counterexample_tie_fills_side_B :
  let c := closureCapture keyUp game3 in
  let w' := gameLoop keyUp zeroR game3 in
  closureWin (gameLoopE keyUp zeroR game3).1 = Some false /\
  (fun e => (e_x e, e_y e)) <$> movedEnemies game3 = [(26, 18); (68, 18)] /\
  playerSpeed w' = (0, -1) /\
  cap_landing c = (48, 1) /\ cap_seeds c = ((47, 1), (49, 1)) /\
  cap_fill1 c = 9 /\ cap_fill2 c = 9 /\
  rd (cap_gridCopy c) (47 + 1 * GRID_WIDTH) = Some 5 /\
  rd (gridRef w') (47 + 1 * GRID_WIDTH) = Some CELL_EMPTY /\
  rd (cap_gridCopy c) (49 + 1 * GRID_WIDTH) = Some 6 /\
  rd (gridRef w') (49 + 1 * GRID_WIDTH) = Some CELL_WALL /\
  enemyView w' = [(26, 18, 1, -1)].
Proof. vm_compute. split_and!; reflexivity. Qed.

Lemma C2_witness_game3 :
  validCells (gridRef game3) = true /\
  (gameLoopE keyUp zeroR game3).1 = Closure (closureCapture keyUp game3) false /\
  cap_fill1 (closureCapture keyUp game3) = cap_fill2 (closureCapture keyUp game3) /\
  (forall i, rd (cap_gridCopy (closureCapture keyUp game3)) i = Some 5 ->
     rd (gridRef (gameLoop keyUp zeroR game3)) i = Some CELL_EMPTY).
Proof.
  assert (validCells (gridRef game3) = true) as Hv by (vm_compute; reflexivity).
  assert ((gameLoopE keyUp zeroR game3).1 = Closure (closureCapture keyUp game3) false)
    as Hev by (apply closure_event; vm_compute; reflexivity).
  assert (cap_fill1 (closureCapture keyUp game3) = cap_fill2 (closureCapture keyUp game3))
    as Htie by (vm_compute; reflexivity).
  split_and!; [exact Hv|exact Hev|exact Htie|].
  pose proof (C2_tie_fills_second_seed_side keyUp zeroR game3 _ false Hv Hev Htie) as H.
  cbv beta zeta in H. destruct (cap_landing _) as [cx cy].
  destruct H as (_ & _ & HA). exact HA.
Defined.


Lemma C4_witness_game1 :
  reachable game1 /\
  isDeath (gameLoopE keyUp zeroR game1).1 = false /\
  calculatePercentage (gridRef game1)
    <= calculatePercentage (gridRef (gameLoop keyUp zeroR game1)).
Proof.
  assert (isDeath (gameLoopE keyUp zeroR game1).1 = false) as Hev
    by (vm_compute; reflexivity).
  split_and!; [exact reachable_game1|exact Hev|].
  exact (proj2 (C4_percentage_never_decreases keyUp zeroR game1 reachable_game1 Hev)).
Defined.

(** C6, the claim as stated fails: below the grid the read of the player's
    next cell yields no value, and the move is stopped by the bounds test
    that follows it; right of the grid the read lands on a cell of the next
    row, here an EMPTY one. *)
Lemma C6_counterexample_outside_read :
  inGrid 48 48 = false /\
  rd createInitialGrid (48 + 48 * GRID_WIDTH) = None /\
  checkedSpeed createInitialGrid onWall (48, 47) (0, 1) = (0, 0) /\
  inGrid 84 20 = false /\
  rd createInitialGrid (84 + 20 * GRID_WIDTH) = Some CELL_EMPTY /\
  84 + 20 * GRID_WIDTH = 0 + 21 * GRID_WIDTH.
Proof. vm_compute. split_and!; reflexivity. Qed.

Lemma C6_witness_below_grid :
  withinArray createInitialGrid = true /\
  inGrid 48 48 = false /\
  isOnWall 48 48 createInitialGrid = true /\
  checkedSpeed createInitialGrid onWall (48, 47) (0, 1) = (0, 0).
Proof.
  assert (withinArray createInitialGrid = true) as Hw by (vm_compute; reflexivity).
  assert (inGrid 48 48 = false) as Hout by (vm_compute; reflexivity).
  pose proof (C6_outside_reads createInitialGrid 48 48 Hw Hout) as (H1 & _ & H3 & _).
  split_and!; [exact Hw|exact Hout|exact H1|].
  by apply H3.
Defined.

Lemma C7_witness_game4 :
  deathDue game4 = true /\
  isDeath (gameLoopE keyUp zeroR game4).1 = true /\
  lives (gameState (gameLoop keyUp zeroR game4)) = lives (gameState game4) - 1.
Proof.
  assert (deathDue game4 = true) as Hd by (vm_compute; reflexivity).
  split; [exact Hd|].
  destruct (C7_death_short_circuits keyUp zeroR game4 Hd) as (ev & es & Hev & Heq & _).
  unfold gameLoop. rewrite Heq. split; [exact Hev|].
  vm_compute. reflexivity.
Defined.

(** C9, the claim as stated fails: the closure of game 2 brings the
    captured percentage to 78; the tick ends with the player in mode
    onStage and the level announced. *)
Lemma C9_counterexample_winning_closure :
  let w' := gameLoop keyUp zeroR game2 in
  closureWin (gameLoopE keyUp zeroR game2).1 = Some true /\
  calculatePercentage (gridRef w') = 78 /\
  playerState w' = onStage /\
  status (gameState w') = levelAnnounce.
Proof. vm_compute. split_and!; reflexivity. Qed.

Lemma C9_witness_game1 :
  (gameLoopE keyUp zeroR game1).1 = Closure (closureCapture keyUp game1) false /\
  playerState (gameLoop keyUp zeroR game1) = onWall.
Proof.
  assert ((gameLoopE keyUp zeroR game1).1 = Closure (closureCapture keyUp game1) false)
    as Hev by (apply closure_event; vm_compute; reflexivity).
  split; [exact Hev|].
  pose proof (C9_mode_after_closure keyUp zeroR game1 _ false Hev) as H.
  cbv beta zeta in H. destruct H as (_ & H & _). exact H.
Defined.

(** * Further properties of the game *)

(** ** The flood fill *)

(** X1: the fill labels exactly the connected component of its seed: every
    EMPTY play-area cell joined to the seed through EMPTY play-area cells
    (by steps left, right, up and down) holds the label afterwards, and
    every other index of the array keeps what it held. *)
Theorem floodFill_fills_component startX startY fillValue grid es :
  fillValue <> CELL_EMPTY ->
  let g' := (floodFill startX startY fillValue grid es).2 in
  (forall c, connected grid (startX, startY) c -> rd g' (cellIndex c) = Some fillValue) /\
  (forall i, (forall c, connected grid (startX, startY) c -> i <> cellIndex c) ->
             rd g' i = rd grid i).
Proof. apply floodFill_component. Qed.


(** X2: the loop of the fill always ends: within [FILL_FUEL] iterations
    the stack is empty, whatever the grid, the seed, the label and the
    enemies; [floodFill] returns the count and the array of that state. *)
Theorem floodFill_always_returns startX startY fillValue grid es :
  exists st,
    floodFill_run startX startY fillValue grid es = Some st /\
    fs_stack st = [] /\
    floodFill startX startY fillValue grid es = (fs_count st, fs_grid st).
Proof.
  destruct (floodFill_inv_final (fun _ => True) startX startY fillValue grid es)
    as (st & Hrun & Hres & _ & Hnil); [done|done|].
  by exists st.
Qed.

(** X3: a seed outside the play area, or on a cell that is not EMPTY,
    makes the fill do nothing: it returns 0 and the array is untouched. *)
Theorem floodFill_blocked_seed startX startY fillValue grid es :
  isInPlayArea startX startY = false \/
  rd grid (startX + startY * GRID_WIDTH) <> Some CELL_EMPTY ->
  floodFill startX startY fillValue grid es = (0, grid).
Proof.
  intros H. apply floodFill_blocked. apply andb_false_iff.
  destruct H as [H|H]; [by left|right; by apply cell_is_false].
Qed.

(** ** The first grid *)

(** X4: the first grid has exactly the cells 0 .. 4031; its WALL cells are
    the border rectangle (rows 0 and 47 from column 12 to 83, columns 12
    and 83) and every other cell is EMPTY: the whole play area, and also
    the twelve columns left of the border. *)
Theorem createInitialGrid_cells :
  (forall x y, inGrid x y = true ->
     rd createInitialGrid (x + y * GRID_WIDTH) =
       Some (if onBorder x y then CELL_WALL else CELL_EMPTY)) /\
  (forall i, ~ 0 <= i < GRID_WIDTH * GRID_HEIGHT -> rd createInitialGrid i = None) /\
  (forall x y, isInPlayArea x y = true ->
     rd createInitialGrid (x + y * GRID_WIDTH) = Some CELL_EMPTY).
Proof.
  assert (forall x y, inGrid x y = true ->
            rd createInitialGrid (x + y * GRID_WIDTH) =
              Some (if onBorder x y then CELL_WALL else CELL_EMPTY)) as Hin.
  { intros x y Hxy. rewrite createInitialGrid_rd.
    pose proof (inGrid_index x y Hxy) as Hi.
    unfold inGrid in Hxy. rewrite !andb_true_iff, !Z.leb_le, !Z.ltb_lt in Hxy.
    rewrite decide_True by done.
    rewrite Z.mod_add, Z.div_add, Z.mod_small, Z.div_small by (unfold GRID_WIDTH in *; lia).
    reflexivity. }
  split_and!.
  - exact Hin.
  - intros i Hi. rewrite createInitialGrid_rd. by rewrite decide_False.
  - intros x y Hp. apply isInPlayArea_spec in Hp.
    unfold PLAY_AREA_LEFT, PLAY_AREA_RIGHT, PLAY_AREA_TOP, PLAY_AREA_BOTTOM in Hp.
    rewrite Hin.
    + assert (onBorder x y = false) as ->; [|done].
      unfold onBorder, PLAY_AREA_LEFT, PLAY_AREA_RIGHT, PLAY_AREA_BOTTOM.
      rewrite !andb_false_iff, !orb_false_iff, !Z.eqb_neq. right. lia.
    + unfold inGrid, GRID_WIDTH, GRID_HEIGHT.
      rewrite !andb_true_iff, !Z.leb_le, !Z.ltb_lt. lia.
Qed.


(** ** What every reachable state satisfies *)

(** The grid array holds a value at each index 0 .. 4031 and at no other. *)
Definition fullArray (g : gmap Z Z) : Prop :=
  forall i, is_Some (rd g i) <-> 0 <= i < GRID_WIDTH * GRID_HEIGHT.

Definition noTrail (g : gmap Z Z) : Prop :=
  forall i, rd g i <> Some CELL_TRAIL.

Record WorldInv (w : World) : Prop := {
  wi_full : fullArray (gridRef w);
  wi_valid : ValidGrid (gridRef w);
  wi_wall : playerState w = onWall -> noTrail (gridRef w);
  wi_lives : 0 <= lives (gameState w) <= 3;
  wi_level : 1 <= level (gameState w);
  wi_score : 0 <= score (gameState w);
  wi_pct : 0 <= percentage (gameState w) <= 100
}.

Lemma fullArray_wr g i v :
  fullArray g -> 0 <= i < GRID_WIDTH * GRID_HEIGHT -> fullArray (wr g i v).
Proof.
  intros Hg Hi j. destruct (rd_wr_cases g i j v) as [->|[-> ->]]; [apply Hg|].
  split; [done|by eexists].
Qed.

Lemma fullArray_markPrev g pos speed : fullArray g -> fullArray (markPrev g pos speed).
Proof.
  intros Hg. unfold markPrev. destruct (inGrid _ _) eqn:Hin; [|done].
  apply fullArray_wr; [done|]. by apply inGrid_index.
Qed.

Lemma createInitialGrid_full : fullArray createInitialGrid.
Proof.
  intros i. rewrite createInitialGrid_rd. case_decide; [|split; [by intros []|done]].
  split; [done|by eexists].
Qed.

Lemma createInitialGrid_EW i v :
  rd createInitialGrid i = Some v -> v = CELL_EMPTY \/ v = CELL_WALL.
Proof.
  rewrite createInitialGrid_rd. case_decide; [|done].
  destruct (onBorder _ _); intros [= <-]; tauto.
Qed.

Lemma createInitialGrid_valid : ValidGrid createInitialGrid.
Proof. intros i v Hi. apply createInitialGrid_EW in Hi. tauto. Qed.

Lemma createInitialGrid_noTrail : noTrail createInitialGrid.
Proof.
  intros i Hi. apply createInitialGrid_EW in Hi.
  unfold CELL_EMPTY, CELL_WALL, CELL_TRAIL in Hi. lia.
Qed.

(** After the commit the grid holds EMPTY and WALL only. *)
Lemma capture_grid_EW g speed cx cy es :
  fullArray g -> ValidGrid g -> 0 <= cx + cy * GRID_WIDTH < GRID_WIDTH * GRID_HEIGHT ->
  let c := capture g speed cx cy es in
  fullArray (cap_grid c) /\
  (forall i v, rd (cap_grid c) i = Some v -> v = CELL_EMPTY \/ v = CELL_WALL).
Proof.
  intros Hfull Hvalid Hland c.
  assert (forall i, i <> cx + cy * GRID_WIDTH -> 0 <= i < GRID_WIDTH * GRID_HEIGHT ->
            rd (cap_grid c) i = Some CELL_EMPTY \/ rd (cap_grid c) i = Some CELL_WALL)
    as Hin.
  { intros i Hne Hi. unfold c. rewrite (capture_cell g speed cx cy es i Hne).
    rewrite decide_True by done. unfold committed.
    repeat case_bool_decide; [by right|by right|by left|].
    destruct (proj2 (Hfull i) Hi) as [v Hv]. rewrite Hv.
    destruct (Hvalid i v Hv) as [->|[->| ->]]; [by left|by right|done]. }
  assert (rd (cap_grid c) (cx + cy * GRID_WIDTH) = Some CELL_WALL) as Hl.
  { unfold c. rewrite capture_parts. cbn [cap_grid]. apply rd_wr_eq. }
  assert (forall i, ~ 0 <= i < GRID_WIDTH * GRID_HEIGHT -> rd (cap_grid c) i = None) as Hout.
  { intros i Hi. unfold c. rewrite (capture_cell g speed cx cy es i) by (intros ->; done).
    rewrite decide_False by done.
    destruct (rd g i) as [v|] eqn:E; [|done]. destruct Hi. apply Hfull. by eexists. }
  split.
  - intros i. destruct (decide (0 <= i < GRID_WIDTH * GRID_HEIGHT)) as [Hi|Hi].
    + split; [done|intros _].
      destruct (decide (i = cx + cy * GRID_WIDTH)) as [->|Hne]; [by eexists|].
      destruct (Hin i Hne Hi) as [-> | ->]; by eexists.
    + rewrite (Hout i Hi). split; [by intros []|done].
  - intros i v Hv.
    destruct (decide (0 <= i < GRID_WIDTH * GRID_HEIGHT)) as [Hi|Hi];
      [|rewrite (Hout i Hi) in Hv; done].
    destruct (decide (i = cx + cy * GRID_WIDTH)) as [->|Hne].
    + rewrite Hl in Hv. injection Hv as <-. by right.
    + destruct (Hin i Hne Hi) as [E|E]; rewrite E in Hv; injection Hv as <-; tauto.
Qed.

Lemma applyFill_area_nonneg grid gridCopy fillThisValue doNotFillThisValue :
  0 <= (applyFill grid gridCopy fillThisValue doNotFillThisValue).2.
Proof.
  assert (forall idx (acc : gmap Z Z * Z), 0 <= acc.2 ->
            0 <= (applyFillCell gridCopy fillThisValue doNotFillThisValue idx acc).2)
    as Hcell.
  { intros idx [g a] Ha. unfold applyFillCell. cbn [snd] in Ha.
    destruct (cell_is g idx CELL_TRAIL); [done|].
    destruct (cell_is gridCopy idx fillThisValue); [cbn [snd]; lia|].
    by destruct (cell_is gridCopy idx doNotFillThisValue). }
  unfold applyFill.
  apply (for_range_ind (fun _ (acc : gmap Z Z * Z) => 0 <= acc.2)); [done|done|].
  intros y acc _ Hacc.
  apply (for_range_ind (fun _ (acc : gmap Z Z * Z) => 0 <= acc.2)); [done|done|].
  intros x acc' _ Hacc'. by apply Hcell.
Qed.

Lemma capture_area_nonneg g speed cx cy es :
  0 <= cap_areaCaptured (capture g speed cx cy es).
Proof. rewrite capture_parts. cbn [cap_areaCaptured]. apply applyFill_area_nonneg. Qed.

Lemma calculatePercentage_range grid : 0 <= calculatePercentage grid <= 100.
Proof.
  rewrite calculatePercentage_formula.
  pose proof (capturedCount_bounds grid) as Hb.
  change totalArea with 3220 in *. split.
  - apply Z.div_pos; lia.
  - apply Z.div_le_upper_bound; lia.
Qed.

Lemma handlePlayerDeath_inv random w : WorldInv w -> WorldInv (handlePlayerDeath random w).
Proof.
  intros [Hfull Hvalid Hwall Hlives Hlevel Hscore Hpct]. unfold handlePlayerDeath. cbv zeta.
  destruct (Z.ltb_spec (lives (gameState w) - 1) 0).
  - split; cbn [gridRef playerState gameState lives level score percentage]; done.
  - split; cbn [gridRef playerState gameState lives level score percentage].
    + apply createInitialGrid_full.
    + apply createInitialGrid_valid.
    + intros _. apply createInitialGrid_noTrail.
    + lia.
    + done.
    + done.
    + lia.
Qed.

Lemma playerPhase_inv w : WorldInv w -> WorldInv (playerPhase w).2.
Proof.
  intros [Hfull Hvalid Hwall Hlives Hlevel Hscore Hpct]. unfold playerPhase.
  destruct (isOnStage (playerState w) && _).
  { split; cbn [snd gridRef playerState gameState]; done. }
  set (speed := checkedSpeed _ _ _ _) in *.
  set (pos := clampPlayer _).
  pose proof (inGrid_clampPlayer
                ((playerPos w).1 + speed.1, (playerPos w).2 + speed.2)) as Hin.
  fold pos in Hin.
  pose proof (inGrid_index _ _ Hin) as Hidx.
  assert (fullArray (markPrev (wr (gridRef w) (pos.1 + pos.2 * GRID_WIDTH) CELL_TRAIL)
                       pos speed)) as Hfull'.
  { by apply fullArray_markPrev, fullArray_wr. }
  assert (ValidGrid (markPrev (wr (gridRef w) (pos.1 + pos.2 * GRID_WIDTH) CELL_TRAIL)
                       pos speed)) as Hvalid'.
  { apply ValidGrid_markPrev, ValidGrid_wr; [done|tauto]. }
  destruct (playerState w) eqn:Hst; cbn [isOnStage].
  - (* on the wall *)
    destruct (negb _ && _).
    + split; cbn [snd gridRef playerState gameState]; try done.
      * by apply fullArray_markPrev.
      * by apply ValidGrid_markPrev.
    + split; cbn [snd gridRef playerState gameState]; try done.
      all: intros _; by apply Hwall.
  - (* on stage *)
    destruct (wallAround _ _ _).
    + destruct (capture_grid_EW _ speed pos.1 pos.2
                  ((fun e => (e_x e, e_y e)) <$> enemies w) Hfull' Hvalid' Hidx)
        as [Hcf Hcv].
      pose proof (capture_area_nonneg
                    (markPrev (wr (gridRef w) (pos.1 + pos.2 * GRID_WIDTH) CELL_TRAIL)
                       pos speed)
                    speed pos.1 pos.2 ((fun e => (e_x e, e_y e)) <$> enemies w)) as Harea.
      cbv zeta in Hcf, Hcv.
      set (c := capture _ _ _ _ _) in *.
      rewrite destroyCaught_spec.
      pose proof (calculatePercentage_range (cap_grid c)) as Hp.
      assert (0 <= Z.of_nat (length (List.filter (enemyOnWall (cap_grid c)) (enemies w))))
        as Hd by lia.
      destruct (WIN_PERCENTAGE <=? _).
      * split; cbn [snd advanceLevel gridRef playerState gameState lives level score
                    percentage]; try done.
        -- intros i v Hv. apply Hcv in Hv. tauto.
        -- lia.
        -- lia.
      * split; cbn [snd gridRef playerState gameState lives level score percentage];
          try done.
        -- intros i v Hv. apply Hcv in Hv. tauto.
        -- intros _ i Hi. apply Hcv in Hi.
           unfold CELL_EMPTY, CELL_WALL, CELL_TRAIL in Hi. lia.
        -- lia.
    + split; cbn [snd gridRef playerState gameState]; done.
Qed.

Lemma gameLoop_inv pressedKeys random w :
  WorldInv w -> WorldInv (gameLoop pressedKeys random w).
Proof.
  intros Hw. unfold gameLoop, gameLoopE.
  destruct (negb _); [done|].
  destruct (if _ mod 2 =? 0 then _ else _) as [hit es].
  match goal with |- context [playerPhase ?w1] =>
    assert (WorldInv w1) as Hw1 by (destruct Hw; by split)
  end.
  destruct hit; [by apply handlePlayerDeath_inv|].
  match goal with |- context [playerPhase ?w1] =>
    pose proof (playerPhase_inv w1 Hw1) as Hp;
    destruct (playerPhase w1) as [ev w2]
  end.
  destruct ev; try exact Hp. by apply handlePlayerDeath_inv.
Qed.

Lemma reset_inv gs es tick :
  0 <= lives gs <= 3 -> 1 <= level gs -> 0 <= score gs ->
  WorldInv (mkWorld createInitialGrid playerStart (0, 0) onWall es
              (mkGameState playing (score gs) 0 (level gs) (lives gs)) tick).
Proof.
  intros Hl Hv Hs. split; cbn [gridRef playerState gameState lives level score percentage].
  - apply createInitialGrid_full.
  - apply createInitialGrid_valid.
  - intros _. apply createInitialGrid_noTrail.
  - done.
  - done.
  - done.
  - lia.
Qed.

Lemma reachable_inv w : reachable w -> WorldInv w.
Proof.
  induction 1 as [random|pressedKeys random w Hw IH|random w Hw IH|random w Hw IH Hdead].
  - apply (reset_inv (mkGameState playing 0 0 1 3)); cbn [lives level score]; lia.
  - by apply gameLoop_inv.
  - destruct IH. by apply (reset_inv (gameState w)).
  - apply (reset_inv (mkGameState playing 0 0 1 3)); cbn [lives level score]; lia.
Qed.


(** X5: in every reachable state the grid array has exactly the cells
    0 .. 4031 and each of them holds EMPTY, WALL or TRAIL: no write of the
    game ever lands outside the array, and the labels 5 and 6 of the fill
    never reach the grid itself. *)
Theorem reachable_grid_shape (w : World) :
  reachable w ->
  (forall i, is_Some (rd (gridRef w) i) <-> 0 <= i < GRID_WIDTH * GRID_HEIGHT) /\
  (forall i v, rd (gridRef w) i = Some v ->
     v = CELL_EMPTY \/ v = CELL_WALL \/ v = CELL_TRAIL).
Proof.
  intros Hw. destruct (reachable_inv w Hw) as [Hfull Hvalid _ _ _ _ _].
  split; [exact Hfull|exact Hvalid].
Qed.

Lemma playerPhase_lives w :
  lives (gameState (playerPhase w).2) = lives (gameState w).
Proof.
  unfold playerPhase.
  destruct (isOnStage (playerState w) && _); [done|].
  destruct (isOnStage (playerState w)).
  - destruct (wallAround _ _ _); [|done].
    destruct (destroyCaught _ _) as [destroyedCount survivingEnemies].
    destruct (WIN_PERCENTAGE <=? _); done.
  - destruct (negb _ && _); done.
Qed.

Lemma gameLoop_lives pressedKeys random w :
  isDeath (gameLoopE pressedKeys random w).1 = false ->
  lives (gameState (gameLoop pressedKeys random w)) = lives (gameState w).
Proof.
  unfold gameLoop, gameLoopE.
  destruct (negb _); [done|].
  destruct (if _ mod 2 =? 0 then _ else _) as [hit es].
  destruct hit; [done|].
  match goal with |- context [playerPhase ?w1] =>
    pose proof (playerPhase_lives w1) as Hp;
    destruct (playerPhase w1) as [ev w2]
  end.
  destruct ev; try done; intros _; exact Hp.
Qed.

Lemma noTrail_deathDue w :
  noTrail (gridRef w) -> deathDue w = false.
Proof.
  intros Hno. unfold deathDue, enemyTouchesTrail, playerTouchesTrail.
  assert (forall i, cell_is (gridRef w) i CELL_TRAIL = false) as Hc.
  { intros i. apply cell_is_false, Hno. }
  rewrite Hc, andb_false_r, orb_false_r.
  assert (existsb (enemyOnTrail (gridRef w)) (enemies w) = false) as ->.
  { induction (enemies w) as [|e es IH]; [done|].
    cbn [existsb]. rewrite IH. unfold enemyOnTrail. by rewrite Hc. }
  by rewrite andb_false_r, andb_false_r.
Qed.

(** X6: a player on the wall cannot die.  In every reachable state with
    the player in mode onWall the grid holds no TRAIL cell, so no enemy can
    touch the trail and the player cannot run into it: the tick is not a
    death and the number of lives is unchanged. *)
Theorem onWall_player_is_safe pressedKeys random (w : World) :
  reachable w ->
  playerState w = onWall ->
  (forall i, rd (gridRef w) i <> Some CELL_TRAIL) /\
  isDeath (gameLoopE pressedKeys random w).1 = false /\
  lives (gameState (gameLoop pressedKeys random w)) = lives (gameState w).
Proof.
  intros Hw Hst. destruct (reachable_inv w Hw) as [_ _ Hwall _ _ _ _].
  specialize (Hwall Hst).
  assert (isDeath (gameLoopE pressedKeys random w).1 = false) as Hev.
  { rewrite gameLoopE_death. by apply noTrail_deathDue. }
  split_and!; [exact Hwall|exact Hev|by apply gameLoop_lives].
Qed.

(** X7: in every reachable state the number of lives is between 0 and 3,
    the level is at least 1, the score is not negative and the stored
    percentage is between 0 and 100. *)
Theorem reachable_game_state_ranges (w : World) :
  reachable w ->
  0 <= lives (gameState w) <= 3 /\
  1 <= level (gameState w) /\
  0 <= score (gameState w) /\
  0 <= percentage (gameState w) <= 100.
Proof.
  intros Hw. destruct (reachable_inv w Hw) as [_ _ _ Hl Hv Hs Hp]. done.
Qed.

(** X8: after every closure tick of a reachable state, winning or not, the
    grid holds EMPTY and WALL cells only: the whole trail has become WALL
    and no label of the fill is left. *)
Theorem closure_leaves_no_trail pressedKeys random (w : World) (win : bool) :
  reachable w ->
  closureWin (gameLoopE pressedKeys random w).1 = Some win ->
  forall i v, rd (gridRef (gameLoop pressedKeys random w)) i = Some v ->
    v = CELL_EMPTY \/ v = CELL_WALL.
Proof.
  intros Hw Hev. apply closure_event in Hev.
  destruct (reachable_inv w Hw) as [Hfull Hvalid _ _ _ _ _].
  destruct (gameLoopE_closure pressedKeys random w _ win Hev) as [Hp ->].
  cbv zeta in Hp.
  destruct (playerPhase_closure_inv _ _ win Hp) as (Hc & -> & _).
  cbn [gridRef playerPos playerSpeed playerState enemies] in Hc.
  rewrite Hc.
  set (speed := checkedSpeed _ _ _ _).
  set (pos := clampPlayer _).
  pose proof (inGrid_clampPlayer
                ((playerPos w).1 + speed.1, (playerPos w).2 + speed.2)) as Hin.
  fold pos in Hin.
  pose proof (inGrid_index _ _ Hin) as Hidx.
  apply capture_grid_EW; [|by apply ValidGrid_markPrev, ValidGrid_wr; [|tauto]|done].
  by apply fullArray_markPrev, fullArray_wr.
Qed.

(** ** Keys and speed *)

(** X9: the direction keys are read only while the player is on the wall;
    a player on stage keeps its speed whatever is pressed.  On the wall,
    when several keys are held the last test of the source wins: down
    before up before right before left. *)
Theorem processInput_priority (pressedKeys : Z -> bool) (st : PlayerState) (speed : Z * Z) :
  processInput pressedKeys st speed =
    if isOnStage st then speed
    else if pressedKeys 40 || pressedKeys 83 then (0, PLAYER_SPEED)
    else if pressedKeys 38 || pressedKeys 87 then (0, - PLAYER_SPEED)
    else if pressedKeys 39 || pressedKeys 68 then (PLAYER_SPEED, 0)
    else if pressedKeys 37 || pressedKeys 65 then (- PLAYER_SPEED, 0)
    else speed.
Proof. apply processInput_cases. Qed.



(** ** Enemies *)

Lemma playerPhase_enemies w :
  (length (enemies (playerPhase w).2) <= length (enemies w))%nat /\
  (closureWin (playerPhase w).1 = None -> enemies (playerPhase w).2 = enemies w).
Proof.
  unfold playerPhase.
  destruct (isOnStage (playerState w) && _); [done|].
  destruct (isOnStage (playerState w)).
  - destruct (wallAround _ _ _); [|done].
    rewrite destroyCaught_spec.
    match goal with |- context [if 0 <? ?n then ?a else ?b] =>
      assert (length (if (0 <? n)%Z then a else b) <= length (enemies w))%nat as Hle
        by (destruct (0 <? n)%Z; [apply List.filter_length_le|done])
    end.
    destruct (WIN_PERCENTAGE <=? _); (split; [exact Hle|discriminate]).
  - destruct (negb _ && _); done.
Qed.

Lemma length_respawnEnemies random base es :
  length (respawnEnemies random base es) = length es.
Proof. unfold respawnEnemies. apply length_imap. Qed.

Lemma length_updateEnemies grid es :
  length (updateEnemies grid es).2 = length es.
Proof.
  induction es as [|e es IH]; [done|]. cbn [updateEnemies].
  destruct (enemyOnTrail grid e); [done|].
  destruct (updateEnemies grid es) as [hit rest]. cbn [snd length] in *. by rewrite IH.
Qed.

(** X11: a tick never adds an enemy: afterwards there are at most as many
    enemies as before (a death respawns the same number, a closure removes
    the captured ones).  The only place that adds one is the timer of
    [advanceLevel], which adds exactly one. *)
Theorem enemies_only_added_by_level_timer pressedKeys random (w : World) :
  (length (enemies (gameLoop pressedKeys random w)) <= length (enemies w))%nat /\
  length (enemies (advanceLevel_timeout random w)) = S (length (enemies w)).
Proof.
  split.
  - unfold gameLoop, gameLoopE.
    destruct (negb _); [done|].
    pose proof (length_updateEnemies (gridRef w) (enemies w)) as Hu.
    destruct (if _ mod 2 =? 0 then _ else _) as [hit es] eqn:Hes.
    assert (length es = length (enemies w)) as Hlen.
    { destruct (_ mod 2 =? 0); [by rewrite Hes in Hu|by injection Hes as _ <-]. }
    assert (forall w0, length (enemies w0) = length (enemies w) ->
              (length (enemies (handlePlayerDeath random w0)) <= length (enemies w))%nat)
      as Hdeath.
    { intros w0 Hw0. unfold handlePlayerDeath. cbv zeta.
      destruct (_ <? 0); cbn [enemies]; rewrite ?length_respawnEnemies; lia. }
    destruct hit; [by apply Hdeath|].
    match goal with |- context [playerPhase ?w1] =>
      pose proof (playerPhase_enemies w1) as [Hp Hq];
      destruct (playerPhase w1) as [ev w2]
    end.
    cbn [fst snd enemies] in Hp, Hq.
    destruct ev; cbn [snd]; try lia.
    apply Hdeath. rewrite Hq by done. done.
  - unfold advanceLevel_timeout. cbv zeta. cbn [enemies].
    rewrite length_respawnEnemies, length_app. cbn [length]. lia.
Qed.

(** ** Paused states *)

Lemma gameLoop_not_playing pressedKeys random w :
  status (gameState w) <> playing -> gameLoop pressedKeys random w = w.
Proof.
  intros Hs. unfold gameLoop, gameLoopE.
  destruct (status (gameState w)); [done|done..].
Qed.

(** X12: while the status is not Playing (after the last death, or while
    the next level is announced) ticks change nothing at all: whatever the
    keys, any number of ticks leaves the whole state as it is, the tick
    counter included. *)
Theorem ticks_frozen_when_not_playing random keys (w : World) :
  status (gameState w) <> playing -> run random keys w = w.
Proof.
  intros Hs. induction keys as [|k keys IH]; [done|].
  cbn [run foldl]. rewrite gameLoop_not_playing by done. exact IH.
Qed.

(** ** Winning and scoring *)

(** X13: a closure wins the level exactly when, after the commit, at least
    2415 of the 3220 cells of the play area are WALL. *)
Theorem closure_wins_at_2415_cells pressedKeys random (w : World) (win : bool) :
  closureWin (gameLoopE pressedKeys random w).1 = Some win ->
  win = true <->
  2415 <= Z.of_nat (length (wallCells (gridRef (gameLoop pressedKeys random w)))).
Proof.
  intros Hev. apply closure_event in Hev.
  destruct (gameLoopE_closure pressedKeys random w _ win Hev) as [Hp ->].
  cbv zeta in Hp.
  destruct (playerPhase_closure _ _ win Hp) as (Hwin & _).
  rewrite Hwin, Z.leb_le, calculatePercentage_formula, capturedCount_spec.
  pose proof (capturedCount_bounds (gridRef (playerPhase
    (mkWorld (gridRef w) (playerPos w)
       (processInput pressedKeys (playerState w) (playerSpeed w))
       (playerState w) (movedEnemies w) (gameState w) (tickCount w + 1))).2)) as Hb.
  rewrite capturedCount_spec in Hb.
  set (n := Z.of_nat (length (wallCells _))) in *.
  unfold WIN_PERCENTAGE. change totalArea with 3220 in *.
  clearbody n. split.
  - intros H. destruct (Z.le_gt_cases 2415 n) as [|Hlt]; [done|].
    assert (100 * n / 3220 <= 74); [|lia].
    apply Z.lt_succ_r, Z.div_lt_upper_bound; lia.
  - intros H. apply Z.div_le_lower_bound; lia.
Qed.

Lemma playerPhase_score w :
  score (gameState w) <= score (gameState (playerPhase w).2) /\
  (closureWin (playerPhase w).1 = None ->
   score (gameState (playerPhase w).2) = score (gameState w)).
Proof.
  unfold playerPhase.
  destruct (isOnStage (playerState w) && _); [done|].
  destruct (isOnStage (playerState w)).
  - destruct (wallAround _ _ _); [|done].
    rewrite destroyCaught_spec.
    match goal with |- context [capture ?g ?s ?x ?y ?e] =>
      pose proof (capture_area_nonneg g s x y e) as Ha
    end.
    destruct (WIN_PERCENTAGE <=? _);
      cbn [snd fst advanceLevel gameState score closureWin];
      (split; [lia|discriminate]).
  - destruct (negb _ && _); done.
Qed.

(** X14: the score never goes down in a tick, and only a closure changes
    it: a tick that is not a closure, a death included, leaves the score
    as it was. *)
Theorem score_only_grows pressedKeys random (w : World) :
  score (gameState w) <= score (gameState (gameLoop pressedKeys random w)) /\
  (closureWin (gameLoopE pressedKeys random w).1 = None ->
   score (gameState (gameLoop pressedKeys random w)) = score (gameState w)).
Proof.
  assert (forall w0, score (gameState (handlePlayerDeath random w0)) = score (gameState w0))
    as Hdeath.
  { intros w0. unfold handlePlayerDeath. cbv zeta. by destruct (_ <? 0). }
  unfold gameLoop, gameLoopE.
  destruct (negb _); [done|].
  destruct (if _ mod 2 =? 0 then _ else _) as [hit es].
  destruct hit; [cbn [fst snd]; rewrite Hdeath; done|].
  match goal with |- context [playerPhase ?w1] =>
    pose proof (playerPhase_score w1) as [Hp Hq];
    destruct (playerPhase w1) as [ev w2]
  end.
  cbn [fst snd gameState] in Hp, Hq.
  destruct ev; cbn [fst snd]; rewrite ?Hdeath; done.
Qed.

(** ** Wall detection *)

(** X15: the wall detection written out in the game loop is the helper
    [hasAdjacentWall] extended by the cell itself: it reports a wall when
    the player's own cell is WALL or one of the eight cells around it
    (inside the grid) is. *)
Theorem wallAround_is_own_cell_or_adjacent (grid : gmap Z Z) (x y : Z) :
  wallAround grid x y =
    (inGrid x y && cell_is grid (x + y * GRID_WIDTH) CELL_WALL) || hasAdjacentWall x y grid.
Proof.
  unfold wallAround, hasAdjacentWall, for_range.
  change (Z.to_nat (2 - -1)) with 3%nat. cbn [for_from existsb].
  rewrite !wall_probe_orb.
  change (-1 + 1) with 0. change (0 + 1) with 1.
  change (-1 =? 0) with false. change (0 =? 0) with true. change (1 =? 0) with false.
  cbn [andb orb]. rewrite !Z.add_0_r.
  repeat match goal with
  | |- context [inGrid ?a ?b && cell_is grid ?i CELL_WALL] =>
      generalize (inGrid a b && cell_is grid i CELL_WALL); intros ?
  end.
  repeat match goal with b : bool |- _ => destruct b end; reflexivity.
Qed.


(** ** Where the player can be *)

Definition borderWalls (g : gmap Z Z) : Prop :=
  forall x y, onBorder x y = true -> rd g (x + y * GRID_WIDTH) = Some CELL_WALL.

(** The rectangle of the first border, and the cells at least two cells
    inside it. *)
Definition inInner (p : Z * Z) : Prop :=
  PLAY_AREA_LEFT + 1 <= p.1 <= PLAY_AREA_RIGHT - 2 /\
  PLAY_AREA_TOP + 1 <= p.2 <= PLAY_AREA_BOTTOM - 2.

Record PosInv (w : World) : Prop := {
  pi_border : borderWalls (gridRef w);
  pi_box : inBox (playerPos w);
  pi_inner : playerState w = onStage -> status (gameState w) = playing ->
             inInner (playerPos w)
}.

Lemma onBorder_spec x y :
  onBorder x y = true <->
  PLAY_AREA_LEFT - 1 <= x <= PLAY_AREA_RIGHT /\ 0 <= y <= PLAY_AREA_BOTTOM /\
  (y = 0 \/ y = PLAY_AREA_BOTTOM \/ x = PLAY_AREA_LEFT - 1 \/ x = PLAY_AREA_RIGHT).
Proof.
  unfold onBorder. rewrite !andb_true_iff, !orb_true_iff, !Z.leb_le, !Z.eqb_eq. tauto.
Qed.

Lemma createInitialGrid_border : borderWalls createInitialGrid.
Proof.
  intros x y Hb. pose proof Hb as Hb'. apply onBorder_spec in Hb'.
  unfold PLAY_AREA_LEFT, PLAY_AREA_RIGHT, PLAY_AREA_BOTTOM in Hb'.
  assert (inGrid x y = true) as Hin.
  { unfold inGrid, GRID_WIDTH, GRID_HEIGHT.
    rewrite !andb_true_iff, !Z.leb_le, !Z.ltb_lt. lia. }
  pose proof (inGrid_index x y Hin) as Hi.
  rewrite createInitialGrid_rd, decide_True by done.
  unfold GRID_WIDTH in *.
  rewrite Z.mod_add, Z.div_add, Z.mod_small, Z.div_small by lia.
  rewrite Z.add_0_l. by rewrite Hb.
Qed.

Lemma no_wall_inner g p :
  borderWalls g -> inBox p -> wallAround g p.1 p.2 = false -> inInner p.
Proof.
  intros Hb [Hx Hy] Hw.
  unfold inInner, PLAY_AREA_LEFT, PLAY_AREA_RIGHT, PLAY_AREA_TOP, PLAY_AREA_BOTTOM in *.
  assert (forall x y, -1 <= x - p.1 <= 1 -> -1 <= y - p.2 <= 1 ->
            onBorder x y = true -> False) as Hno.
  { intros x y Hdx Hdy Hxy.
    pose proof (Hb x y Hxy) as Hwall.
    apply onBorder_spec in Hxy.
    unfold PLAY_AREA_LEFT, PLAY_AREA_RIGHT, PLAY_AREA_BOTTOM in Hxy.
    apply (wallAround_false g p.1 p.2 (x - p.1) (y - p.2) Hw Hdx Hdy).
    - unfold inGrid, GRID_WIDTH, GRID_HEIGHT.
      rewrite !andb_true_iff, !Z.leb_le, !Z.ltb_lt. lia.
    - replace (p.1 + (x - p.1)) with x by lia.
      replace (p.2 + (y - p.2)) with y by lia. done. }
  assert (forall x y, -1 <= x - p.1 <= 1 -> -1 <= y - p.2 <= 1 ->
            12 <= x <= 83 -> 0 <= y <= 47 ->
            (y = 0 \/ y = 47 \/ x = 12 \/ x = 83) -> False) as Hno'.
  { intros x y Hdx Hdy Hx' Hy' Hc. apply (Hno x y Hdx Hdy).
    apply onBorder_spec. unfold PLAY_AREA_LEFT, PLAY_AREA_RIGHT, PLAY_AREA_BOTTOM.
    split_and!; [lia..|done]. }
  split_and!.
  - destruct (Z.le_gt_cases 14 p.1) as [|Hlt]; [done|].
    destruct (Hno' 12 p.2); [lia..|tauto].
  - destruct (Z.le_gt_cases p.1 81) as [|Hlt]; [done|].
    destruct (Hno' 83 p.2); [lia..|tauto].
  - destruct (Z.le_gt_cases 2 p.2) as [|Hlt]; [done|].
    destruct (Hno' p.1 0); [lia..|tauto].
  - destruct (Z.le_gt_cases p.2 45) as [|Hlt]; [done|].
    destruct (Hno' p.1 47); [lia..|tauto].
Qed.

Lemma playerPhase_pos w :
  validSpeed (playerSpeed w) -> status (gameState w) = playing -> PosInv w ->
  PosInv (playerPhase w).2.
Proof.
  intros Hv Hplay [Hb Hbox Hinner].
  assert (borderWalls (gridRef (playerPhase w).2)) as Hb'.
  { assert ((playerPhase w).1 = PlayerHitTrail \/ (playerPhase w).1 <> PlayerHitTrail)
      as [E|E] by (destruct (playerPhase w).1; first [by left|by right]).
    - revert E. unfold playerPhase.
      destruct (isOnStage (playerState w) && _); [done|].
      destruct (isOnStage (playerState w)).
      + destruct (wallAround _ _ _); [|done].
        destruct (destroyCaught _ _) as [destroyedCount survivingEnemies].
        destruct (WIN_PERCENTAGE <=? _); done.
      + destruct (negb _ && _); done.
    - intros x y Hxy. by apply (playerPhase_keeps_walls w Hv E), Hb. }
  revert Hb'. unfold playerPhase.
  destruct (isOnStage (playerState w) && _).
  { intros Hb'. split; cbn [snd gridRef playerPos playerState gameState] in *; done. }
  pose proof (checkedSpeed_valid (gridRef w) (playerState w) (playerPos w)
                (playerSpeed w) Hv) as [Hv1 Hv2].
  set (speed := checkedSpeed _ _ _ _) in *.
  pose proof (clampPlayer_inBox ((playerPos w).1 + speed.1, (playerPos w).2 + speed.2))
    as Hcl.
  set (pos := clampPlayer _) in *.
  destruct (playerState w) eqn:Hst; cbn [isOnStage].
  - (* on the wall *)
    destruct (negb (wallAround (gridRef w) pos.1 pos.2) && _) eqn:Hc; intros Hb'.
    + split; cbn [snd gridRef playerPos playerState gameState] in *; try done.
      intros _ _. apply andb_true_iff in Hc as [Hc _]. apply negb_true_iff in Hc.
      by apply (no_wall_inner (gridRef w)).
    + split; cbn [snd gridRef playerPos playerState gameState] in *; done.
  - (* on stage *)
    specialize (Hinner eq_refl Hplay).
    destruct (wallAround (gridRef w) pos.1 pos.2) eqn:Hw.
    + destruct (destroyCaught _ _) as [destroyedCount survivingEnemies].
      destruct (WIN_PERCENTAGE <=? _); intros Hb'.
      * split; cbn [snd advanceLevel gridRef playerPos playerState gameState status] in *;
          done.
      * split; cbn [snd gridRef playerPos playerState gameState] in *; try done.
        assert (13 <= pos.1 <= 82 /\ 1 <= pos.2 <= 46) as [Hp1 Hp2].
        { destruct Hinner as [Hi1 Hi2]. unfold pos, clampPlayer.
          unfold PLAY_AREA_LEFT, PLAY_AREA_RIGHT, PLAY_AREA_TOP, PLAY_AREA_BOTTOM in *.
          cbn [fst snd]. lia. }
        match goal with |- inBox (sidestep ?g ?s ?x ?y ?p) =>
          pose proof (sidestep_near g s x y p) as [Hs1 Hs2]
        end.
        cbv zeta in Hs1, Hs2.
        unfold inBox, PLAY_AREA_LEFT, PLAY_AREA_RIGHT, PLAY_AREA_BOTTOM. lia.
    + intros Hb'. split; cbn [snd gridRef playerPos playerState gameState] in *; try done.
      intros _ _.
      by apply (no_wall_inner (gridRef w)).
Qed.


Lemma handlePlayerDeath_pos random w : PosInv w -> PosInv (handlePlayerDeath random w).
Proof.
  intros [Hb Hbox Hinner]. unfold handlePlayerDeath. cbv zeta.
  destruct (_ <? 0); split; cbn [gridRef playerPos playerState gameState status]; try done;
    first [apply createInitialGrid_border
          |unfold inBox, playerStart, PLAY_AREA_LEFT, PLAY_AREA_RIGHT, PLAY_AREA_BOTTOM;
           cbn [fst snd]; lia].
Qed.

Lemma gameLoop_pos pressedKeys random w :
  validSpeed (playerSpeed w) -> PosInv w -> PosInv (gameLoop pressedKeys random w).
Proof.
  intros Hv Hw. unfold gameLoop, gameLoopE.
  destruct (status (gameState w)) eqn:Hs; cbn [isPlaying negb]; try done.
  destruct (if _ mod 2 =? 0 then _ else _) as [hit es].
  pose proof (processInput_valid pressedKeys (playerState w) (playerSpeed w) Hv) as Hv'.
  match goal with |- context [playerPhase ?w1] =>
    assert (PosInv w1) as Hw1 by (destruct Hw; by split)
  end.
  destruct hit; [by apply handlePlayerDeath_pos|].
  match goal with |- context [playerPhase ?w1] =>
    pose proof (playerPhase_pos w1 Hv' Hs Hw1) as Hp;
    destruct (playerPhase w1) as [ev w2]
  end.
  destruct ev; try exact Hp. by apply handlePlayerDeath_pos.
Qed.

Lemma reset_pos es gs tick :
  PosInv (mkWorld createInitialGrid playerStart (0, 0) onWall es gs tick).
Proof.
  split; cbn [gridRef playerPos playerState]; try done;
    first [apply createInitialGrid_border
          |unfold inBox, playerStart, PLAY_AREA_LEFT, PLAY_AREA_RIGHT, PLAY_AREA_BOTTOM;
           cbn [fst snd]; lia].
Qed.

Lemma reachable_pos w : reachable w -> PosInv w.
Proof.
  induction 1 as [random|pressedKeys random w Hw IH|random w Hw IH|random w Hw IH Hdead].
  - apply reset_pos.
  - apply gameLoop_pos; [by apply reachable_validSpeed|done].
  - apply reset_pos.
  - apply reset_pos.
Qed.

(** X16: in every reachable state the cells of the first border are still
    WALL and the player stands inside the border rectangle, columns 12 to
    83 and rows 0 to 47, so the cell under the player is always a cell of
    the array; while a trail is being drawn (mode onStage, status Playing)
    the player is at least two cells away from that border. *)
Theorem player_stays_inside_border (w : World) :
  reachable w ->
  (forall x y, onBorder x y = true ->
     rd (gridRef w) (x + y * GRID_WIDTH) = Some CELL_WALL) /\
  (PLAY_AREA_LEFT - 1 <= (playerPos w).1 <= PLAY_AREA_RIGHT /\
   0 <= (playerPos w).2 <= PLAY_AREA_BOTTOM) /\
  (playerState w = onStage -> status (gameState w) = playing ->
   PLAY_AREA_LEFT + 1 <= (playerPos w).1 <= PLAY_AREA_RIGHT - 2 /\
   PLAY_AREA_TOP + 1 <= (playerPos w).2 <= PLAY_AREA_BOTTOM - 2).
Proof.
  intros Hw. destruct (reachable_pos w Hw) as [Hb Hbox Hinner]. done.
Qed.

(** ** Lives *)

(** X17: each death costs one life while a life is left, and the death
    that finds no life left ends the game: from a state with [n] lives,
    after [k <= n] deaths the status is Playing with [n - k] lives, and
    after [n + 1] deaths the status is Dead (with 0 lives shown).  A new
    game starts with 3 lives, so it ends at the fourth death. *)
Theorem game_ends_after_last_life (random : nat -> spec_float) (w : World) (k : nat) :
  let deaths n := Nat.iter n (handlePlayerDeath random) w in
  0 <= lives (gameState w) ->
  (Z.of_nat k <= lives (gameState w) ->
     lives (gameState (deaths k)) = lives (gameState w) - Z.of_nat k /\
     (0 < k -> status (gameState (deaths k)) = playing)%nat) /\
  (Z.of_nat k = lives (gameState w) + 1 ->
     status (gameState (deaths k)) = dead /\ lives (gameState (deaths k)) = 0).
Proof.
  intros deaths Hn.
  assert (forall j, Z.of_nat j <= lives (gameState w) ->
            lives (gameState (deaths j)) = lives (gameState w) - Z.of_nat j /\
            (0 < j -> status (gameState (deaths j)) = playing)%nat) as Hlive.
  { induction j as [|j IH]; intros Hj.
    - split; [cbn; lia|lia].
    - destruct IH as [IH _]; [lia|].
      unfold deaths in *. rewrite !Nat.iter_succ.
      set (wj := Nat.iter j (handlePlayerDeath random) w) in *.
      unfold handlePlayerDeath. cbv zeta. rewrite IH.
      destruct (Z.ltb_spec (lives (gameState w) - Z.of_nat j - 1) 0); [lia|].
      cbn [gameState lives status]. split; [lia|done]. }
  split; [apply Hlive|].
  intros Hk. destruct k as [|k]; [lia|].
  destruct (Hlive k) as [Hl _]; [lia|].
  unfold deaths in *. rewrite !Nat.iter_succ.
  set (wk := Nat.iter k (handlePlayerDeath random) w) in *.
  unfold handlePlayerDeath. cbv zeta. rewrite Hl.
  destruct (Z.ltb_spec (lives (gameState w) - Z.of_nat k - 1) 0); [|lia].
  cbn [gameState lives status]. split; [done|lia].
Qed.

(** ** The score of a closure *)

Lemma filter_split_length {A} (p : A -> bool) (l : list A) :
  length l =
  (length (List.filter p l) + length (List.filter (fun e => negb (p e)) l))%nat.
Proof.
  induction l as [|e es IH]; [done|].
  cbn [List.filter]. destruct (p e); cbn [negb length]; lia.
Qed.

Lemma playerPhase_closure_score (w : World) (c : Capture) (win : bool) :
  (playerPhase w).1 = Closure c win ->
  let w' := (playerPhase w).2 in
  score (gameState w') =
    score (gameState w) + cap_areaCaptured c * 10 +
    Z.of_nat (length (enemies w) - length (enemies w')) * 500 +
    (if win then 1000 else 0) /\
  level (gameState w') = level (gameState w) + (if win then 1 else 0) /\
  lives (gameState w') = lives (gameState w).
Proof.
  unfold playerPhase.
  destruct (isOnStage (playerState w) && _); [discriminate|].
  destruct (isOnStage (playerState w)); [|destruct (negb _ && _); discriminate].
  destruct (wallAround _ _ _); [|discriminate].
  rewrite destroyCaught_spec.
  match goal with |- context [capture ?g ?s ?x ?y ?e] => set (c0 := capture g s x y e) end.
  assert (length (enemies w) =
          (length (List.filter (enemyOnWall (cap_grid c0)) (enemies w)) +
           length (List.filter (fun e => negb (enemyOnWall (cap_grid c0) e)) (enemies w)))%nat)
    as Hsplit.
  { apply filter_split_length. }
  assert (length (enemies w) -
          length (if (0 <? Z.of_nat (length (List.filter (enemyOnWall (cap_grid c0)) (enemies w))))%Z
                  then List.filter (fun e => negb (enemyOnWall (cap_grid c0) e)) (enemies w)
                  else enemies w)
          = length (List.filter (enemyOnWall (cap_grid c0)) (enemies w)))%nat as Hd.
  { destruct (0 <? Z.of_nat _)%Z eqn:E; [apply Z.ltb_lt in E|apply Z.ltb_ge in E]; lia. }
  destruct (WIN_PERCENTAGE <=? _); intros [= <- <-];
    cbn [snd advanceLevel gameState score level lives enemies];
    rewrite Hd; split_and!; lia.
Qed.

(** X18: the scoring rule of a closure: the score grows by 10 for every
    cell counted as captured and by 500 for every enemy destroyed, plus
    1000 when the closure wins the level; the level grows by one exactly
    on a win and the lives are unchanged. *)
Theorem closure_scoring_rule pressedKeys random (w : World) (win : bool) :
  closureWin (gameLoopE pressedKeys random w).1 = Some win ->
  let w' := gameLoop pressedKeys random w in
  let destroyed := (length (movedEnemies w) - length (enemies w'))%nat in
  score (gameState w') =
    score (gameState w) + cap_areaCaptured (closureCapture pressedKeys w) * 10 +
    Z.of_nat destroyed * 500 + (if win then 1000 else 0) /\
  level (gameState w') = level (gameState w) + (if win then 1 else 0) /\
  lives (gameState w') = lives (gameState w).
Proof.
  intros Hev. apply closure_event in Hev.
  destruct (gameLoopE_closure pressedKeys random w _ win Hev) as [Hp ->].
  cbv zeta in Hp. exact (playerPhase_closure_score _ _ win Hp).
Qed.

(** ** The shape of the void *)

(** X19: while a game is played the void is a rectangle.  In every
    reachable state with status Playing there is a rectangle of the play
    area such that every cell from column 12 on outside it is WALL, and
    inside it every cell is EMPTY, except, while the player is on stage,
    the cells of the straight line behind the player, which are TRAIL; on
    stage the player is strictly inside the rectangle and moves by one
    cell along one axis. *)
Theorem void_is_a_rectangle (w : World) :
  reachable w -> status (gameState w) = playing ->
  exists r t,
    rectOK r /\ voidGrid (gridRef w) r t /\
    (playerState w = onWall -> t = noTrailShape) /\
    (playerState w = onStage ->
       unitSpeed (playerSpeed w) /\ interior r (playerPos w) /\
       exists marked, t = ray (playerPos w) (playerSpeed w) marked).
Proof.
  intros Hw Hs. destruct (reachable_rect w Hw Hs) as (r & Hr & H).
  destruct (playerState w).
  - destruct H as (_ & _ & Hg & _). exists r, noTrailShape.
    split_and!; [done|done|done|discriminate].
  - destruct H as (Hd & Hint & marked & Hg).
    exists r, (ray (playerPos w) (playerSpeed w) marked).
    split_and!; [done|done|discriminate|]. intros _. split_and!; [done|done|by exists marked].
Qed.

(** X20: the player never runs into its own trail.  In every reachable
    state with status Playing the cell ahead of a player on stage is not
    TRAIL (the trail is the straight line behind it and the keys are not
    read on stage), so the second death test of the loop never fires: a
    death is due exactly when an enemy touches the trail. *)
Theorem own_trail_is_never_hit (w : World) :
  reachable w -> status (gameState w) = playing ->
  playerTouchesTrail w = false /\ deathDue w = enemyTouchesTrail w.
Proof.
  intros Hw Hs. destruct (reachable_rect w Hw Hs) as (r & Hr & H).
  assert (playerTouchesTrail w = false) as Hp.
  { unfold playerTouchesTrail. destruct (playerState w); [done|].
    destruct H as (Hd & Hint & marked & Hg).
    destruct (stage_step _ r _ _ marked Hg Hr Hd Hint) as (HE & _).
    cbv zeta in HE. cbn [fst snd] in HE. cbn [isOnStage andb].
    apply cell_is_false. rewrite HE. discriminate. }
  split; [exact Hp|]. unfold deathDue. rewrite Hp, Hs. cbn [isPlaying andb].
  apply orb_false_r.
Qed.

(** X21: what a closure leaves.  At every closure of a reachable state the
    trail cuts the rectangle of void in two rectangles, the part of the
    first seed and the part of the second; after the tick the void is the
    part of the first seed when its fill counted at least as much as the
    other, the part of the second seed otherwise, and every other cell
    from column 12 on, trail included, is WALL. *)
Theorem closure_keeps_one_side pressedKeys random (w : World) (win : bool) :
  reachable w ->
  closureWin (gameLoopE pressedKeys random w).1 = Some win ->
  let c := closureCapture pressedKeys w in
  let d := playerSpeed w in
  let L := ((playerPos w).1 + d.1, (playerPos w).2 + d.2) in
  exists r,
    rectOK r /\ inRect r L.1 L.2 /\
    cap_landing c = L /\
    inRect (firstSide r L d) (cap_seeds c).1.1 (cap_seeds c).1.2 /\
    inRect (secondSide r L d) (cap_seeds c).2.1 (cap_seeds c).2.2 /\
    voidGrid (gridRef (gameLoop pressedKeys random w))
      (if cap_fill1 c >=? cap_fill2 c then firstSide r L d else secondSide r L d)
      noTrailShape.
Proof.
  intros Hw Hev c d L.
  destruct (closure_shape pressedKeys random w win Hw Hev)
    as (r & Hr & Hd & Hint & Hfar & Hg & Hc & Hgrid).
  cbv zeta in Hfar, Hg, Hc. fold c in Hc, Hgrid. fold d in Hd, Hfar, Hg, Hc.
  fold L in Hfar, Hg, Hc.
  assert (interior r (L.1 - d.1, L.2 - d.2)) as Hint'.
  { unfold L. cbn [fst snd]. clear - Hint. rect_lia. }
  destruct (capture_rect _ r L d ((fun e => (e_x e, e_y e)) <$> movedEnemies w)
              Hg Hr Hd Hint' Hfar) as (_ & _ & _ & _ & Hvoid & _).
  destruct (sides_seeds r L d Hr Hd Hint' Hfar) as [HsA HsB].
  destruct (landing_line r L d Hr Hd Hint' Hfar) as [HLr _].
  rewrite <- Hc in Hvoid.
  assert (cap_seeds c = floodStartPoints d L.1 L.2 /\ cap_landing c = L) as [Hseeds Hland].
  { rewrite Hc, capture_parts. cbn [cap_seeds cap_landing]. by rewrite <- surjective_pairing. }
  exists r. rewrite Hgrid, Hseeds. by split_and!.
Qed.



(** ** What [areaCaptured] counts *)

Lemma filter_flip_length (p p' : Z * Z -> bool) (c0 : Z * Z) (l : list (Z * Z)) :
  NoDup l -> c0 ∈ l -> p c0 = false -> p' c0 = true ->
  (forall c, c ∈ l -> c <> c0 -> p' c = p c) ->
  length (List.filter p' l) = S (length (List.filter p l)).
Proof.
  intros Hnd Hin Hp Hp' Hsame. induction Hnd as [|d l Hd Hnd IH].
  - by apply elem_of_nil in Hin.
  - assert (forall c, c ∈ l -> c <> c0 -> p' c = p c) as Hsame'.
    { intros c Hc. apply Hsame. by apply list_elem_of_further. }
    cbn [List.filter]. destruct (decide (d = c0)) as [->|Hne].
    + rewrite Hp, Hp'. cbn [length]. by rewrite (filter_flip_out p p' c0 l).
    + apply elem_of_cons in Hin as [->|Hin]; [done|].
      rewrite (Hsame d); [|apply list_elem_of_here|done].
      destruct (p d); cbn [length]; rewrite IH by done; reflexivity.
Qed.

Section Area.

Variables (g gridCopy : gmap Z Z) (fillThisValue doNotFillThisValue : Z).

(** The test of the commit loop that increments [areaCaptured]. *)
Definition counted (i : Z) : bool :=
  negb (cell_is g i CELL_TRAIL) && cell_is gridCopy i fillThisValue.

Definition countedBelow (k : Z) (c : Z * Z) : bool :=
  counted (cellIndex c) && (cellIndex c <? k).

Hypothesis counted_cell :
  forall i, counted i = true -> exists c, c ∈ playCells /\ i = cellIndex c.

Lemma countedBelow_step k :
  length (List.filter (countedBelow (k + 1)) playCells) =
  (length (List.filter (countedBelow k) playCells) + (if counted k then 1 else 0))%nat.
Proof.
  destruct (counted k) eqn:Hk.
  - destruct (counted_cell k Hk) as (c0 & Hc0 & ->).
    rewrite (filter_flip_length (countedBelow (cellIndex c0))
               (countedBelow (cellIndex c0 + 1)) c0); [lia|apply NoDup_playCells|done| | |].
    + unfold countedBelow. rewrite Z.ltb_irrefl. apply andb_false_r.
    + unfold countedBelow. rewrite Hk. apply Z.ltb_lt. lia.
    + intros c Hc Hne. unfold countedBelow. f_equal.
      assert (cellIndex c <> cellIndex c0) by (intros E; by apply Hne, cellIndex_inj).
      destruct (Z.ltb_spec (cellIndex c) (cellIndex c0 + 1)),
               (Z.ltb_spec (cellIndex c) (cellIndex c0)); first [done|lia].
  - rewrite Nat.add_0_r.
    rewrite (List.filter_ext (countedBelow (k + 1)) (countedBelow k)); [reflexivity|].
    intros c. unfold countedBelow.
    destruct (decide (cellIndex c = k)) as [->|Hne]; [by rewrite Hk|].
    f_equal. destruct (Z.ltb_spec (cellIndex c) (k + 1)), (Z.ltb_spec (cellIndex c) k);
      first [done|lia].
Qed.

Lemma applyFill_area :
  (applyFill g gridCopy fillThisValue doNotFillThisValue).2 =
  Z.of_nat (length (List.filter (fun c => counted (cellIndex c)) playCells)).
Proof.
  set (P := fun (k : Z) (acc : gmap Z Z * Z) =>
              commitUpTo gridCopy fillThisValue doNotFillThisValue g k acc /\
              acc.2 = Z.of_nat (length (List.filter (countedBelow k) playCells))).
  assert (forall k acc, 0 <= k -> P k acc ->
            P (k + 1) (applyFillCell gridCopy fillThisValue doNotFillThisValue k acc))
    as Hstep.
  { intros k acc Hk [Hc Ha]. split; [by apply commitUpTo_step|].
    rewrite countedBelow_step, Nat2Z.inj_add, <- Ha.
    destruct acc as [grid area]. unfold applyFillCell, counted.
    assert (cell_is grid k CELL_TRAIL = cell_is g k CELL_TRAIL) as ->.
    { unfold cell_is. specialize (Hc k). cbn [fst] in Hc. rewrite Hc.
      by rewrite decide_False by lia. }
    destruct (cell_is g k CELL_TRAIL); cbn [negb andb snd]; [lia|].
    destruct (cell_is gridCopy k fillThisValue); cbn [snd]; [lia|].
    destruct (cell_is gridCopy k doNotFillThisValue); cbn [snd]; lia. }
  assert (P (GRID_WIDTH * GRID_HEIGHT)
            (applyFill g gridCopy fillThisValue doNotFillThisValue)) as [_ ->].
  { unfold applyFill.
    pose proof (for_range_ind (fun y acc => P (y * GRID_WIDTH) acc)
      0 GRID_HEIGHT
      (fun y => for_range 0 GRID_WIDTH (fun x =>
         applyFillCell gridCopy fillThisValue doNotFillThisValue (x + y * GRID_WIDTH)))
      (g, 0)) as H.
    rewrite (Z.mul_comm GRID_WIDTH). apply H; clear H.
    - unfold GRID_HEIGHT. lia.
    - split.
      + intros j. cbn [fst]. by rewrite decide_False by lia.
      + cbn [snd].
        rewrite (List.filter_ext_in (countedBelow (0 * GRID_WIDTH)) (fun _ => false)),
          List.filter_false; [done|].
        intros c Hc. apply list_elem_of_In, cellIndex_range in Hc. unfold countedBelow.
        assert ((cellIndex c <? 0 * GRID_WIDTH) = false) as -> by (apply Z.ltb_ge; lia).
        apply andb_false_r.
    - intros y acc Hy Hacc.
      pose proof (for_range_ind (fun x acc => P (x + y * GRID_WIDTH) acc)
        0 GRID_WIDTH
        (fun x => applyFillCell gridCopy fillThisValue doNotFillThisValue
                    (x + y * GRID_WIDTH)) acc) as H.
      replace ((y + 1) * GRID_WIDTH) with (GRID_WIDTH + y * GRID_WIDTH) by lia.
      apply H; clear H.
      + unfold GRID_WIDTH. lia.
      + exact Hacc.
      + intros x acc' Hx Hacc'.
        replace (x + 1 + y * GRID_WIDTH) with ((x + y * GRID_WIDTH) + 1) by lia.
        apply Hstep; [|done]. unfold GRID_WIDTH in *. lia. }
  rewrite (List.filter_ext_in (countedBelow (GRID_WIDTH * GRID_HEIGHT))
             (fun c => counted (cellIndex c)) playCells); [reflexivity|].
  intros c Hc. unfold countedBelow.
  apply list_elem_of_In, cellIndex_range in Hc.
  assert ((cellIndex c <? GRID_WIDTH * GRID_HEIGHT) = true) as -> by (apply Z.ltb_lt; lia).
  apply andb_true_r.
Qed.

End Area.

Lemma capture_label_cell g speed cx cy es i v :
  ValidGrid g -> v = 5 \/ v = 6 ->
  rd (cap_gridCopy (capture g speed cx cy es)) i = Some v ->
  rd g i = Some CELL_EMPTY /\ exists c, c ∈ playCells /\ i = cellIndex c.
Proof.
  intros Hvalid Hv. rewrite capture_parts. cbn [cap_gridCopy].
  set (seeds := floodStartPoints speed cx cy).
  pose proof (floodFill_fillRel seeds.1.1 seeds.1.2 5 g es) as H1; unfold fillRel in H1.
  set (r1 := floodFill seeds.1.1 seeds.1.2 5 g es) in *.
  pose proof (floodFill_fillRel seeds.2.1 seeds.2.2 6 r1.2 es) as H2; unfold fillRel in H2.
  set (r2 := floodFill seeds.2.1 seeds.2.2 6 r1.2 es) in *.
  intros Hi.
  destruct (H2 i) as [E2|(E2 & E2' & c2 & Hc2 & ->)].
  - rewrite E2 in Hi. destruct (H1 i) as [E1|(E1 & E1' & c1 & Hc1 & ->)].
    + rewrite E1 in Hi. apply Hvalid in Hi.
      unfold CELL_EMPTY, CELL_WALL, CELL_TRAIL in Hi. lia.
    + split; [done|by exists c1].
  - split; [|by exists c2].
    destruct (H1 (cellIndex c2)) as [E1|(E1 & E1' & _)]; [congruence|].
    unfold CELL_EMPTY in *. congruence.
Qed.

(** X22: the [areaCaptured] of a closure, which the score multiplies by
    10, is the number of cells of the captured side, that is of the cells
    the chosen fill has labelled; the cells of the trail and the landing
    cell, which the commit also turns into WALL, are not counted. *)
Theorem areaCaptured_counts_captured_side g speed cx cy es :
  ValidGrid g ->
  let c := capture g speed cx cy es in
  let fillThisValue := (chooseFill (cap_fill1 c) (cap_fill2 c)).1 in
  cap_areaCaptured c = Z.of_nat (length (filledCells fillThisValue g (cap_gridCopy c))).
Proof.
  intros Hvalid c fillThisValue.
  assert (fillThisValue = 5 \/ fillThisValue = 6) as Hv.
  { unfold fillThisValue, chooseFill. destruct (_ >=? _); cbn [fst]; tauto. }
  assert (forall i, rd (cap_gridCopy c) i = Some fillThisValue ->
            rd g i = Some CELL_EMPTY /\ exists c0, c0 ∈ playCells /\ i = cellIndex c0)
    as Hlab.
  { intros i. by apply capture_label_cell. }
  assert (cap_areaCaptured c =
          (applyFill g (cap_gridCopy c) fillThisValue
             (chooseFill (cap_fill1 c) (cap_fill2 c)).2).2) as ->.
  { unfold fillThisValue, c. rewrite capture_parts.
    cbn [cap_areaCaptured cap_gridCopy cap_fill1 cap_fill2]. reflexivity. }
  rewrite applyFill_area.
  - unfold filledCells.
    rewrite (List.filter_ext
               (fun c0 => counted g (cap_gridCopy c) fillThisValue (cellIndex c0))
               (isFilled fillThisValue g (cap_gridCopy c))); [reflexivity|].
    intros c0. unfold counted, isFilled.
    destruct (cell_is (cap_gridCopy c) (cellIndex c0) fillThisValue) eqn:Hc;
      [|by rewrite !andb_false_r].
    apply cell_is_true, Hlab in Hc as [Hc _]. rewrite !andb_true_r.
    assert (cell_is g (cellIndex c0) CELL_EMPTY = true) as -> by by apply cell_is_true.
    assert (cell_is g (cellIndex c0) CELL_TRAIL = false) as ->; [|done].
    apply cell_is_false. rewrite Hc. done.
  - intros i Hi. unfold counted in Hi. apply andb_true_iff in Hi as [_ Hi].
    apply cell_is_true, Hlab in Hi as [_ Hi]. exact Hi.
Qed.

(** ** Instances *)

Lemma floodFill_fills_component_witness :
  5 <> CELL_EMPTY /\
  rd (floodFill 40 15 5 createInitialGrid []).2 (cellIndex (40, 15)) = Some 5.
Proof.
  assert (5 <> CELL_EMPTY) as Hv by discriminate.
  split; [exact Hv|].
  apply (proj1 (floodFill_fills_component 40 15 5 createInitialGrid [] Hv)).
  apply connected_seed. split.
  - apply elem_of_playCells. vm_compute. reflexivity.
  - vm_compute. reflexivity.
Defined.

Lemma floodFill_blocked_seed_witness :
  isInPlayArea 12 0 = false /\
  floodFill 12 0 5 createInitialGrid [(40, 15)] = (0, createInitialGrid).
Proof.
  assert (isInPlayArea 12 0 = false) as H by (vm_compute; reflexivity).
  split; [exact H|].
  exact (floodFill_blocked_seed 12 0 5 createInitialGrid [(40, 15)] (or_introl H)).
Defined.

Lemma reachable_grid_shape_witness :
  reachable game1 /\
  (forall i v, rd (gridRef game1) i = Some v ->
     v = CELL_EMPTY \/ v = CELL_WALL \/ v = CELL_TRAIL).
Proof.
  split; [exact reachable_game1|].
  exact (proj2 (reachable_grid_shape game1 reachable_game1)).
Defined.

Lemma onWall_player_is_safe_witness :
  reachable (initialWorld zeroR) /\
  playerState (initialWorld zeroR) = onWall /\
  isDeath (gameLoopE keyUp zeroR (initialWorld zeroR)).1 = false.
Proof.
  assert (reachable (initialWorld zeroR)) as Hw by constructor.
  split_and!; [exact Hw|reflexivity|].
  exact (proj1 (proj2 (onWall_player_is_safe keyUp zeroR (initialWorld zeroR) Hw eq_refl))).
Defined.

Lemma reachable_game_state_ranges_witness :
  reachable game1 /\ 0 <= lives (gameState game1) <= 3.
Proof.
  split; [exact reachable_game1|].
  exact (proj1 (reachable_game_state_ranges game1 reachable_game1)).
Defined.

Lemma closure_leaves_no_trail_witness :
  reachable game1 /\
  closureWin (gameLoopE keyUp zeroR game1).1 = Some false /\
  (forall i v, rd (gridRef (gameLoop keyUp zeroR game1)) i = Some v ->
     v = CELL_EMPTY \/ v = CELL_WALL).
Proof.
  assert (closureWin (gameLoopE keyUp zeroR game1).1 = Some false) as Hev
    by (vm_compute; reflexivity).
  split_and!; [exact reachable_game1|exact Hev|].
  exact (closure_leaves_no_trail keyUp zeroR game1 false reachable_game1 Hev).
Defined.


Lemma ticks_frozen_when_not_playing_witness :
  status (gameState (advanceLevel (initialWorld zeroR))) <> playing /\
  run zeroR [keyUp; keyLeft; keyUp] (advanceLevel (initialWorld zeroR)) =
    advanceLevel (initialWorld zeroR).
Proof.
  assert (status (gameState (advanceLevel (initialWorld zeroR))) <> playing) as Hs
    by discriminate.
  split; [exact Hs|].
  exact (ticks_frozen_when_not_playing zeroR [keyUp; keyLeft; keyUp] _ Hs).
Defined.

Lemma closure_wins_at_2415_cells_witness :
  closureWin (gameLoopE keyUp zeroR game1).1 = Some false /\
  (false = true <->
   2415 <= Z.of_nat (length (wallCells (gridRef (gameLoop keyUp zeroR game1))))).
Proof.
  assert (closureWin (gameLoopE keyUp zeroR game1).1 = Some false) as Hev
    by (vm_compute; reflexivity).
  split; [exact Hev|].
  exact (closure_wins_at_2415_cells keyUp zeroR game1 false Hev).
Defined.

Lemma player_stays_inside_border_witness :
  reachable game1 /\
  PLAY_AREA_LEFT - 1 <= (playerPos game1).1 <= PLAY_AREA_RIGHT /\
  0 <= (playerPos game1).2 <= PLAY_AREA_BOTTOM.
Proof.
  split; [exact reachable_game1|].
  exact (proj1 (proj2 (player_stays_inside_border game1 reachable_game1))).
Defined.

Lemma game_ends_after_last_life_witness :
  0 <= lives (gameState (initialWorld zeroR)) /\
  status (gameState (Nat.iter 4 (handlePlayerDeath zeroR) (initialWorld zeroR))) = dead.
Proof.
  assert (0 <= lives (gameState (initialWorld zeroR))) as Hn by (cbn; lia).
  split; [exact Hn|].
  pose proof (game_ends_after_last_life zeroR (initialWorld zeroR) 4 Hn) as [_ H].
  exact (proj1 (H eq_refl)).
Defined.

Lemma closure_scoring_rule_witness :
  closureWin (gameLoopE keyUp zeroR game1).1 = Some false /\
  lives (gameState (gameLoop keyUp zeroR game1)) = lives (gameState game1).
Proof.
  assert (closureWin (gameLoopE keyUp zeroR game1).1 = Some false) as Hev
    by (vm_compute; reflexivity).
  split; [exact Hev|].
  pose proof (closure_scoring_rule keyUp zeroR game1 false Hev) as H.
  cbv beta zeta in H. exact (proj2 (proj2 H)).
Defined.

Lemma void_is_a_rectangle_witness :
  reachable game1 /\ status (gameState game1) = playing /\
  exists r t, rectOK r /\ voidGrid (gridRef game1) r t.
Proof.
  assert (status (gameState game1) = playing) as Hs by (vm_compute; reflexivity).
  split_and!; [exact reachable_game1|exact Hs|].
  destruct (void_is_a_rectangle game1 reachable_game1 Hs) as (r & t & Hr & Hg & _).
  exists r, t. split; [exact Hr|exact Hg].
Defined.

Lemma own_trail_is_never_hit_witness :
  reachable game1 /\ status (gameState game1) = playing /\
  playerTouchesTrail game1 = false.
Proof.
  assert (status (gameState game1) = playing) as Hs by (vm_compute; reflexivity).
  split_and!; [exact reachable_game1|exact Hs|].
  exact (proj1 (own_trail_is_never_hit game1 reachable_game1 Hs)).
Defined.

Lemma closure_keeps_one_side_witness :
  reachable game1 /\
  closureWin (gameLoopE keyUp zeroR game1).1 = Some false /\
  cap_landing (closureCapture keyUp game1) =
    ((playerPos game1).1 + (playerSpeed game1).1,
     (playerPos game1).2 + (playerSpeed game1).2).
Proof.
  assert (closureWin (gameLoopE keyUp zeroR game1).1 = Some false) as Hev
    by (vm_compute; reflexivity).
  split_and!; [exact reachable_game1|exact Hev|].
  pose proof (closure_keeps_one_side keyUp zeroR game1 false reachable_game1 Hev) as H.
  cbv beta zeta in H. destruct H as (r & _ & _ & Hland & _). exact Hland.
Defined.

Lemma areaCaptured_counts_captured_side_witness :
  ValidGrid trailGrid /\
  cap_areaCaptured (capture trailGrid (0, -1) 48 1 [(17, 10)]) =
    Z.of_nat (length (filledCells
      (chooseFill (cap_fill1 (capture trailGrid (0, -1) 48 1 [(17, 10)]))
                  (cap_fill2 (capture trailGrid (0, -1) 48 1 [(17, 10)]))).1
      trailGrid (cap_gridCopy (capture trailGrid (0, -1) 48 1 [(17, 10)])))).
Proof.
  assert (ValidGrid trailGrid) as Hv.
  { intros i v. apply validCells_rd. vm_compute. reflexivity. }
  split; [exact Hv|].
  exact (areaCaptured_counts_captured_side trailGrid (0, -1) 48 1 [(17, 10)] Hv).
Defined.
